(** * API Mock Server Generator: the schema-driven data generator, the
      template engine, the parser and the server around them, embedded in
      Rocq.

    Sources embedded here:
    - [packages/core/src/openapi-parser.ts], class [DataGenerator]
      ([generateFromSchema], [resolveRef], [mergeSchemas], [generateString],
      [generateNumber], [generateBoolean], [generateArray], [generateObject],
      [inferType]) and class [OpenAPIParser] ([parseEndpoints],
      [extractResponseSchema], [normalizePath]);
    - the class [TemplateEngine] ([process], [processString],
      [processTemplate], [processObject], [processArray]), once on values
      and once on a store of cells, where a write into an object and a copy
      of it can be told apart; and the bodies of those [case]s of
      [processTemplate] that are arithmetic on the parameters and calls of
      the faker primitives modelled here;
    - [packages/shared/src/validators.ts];
    - [packages/server/src/request-monitor.ts] ([logRequest],
      [addToHistory], [broadcast], [getHistory], [clearHistory]),
      [packages/server/src/mock-server.ts] ([registerEndpoints],
      [registerEndpoint]) and, of
      [packages/server/src/ui-routes.ts], the handlers of
      [GET /api/endpoints], [GET /api/history] and
      [PUT /api/endpoints/:method/:path].

    Conventions of the embedding.
    - A JavaScript value of JSON shape is a term of [JS]. A number of [JS]
      is a rational, and the numbers of the program are the doubles among
      them. [generateNumber] computes as the program does, in the doubles
      of [Binary64] (round to nearest, ties to even, with the subnormal
      numbers, the infinities and NaN); a result that is an infinity or NaN
      has no term of [JS]. Lengths, counts, indices and the bounds of the
      template engine are integers far below [2^53], on which the
      arithmetic of doubles is exact, and they are computed in [Z]. Where
      [parseInt] brings NaN and the infinities in, its result has a type
      of its own.
    - A string is a sequence of code units below 256.
    - An object is the list of its own enumerable properties, a new key
      appended last (JavaScript lists the keys that are array indices
      first; no statement here depends on where they stand). A [Map] is
      such a list as well. The members that an object or an array inherits
      from its prototype are named in [objectPrototypeNames] and
      [arrayPrototypeNames], for the operator [in]. An assignment
      [obj[key] = value] is [assign_key] or [assign_built]: the key
      [__proto__] goes to the accessor of [Object.prototype] and stores no
      property, whereas a spread, [JSON.parse] and [Map.set] define the
      property, which is [set_field].
    - The [Set] of visited references is the list of its members in
      insertion order; two strings are the same member when they are
      equal, and for arrays and objects, which a [Set] tells apart by
      identity, the model answers only where identity does not matter.
    - The random source behind [faker] is an explicit list of natural
      numbers that the primitives consume from the left; an exhausted list
      keeps answering [0]. Every theorem quantifies over all such lists.
    - The bodies of the [case]s of [processTemplate] are a parameter of the
      template engine; its theorems hold for every choice of them, and the
      theorems about a modelled body for every choice that runs this body.
    - Recursion that the source does not bound is given a fuel argument;
      running out of fuel stands for a call chain that never returns (on an
      engine with a bounded call stack: one that ends by exhausting it).
    - Express, the file system, the clock, [JSON.stringify] and
      [decodeURIComponent] are outside the development: a handler of
      [ui-routes.ts] is a function from what it reads of the request to
      what it asks Express to send, and the library functions it calls are
      parameters. *)

From Stdlib Require Import ZArith QArith Qround Qpower Lqa Ascii String List Lia.
From stdpp Require Import base gmap sets list strings.

Set Warnings "-register-all,-clear-no-such-hyp".

(** ** JavaScript values *)

Inductive JS : Type :=
| JUndefined
| JNull
| JBool (b : bool)
| JNum (q : Q)
| JStr (s : string)
| JArr (items : list JS)
| JObj (fields : list (string * JS)).

Module Js.

(** [!!v] of JavaScript. *)
Definition truthy (v : JS) : bool :=
  match v with
  | JUndefined | JNull => false
  | JBool b => b
  | JNum q => negb (Qeq_bool q 0)
  | JStr s => negb (String.eqb s "")
  | JArr _ | JObj _ => true
  end.

(** [a || b] on values. *)
Definition or_else (a b : JS) : JS := if truthy a then a else b.

(** Own property lookup in a property list. *)
Fixpoint lookup_field {V : Type} (k : string) (fs : list (string * V))
  : option V :=
  match fs with
  | [] => None
  | (k', v) :: rest => if String.eqb k k' then Some v else lookup_field k rest
  end.

(** Defining the own property [k]: overwrite in place, or append a new
    property. This is what a spread and [JSON.parse] do with every key,
    what [Map.prototype.set] does, and what [obj[k] = v] does with every key
    but [__proto__]. *)
Fixpoint set_field {V : Type} (k : string) (v : V) (fs : list (string * V))
  : list (string * V) :=
  match fs with
  | [] => [(k, v)]
  | (k', v') :: rest =>
      if String.eqb k k' then (k, v) :: rest else (k', v') :: set_field k v rest
  end.

(** [obj[k] = v] on an object that the code has made with [{}] and assigns
    each key once, as in a loop over [Object.entries]. The key [__proto__]
    names the accessor that the object inherits from [Object.prototype]: the
    assignment calls its setter, which replaces the prototype of the object
    when [v] is an object or [null] and does nothing otherwise. No own
    property is stored either way. *)
Definition assign_key {V : Type} (k : string) (v : V) (fs : list (string * V))
  : list (string * V) :=
  if String.eqb k "__proto__" then fs else set_field k v fs.

(** An object under construction when the keys it is assigned may repeat
    (the keys of [processObject] are computed): its own properties, and
    whether [__proto__] is an ordinary key of it. It is one as soon as the
    lookup of [__proto__] from the prototype of the object no longer ends at
    the accessor of [Object.prototype]: the prototype is [null], or an
    object on which [__proto__] is an ordinary key. On such an object an
    assignment to [__proto__] defines an own property like any other. *)
Record Built (V : Type) : Type := mkBuilt {
  own : list (string * V);
  ordinary : bool
}.

Arguments mkBuilt {V} own ordinary.
Arguments own {V} b.
Arguments ordinary {V} b.

(** What a value is for the setter of [__proto__]: nothing it would take,
    [null], or an array or object, with whether [__proto__] is an ordinary
    key of it. *)
Inductive Prototype : Type :=
| NotAPrototype
| NullPrototype
| ObjectPrototype (ordinary : bool).

(** [result[key] = value]. *)
Definition assign_built {V : Type} (key : string) (value : V)
    (as_prototype : Prototype) (result : Built V) : Built V :=
  if negb (String.eqb key "__proto__") || ordinary result then
    mkBuilt (set_field key value (own result)) (ordinary result)
  else
    match as_prototype with
    | NotAPrototype => result
    | NullPrototype => mkBuilt (own result) true
    | ObjectPrototype through => mkBuilt (own result) through
    end.

Definition keys (fs : list (string * JS)) : list string := map fst fs.

(** [{...a, ...b}] once both operands are property lists. *)
Definition spread_into (a b : list (string * JS)) : list (string * JS) :=
  fold_left (fun acc kv => set_field (fst kv) (snd kv) acc) b a.

(** Decimal digits of a natural number, as [Number.prototype.toString]
    prints an array index. *)
Definition digit_of (n : nat) : ascii := ascii_of_nat (48 + n).

Fixpoint nat_digits (fuel n : nat) (acc : string) : string :=
  match fuel with
  | O => acc
  | S fuel' =>
      let acc' := String (digit_of (n mod 10)) acc in
      if Nat.eqb (n / 10) 0 then acc' else nat_digits fuel' (n / 10) acc'
  end.

Definition nat_to_string (n : nat) : string := nat_digits (S n) n "".

(** An array index is a decimal numeral that prints back to itself. *)
Fixpoint digits_value (s : string) (acc : nat) : option nat :=
  match s with
  | EmptyString => Some acc
  | String c rest =>
      let d := nat_of_ascii c in
      if Nat.leb 48 d && Nat.leb d 57 then digits_value rest (10 * acc + (d - 48))
      else None
  end.

Definition parse_index (s : string) : option nat :=
  match s with
  | EmptyString => None
  | _ =>
      match digits_value s 0 with
      | Some n => if String.eqb (nat_to_string n) s then Some n else None
      | None => None
      end
  end.

Definition string_chars (s : string) : list JS :=
  map (fun c => JStr (String c EmptyString)) (list_ascii_of_string s).

Definition indexed (l : list JS) : list (string * JS) :=
  imap (fun i v => (nat_to_string i, v)) l.

(** [v.k] and [v[k]]. [None] is the [TypeError] raised on reading a property
    of [null] or [undefined]. *)
Definition get (v : JS) (k : string) : option JS :=
  match v with
  | JUndefined | JNull => None
  | JBool _ | JNum _ => Some JUndefined
  | JStr s =>
      if String.eqb k "length" then Some (JNum (inject_Z (Z.of_nat (String.length s))))
      else match parse_index k with
           | Some i => Some (nth i (string_chars s) JUndefined)
           | None => Some JUndefined
           end
  | JArr l =>
      if String.eqb k "length" then Some (JNum (inject_Z (Z.of_nat (length l))))
      else match parse_index k with
           | Some i => Some (nth i l JUndefined)
           | None => Some JUndefined
           end
  | JObj fs => Some (default JUndefined (lookup_field k fs))
  end.

(** [v.k] for a value already known to be truthy, so that the read cannot
    raise. *)
Definition field (v : JS) (k : string) : JS := default JUndefined (get v k).

(** [typeof v === 'object'] (which also holds of [null] and of arrays). *)
Definition is_object (v : JS) : bool :=
  match v with
  | JNull | JArr _ | JObj _ => true
  | _ => false
  end.

(** The names that every object inherits from [Object.prototype]. *)
Definition objectPrototypeNames : list string :=
  ["constructor"; "__defineGetter__"; "__defineSetter__"; "hasOwnProperty";
   "__lookupGetter__"; "__lookupSetter__"; "isPrototypeOf";
   "propertyIsEnumerable"; "toString"; "valueOf"; "__proto__";
   "toLocaleString"].

(** The names that an array inherits from [Array.prototype] in some edition
    of the language up to ES2023. *)
Definition arrayPrototypeNames : list string :=
  ["at"; "concat"; "copyWithin"; "entries"; "every"; "fill"; "filter";
   "find"; "findIndex"; "findLast"; "findLastIndex"; "flat"; "flatMap";
   "forEach"; "includes"; "indexOf"; "join"; "keys"; "lastIndexOf"; "map";
   "pop"; "push"; "reduce"; "reduceRight"; "reverse"; "shift"; "slice";
   "some"; "sort"; "splice"; "toReversed"; "toSorted"; "toSpliced";
   "unshift"; "values"; "with"].

(** What [k in v] and [v[k]] find for an array or an object [v]: an own
    property with its value, a member of the prototype (a function or an
    accessor, which no tree stands for), or nothing. *)
Inductive Member : Type :=
| Own (value : JS)
| Inherited
| Absent.

Definition member (v : JS) (k : string) : Member :=
  match v with
  | JObj fs =>
      match lookup_field k fs with
      | Some x => Own x
      | None =>
          if existsb (String.eqb k) objectPrototypeNames then Inherited
          else Absent
      end
  | JArr l =>
      if String.eqb k "length" then Own (JNum (inject_Z (Z.of_nat (length l))))
      else
        match parse_index k with
        | Some i =>
            match l !! i with
            | Some x => Own x
            | None => Absent
            end
        | None =>
            if existsb (String.eqb k) (arrayPrototypeNames ++ objectPrototypeNames)
            then Inherited
            else Absent
        end
  | _ => Absent
  end.

(** [s.split(sep)] for a one-character separator. *)
Fixpoint split_on (sep : ascii) (s : string) : list string :=
  match s with
  | EmptyString => [EmptyString]
  | String c rest =>
      if Ascii.eqb c sep then EmptyString :: split_on sep rest
      else match split_on sep rest with
           | [] => [String c EmptyString]
           | hd :: tl => String c hd :: tl
           end
  end.

(** [SameValueZero], the equality of [Set] and of [Array.prototype.includes].
    Arrays and objects compare by identity; two values met at different
    places of a parsed document are distinct allocations. *)
Definition same_value_zero (a b : JS) : bool :=
  match a, b with
  | JUndefined, JUndefined => true
  | JNull, JNull => true
  | JBool x, JBool y => Bool.eqb x y
  | JNum x, JNum y => Qeq_bool x y
  | JStr x, JStr y => String.eqb x y
  | _, _ => false
  end.

Definition includes (l : list JS) (x : JS) : bool :=
  existsb (fun y => same_value_zero y x) l.

(** [[...new Set(l)]]: first occurrences, in order. *)
Fixpoint dedupe_from (seen l : list JS) : list JS :=
  match l with
  | [] => []
  | x :: rest =>
      if includes seen x then dedupe_from seen rest
      else x :: dedupe_from (seen ++ [x]) rest
  end.

Definition dedupe (l : list JS) : list JS := dedupe_from [] l.

(** The two values have the same tree. On [undefined], [null], booleans,
    numbers and strings this is [SameValueZero]; two arrays or objects that
    are one allocation have the same tree, and two with different trees are
    two allocations. *)
Fixpoint similar (a b : JS) : bool :=
  match a, b with
  | JUndefined, JUndefined => true
  | JNull, JNull => true
  | JBool x, JBool y => Bool.eqb x y
  | JNum x, JNum y => Qeq_bool x y
  | JStr x, JStr y => String.eqb x y
  | JArr l, JArr m =>
      (fix all (l m : list JS) : bool :=
         match l, m with
         | [], [] => true
         | x :: l', y :: m' => similar x y && all l' m'
         | _, _ => false
         end) l m
  | JObj f, JObj g =>
      (fix all (f g : list (string * JS)) : bool :=
         match f, g with
         | [], [] => true
         | (k, x) :: f', (k', y) :: g' =>
             String.eqb k k' && similar x y && all f' g'
         | _, _ => false
         end) f g
  | _, _ => false
  end.

(** [typeof v === 'object' && v !== null]: a value with an identity. *)
Definition is_reference (v : JS) : bool :=
  match v with
  | JArr _ | JObj _ => true
  | _ => false
  end.

End Js.

(** ** Numbers of the program: binary64

    A finite double is the rational number it stands for; the two zeros are
    one. [round] is rounding to nearest, ties to even, onto the doubles,
    subnormal ones included; each operation is the exact operation followed
    by [round], as IEEE 754 defines it. *)
Module Binary64.
Local Open Scope Q_scope.

Inductive number : Type :=
| Fin (q : Q)
| Inf (negative : bool)
| NaN.

(** [floor (log2 q)] for a positive [q]. *)
Definition ilog2 (q : Q) : Z :=
  let d := (Z.log2 (Qnum q) - Z.log2 (Zpos (Qden q)))%Z in
  if Qle_bool (2 ^ d) q then d else (d - 1)%Z.

(** The exponent of the last bit of the double nearest to a positive [q]:
    53 bits of precision, and no exponent below that of the subnormal
    numbers. *)
Definition exponent (q : Q) : Z := Z.max (ilog2 q - 52) (-1074).

(** The integer nearest to [x], the even one of two that are equally near. *)
Definition nearest_even (x : Q) : Z :=
  let f := Qfloor x in
  match Qcompare (x - inject_Z f) (1 # 2) with
  | Lt => f
  | Gt => (f + 1)%Z
  | Eq => if Z.even f then f else (f + 1)%Z
  end.

Definition round_positive (q : Q) : Q :=
  let e := exponent q in inject_Z (nearest_even (q / 2 ^ e)) * 2 ^ e.

(** The double nearest to [q]; a result of size [2^1024] or more is an
    infinity. *)
Definition round (q : Q) : number :=
  match Qcompare q 0 with
  | Eq => Fin 0
  | Gt =>
      let r := round_positive q in
      if Qle_bool (2 ^ 1024) r then Inf false else Fin (Qred r)
  | Lt =>
      let r := round_positive (- q) in
      if Qle_bool (2 ^ 1024) r then Inf true else Fin (Qred (- r))
  end.

Definition is_negative (q : Q) : bool :=
  match Qcompare q 0 with
  | Lt => true
  | _ => false
  end.

(** [a + b]. *)
Definition add (a b : number) : number :=
  match a, b with
  | NaN, _ | _, NaN => NaN
  | Fin x, Fin y => round (x + y)
  | Inf s, Fin _ | Fin _, Inf s => Inf s
  | Inf s, Inf t => if Bool.eqb s t then Inf s else NaN
  end.

(** [- a]. *)
Definition opp (a : number) : number :=
  match a with
  | Fin x => Fin (- x)
  | Inf s => Inf (negb s)
  | NaN => NaN
  end.

(** [a - b]. *)
Definition sub (a b : number) : number := add a (opp b).

(** [a * b]. *)
Definition mul (a b : number) : number :=
  match a, b with
  | NaN, _ | _, NaN => NaN
  | Fin x, Fin y => round (x * y)
  | Inf s, Fin y | Fin y, Inf s =>
      if Qeq_bool y 0 then NaN else Inf (xorb s (is_negative y))
  | Inf s, Inf t => Inf (xorb s t)
  end.

(** [a / b]. A zero divisor is taken to be [+0]. *)
Definition div (a b : number) : number :=
  match a, b with
  | NaN, _ | _, NaN => NaN
  | Fin x, Fin y =>
      if Qeq_bool y 0 then
        if Qeq_bool x 0 then NaN else Inf (is_negative x)
      else round (x / y)
  | Fin _, Inf _ => Fin 0
  | Inf s, Fin y => Inf (xorb s (is_negative y))
  | Inf _, Inf _ => NaN
  end.

(** [Math.floor(a)]. *)
Definition floor (a : number) : number :=
  match a with
  | Fin x => Fin (inject_Z (Qfloor x))
  | other => other
  end.

End Binary64.

(** ** Effects: state, exceptions, runs that never return *)

Inductive JsError : Type :=
| TypeError    (** raised by the JavaScript runtime *)
| FakerError.  (** raised by the faker library *)

(** How a call ends: it returns, it raises, it leaves the embedding, or it
    never returns. [St] is the state the call can read and change.
    [Unmodelled] is reached only where the embedding does not follow
    JavaScript: a numeric keyword holding a value that is not a number, an
    array keyword holding a truthy value that is not an array, a number
    generated as an infinity or NaN, a [$ref] path that names a member of
    a prototype, a [$ref] that is an array or an object with a twin in the
    visited set, and, in the store of the template engine, a reference
    without a cell or an array with a hole. *)
Inductive Outcome (St A : Type) : Type :=
| Ok (a : A) (s : St)
| Throw (e : JsError) (s : St)
| Unmodelled
| OutOfFuel.

Arguments Ok {St A} a s.
Arguments Throw {St A} e s.
Arguments Unmodelled {St A}.
Arguments OutOfFuel {St A}.

Definition Eff (St A : Type) : Type := St -> Outcome St A.

Definition ret {St A} (a : A) : Eff St A := fun s => Ok a s.

Definition bind {St A B} (m : Eff St A) (k : A -> Eff St B) : Eff St B :=
  fun s =>
    match m s with
    | Ok a s' => k a s'
    | Throw e s' => Throw e s'
    | Unmodelled => Unmodelled
    | OutOfFuel => OutOfFuel
    end.

Definition throw {St A} (e : JsError) : Eff St A := fun s => Throw e s.
Definition unmodelled {St A} : Eff St A := fun _ => Unmodelled.
Definition diverge {St A} : Eff St A := fun _ => OutOfFuel.

(** [try { body } catch (error) { handler }]. A body that runs out of fuel
    stands for a call chain without end; an engine with a bounded stack
    raises a [RangeError] somewhere along it, which the handler would
    catch, at a depth that the model does not know: such a run stays
    [OutOfFuel]. *)
Definition try_catch {St A} (body : Eff St A) (handler : JsError -> Eff St A)
  : Eff St A :=
  fun s =>
    match body s with
    | Throw e s' => handler e s'
    | other => other
    end.

Notation "'let*' x ':=' m 'in' k" := (bind m (fun x => k))
  (at level 10, x name, m at level 100, k at level 200, only parsing).
Notation "m '>>' k" := (bind m (fun _ => k))
  (at level 60, right associativity, only parsing).

(** [l.map(f)] with an effectful callback. *)
Section MapM.
Context {St A B : Type}.
Variable f : A -> Eff St B.

Fixpoint map_m (l : list A) : Eff St (list B) :=
  match l with
  | [] => ret []
  | x :: rest => let* y := f x in let* ys := map_m rest in ret (y :: ys)
  end.

End MapM.

(** ** The state of the generator *)

(** A [Set]: its members in the order in which they were added. *)
Definition Visited : Type := list JS.

#[global] Instance Visited_empty : Empty Visited := [].

(** What a call of the generator can change: the [Set] passed around as
    [visitedRefs] (one object for a whole call tree) and the position in the
    random source. *)
Record World : Type := mkWorld {
  visitedRefs : Visited;
  entropy : list nat
}.

Abbreviation M := (Eff World).

(** Some member has the tree of [ref]. *)
Definition twin (ref : JS) (members : Visited) : bool :=
  existsb (Js.similar ref) members.

(** [visitedRefs.has(ref)]. The type of [ref] is [string] in the source, but
    the value is whatever the document holds under [$ref]. An array or an
    object is a member by identity, which a tree does not carry: the answer
    is [false] when no member has the tree of [ref], and outside the
    embedding when one has. *)
Definition visited_has (ref : JS) : M bool :=
  fun w =>
    if Js.is_reference ref && twin ref (visitedRefs w) then Unmodelled
    else Ok (twin ref (visitedRefs w)) w.

(** [visitedRefs.add(ref)]: a new member goes last. *)
Definition visited_add (ref : JS) : M unit :=
  fun w =>
    Ok tt (mkWorld (if twin ref (visitedRefs w) then visitedRefs w
                    else visitedRefs w ++ [ref])
             (entropy w)).

(** [visitedRefs.delete(ref)]. For an array or an object this is called
    after [has] found no member with the tree of [ref] and [add] put [ref]
    in, so the member with this tree is [ref] itself. *)
Definition visited_delete (ref : JS) : M unit :=
  fun w =>
    Ok tt (mkWorld (List.filter (fun m => negb (Js.similar ref m)) (visitedRefs w))
             (entropy w)).

(** ** The faker library

    [@faker-js/faker] is a dependency of the repository, not part of it. Each
    primitive below follows the contract of its documentation: the range of
    the result, and the [FakerError] of an empty range. That is what the
    callers that ask for a length, a count or an index are taken to get.
    [generateNumber] hands the numbers of the schema to faker and returns
    the number it gets: for it, [computed_int] and [computed_float] follow
    the arithmetic of faker 8 and 9 in doubles, where the documented range
    can be missed by rounding and by overflow. *)
Module Faker.

(** The next number of the random source. *)
Definition draw : M nat :=
  fun w =>
    match entropy w with
    | [] => Ok 0 w
    | n :: rest => Ok n (mkWorld (visitedRefs w) rest)
    end.

(** [faker.number.int({ min, max })]: an integer between [ceil min] and
    [floor max]; raises when there is none. *)
Definition number_int (min max : Q) : M Z :=
  let effectiveMin := Qceiling min in
  let effectiveMax := Qfloor max in
  if Z.eqb effectiveMin effectiveMax then ret effectiveMin
  else if Z.ltb effectiveMax effectiveMin then throw FakerError
  else
    let* real := draw in
    ret (effectiveMin + Z.of_nat real mod (effectiveMax + 1 - effectiveMin))%Z.

(** [faker.number.int()]: bounds [0] and [Number.MAX_SAFE_INTEGER]. *)
Definition max_safe_integer : Z := 9007199254740991.

(** The next [n] bits of the random source, after the bits [acc]. *)
Fixpoint bits (n : nat) (acc : Z) : M Z :=
  match n with
  | O => ret acc
  | S n' =>
      let* b := draw in
      bits n' (2 * acc + (if Nat.odd b then 1 else 0))%Z
  end.

(** [randomizer.next()]: a fraction below 1 with 53 bits after the point
    (in faker 8 the last 21 of them are 0). *)
Definition real : M Q :=
  let* numerator := bits 53 0 in ret (numerator # 9007199254740992)%Q.

(** [faker.number.int({ min, max })] as faker computes it:
    [Math.floor(real * (effectiveMax + 1 - effectiveMin) + effectiveMin)]. *)
Definition computed_int (min max : Q) : M Binary64.number :=
  let effectiveMin := Qceiling min in
  let effectiveMax := Qfloor max in
  if Z.eqb effectiveMin effectiveMax then
    ret (Binary64.Fin (inject_Z effectiveMin))
  else if Z.ltb effectiveMax effectiveMin then throw FakerError
  else
    let* real := real in
    let low := Binary64.Fin (inject_Z effectiveMin) in
    let high := Binary64.Fin (inject_Z effectiveMax) in
    let one := Binary64.Fin 1 in
    let delta := Binary64.sub (Binary64.add high one) low in
    ret (Binary64.floor
           (Binary64.add (Binary64.mul (Binary64.Fin real) delta) low)).

(** [faker.number.float({ min, max })] as faker computes it:
    [real * (max - min) + min]; [min] when the bounds are equal, and a
    [FakerError] when [max < min]. *)
Definition computed_float (min max : Q) : M Binary64.number :=
  if Qeq_bool max min then ret (Binary64.Fin min)
  else if Qle_bool max min then throw FakerError
  else
    let* real := real in
    let low := Binary64.Fin min in
    let high := Binary64.Fin max in
    ret (Binary64.add (Binary64.mul (Binary64.Fin real) (Binary64.sub high low))
           low).

(** [faker.datatype.boolean()]. *)
Definition datatype_boolean : M bool :=
  let* n := draw in ret (Nat.odd n).

(** [faker.helpers.arrayElement(array)]: raises on an empty array. *)
Definition helpers_arrayElement (array : list JS) : M JS :=
  match array with
  | [] => throw FakerError
  | _ =>
      let* index :=
        if Nat.ltb 1 (length array)
        then number_int 0 (inject_Z (Z.of_nat (length array) - 1))
        else ret 0%Z in
      ret (nth (Z.to_nat index) array JUndefined)
  end.

Definition alphanumerics : list ascii :=
  list_ascii_of_string
    "0123456789ABCDEFGHIJKLMNOPQRSTUVWXYZabcdefghijklmnopqrstuvwxyz".

Fixpoint random_chars (n : nat) : M string :=
  match n with
  | O => ret EmptyString
  | S n' =>
      let* r := draw in
      let* rest := random_chars n' in
      ret (String (nth (r mod 62) alphanumerics "0"%char) rest)
  end.

(** [faker.string.alphanumeric(length)]: the empty string when
    [length <= 0]. *)
Definition string_alphanumeric (len : Z) : M string :=
  if Z.leb len 0 then ret EmptyString else random_chars (Z.to_nat len).

(** A generator of formatted text ([faker.string.uuid()],
    [faker.internet.email()], ...). The text itself is outside the
    development; the model keeps that a string comes back and that it
    depends on the random source. *)
Definition text (api : string) : M string :=
  let* n := draw in ret (api +:+ "#" +:+ Js.nat_to_string n).

End Faker.

(** ** Reading schema keywords *)
Module Keyword.
Import Js.

(** [v === 'name'] for one of several case labels. *)
Definition is_one_of (v : JS) (labels : list string) : bool :=
  match v with
  | JStr s => existsb (String.eqb s) labels
  | _ => false
  end.

(** The three ways [x && x.length > 0] can go. *)
Inductive ArrayView : Type :=
| NoElements               (** the test is false *)
| Elements (l : list JS)   (** a non-empty array *)
| NotAnArray.              (** a string, or an object with a [length] *)

Definition nonempty_array (x : JS) : ArrayView :=
  match x with
  | JArr [] => NoElements
  | JArr l => Elements l
  | JStr _ => if truthy x then NotAnArray else NoElements
  | JObj fs =>
      match lookup_field "length" fs with
      | None => NoElements
      | Some _ => NotAnArray
      end
  | JUndefined | JNull | JBool _ | JNum _ => NoElements
  end.

(** [x || fallback] where a number is expected. *)
Definition num_or (x : JS) (fallback : Q) : M Q :=
  if truthy x then
    match x with
    | JNum q => ret q
    | _ => unmodelled
    end
  else ret fallback.

(** [x !== undefined ? x : fallback] where a number is expected. *)
Definition num_unless_undefined (x : JS) (fallback : Q) : M Q :=
  match x with
  | JUndefined => ret fallback
  | JNum q => ret q
  | _ => unmodelled
  end.

(** A truthy value used as a number. *)
Definition as_number (x : JS) : M Q :=
  match x with
  | JNum q => ret q
  | _ => unmodelled
  end.

(** [Object.entries(v)] and the properties that [{...v}] copies. *)
Definition object_entries (v : JS) : list (string * JS) :=
  match v with
  | JObj fs => fs
  | JArr l => indexed l
  | JStr s => indexed (string_chars s)
  | _ => []
  end.

(** [[...v]]: the elements of an iterable; [TypeError] otherwise. *)
Definition iterate (v : JS) : M (list JS) :=
  match v with
  | JArr l => ret l
  | JStr s => ret (string_chars s)
  | _ => throw TypeError
  end.

(** [s.includes(key)] on strings. *)
Fixpoint string_includes (s key : string) : bool :=
  String.prefix key s ||
  match s with
  | EmptyString => false
  | String _ rest => string_includes rest key
  end.

(** [required?.includes(key) || false]. *)
Definition required_includes (required : JS) (key : string) : M bool :=
  match required with
  | JUndefined | JNull => ret false
  | JArr l => ret (includes l (JStr key))
  | JStr s => ret (string_includes s key)
  | JBool _ | JNum _ | JObj _ => throw TypeError
  end.

(** [v.k] where [v] may be [null] or [undefined]. *)
Definition read (v : JS) (k : string) : M JS :=
  match get v k with
  | Some x => ret x
  | None => throw TypeError
  end.

End Keyword.

(** ** DataGenerator *)
Module DataGenerator.
Import Js Keyword.

Section WithSpec.

(** [this.spec]: the whole OpenAPI document, or [undefined]. *)
Variable spec : JS.

(** [ref.startsWith('#') ? ref.slice(1) : ref]; a [ref] that is not a string
    has no [startsWith]. *)
Definition stripHash (r : string) : string :=
  match r with
  | String c rest => if Ascii.eqb c "#" then rest else r
  | EmptyString => r
  end.

Definition cleanRef (ref : JS) : M string :=
  match ref with
  | JStr r => ret (stripHash r)
  | _ => throw TypeError
  end.

(** [cleanRef.split('/').filter((p) => p)]. *)
Definition refParts (clean : string) : list string :=
  filter (fun p => p ≠ EmptyString) (split_on "/" clean).

(** Where the loop of [resolveRef] over the parts of the path ends: at a
    value, at a part that is missing, or at a member of a prototype. *)
Inductive Walked : Type :=
| Reached (current : JS)
| Missing
| Outside.

Fixpoint walk (current : JS) (parts : list string) : Walked :=
  match parts with
  | [] => Reached current
  | part :: rest =>
      if truthy current && is_object current then
        match member current part with
        | Own next => walk next rest
        | Inherited => Outside
        | Absent => Missing
        end
      else Missing
  end.

Fixpoint resolveRef (fuel : nat) (ref : JS) : M JS :=
  match fuel with
  | O => diverge
  | S fuel' =>
      let* seen := visited_has ref in
      if seen then ret JNull
      else if negb (truthy spec) then ret JNull
      else
        visited_add ref >>
        try_catch
          (let* clean := cleanRef ref in
           match walk spec (refParts clean) with
           | Missing => visited_delete ref >> ret JNull
           | Outside => unmodelled
           | Reached current =>
               if truthy current && truthy (field current "$ref") then
                 let* resolved := resolveRef fuel' (field current "$ref") in
                 visited_delete ref >> ret resolved
               else visited_delete ref >> ret current
           end)
          (fun _ => visited_delete ref >> ret JNull)
  end.

(** [mergeSchemas]: one round of the loop over [schemas[1..]]. [merged] is
    the property list of the local object. *)
Definition mergeRequired (merged : list (string * JS)) (currentRequired : JS)
  : M (list (string * JS)) :=
  let* existingRequired :=
    iterate (or_else (default JUndefined (lookup_field "required" merged)) (JArr [])) in
  let* added := iterate currentRequired in
  ret (set_field "required" (JArr (dedupe (existingRequired ++ added))) merged).

Definition mergeProperties (merged : list (string * JS)) (currentProperties : JS)
  : list (string * JS) :=
  set_field "properties"
    (JObj (spread_into
             (object_entries (default JUndefined (lookup_field "properties" merged)))
             (object_entries currentProperties)))
    merged.

Definition mergeStep (merged : list (string * JS)) (currentSchema : JS)
  : M (list (string * JS)) :=
  let* currentProperties := read currentSchema "properties" in
  let merged1 :=
    if truthy currentProperties then mergeProperties merged currentProperties
    else merged in
  let* currentRequired := read currentSchema "required" in
  let* merged2 :=
    if truthy currentRequired then mergeRequired merged1 currentRequired
    else ret merged1 in
  let merged3 := spread_into merged2 (object_entries currentSchema) in
  let merged4 :=
    if truthy (default JUndefined (lookup_field "properties" merged3))
       && truthy currentProperties
    then mergeProperties merged3 currentProperties
    else merged3 in
  if truthy currentRequired then mergeRequired merged4 currentRequired
  else ret merged4.

Fixpoint mergeLoop (merged : list (string * JS)) (rest : list JS)
  : M (list (string * JS)) :=
  match rest with
  | [] => ret merged
  | currentSchema :: rest' =>
      let* merged' := mergeStep merged currentSchema in
      mergeLoop merged' rest'
  end.

Definition mergeSchemas (schemas : list JS) : M JS :=
  match schemas with
  | [] => ret (JObj [])
  | [only] => ret only
  | first :: rest =>
      let* merged := mergeLoop (object_entries first) rest in
      ret (JObj merged)
  end.

Definition inferType (schema : JS) : JS :=
  if truthy (field schema "format") then
    if is_one_of (field schema "format")
         ["uuid"; "email"; "date-time"; "date"; "uri"; "url"]
    then JStr "string"
    else JStr "string"
  else JStr "string".

Definition generateString (schema : JS) : M JS :=
  let format := or_else (field schema "format") (JStr "") in
  let enumValues := field schema "enum" in
  match nonempty_array enumValues with
  | Elements l => Faker.helpers_arrayElement l
  | NotAnArray => unmodelled
  | NoElements =>
      if is_one_of format ["uuid"; "uuid4"] then
        let* s := Faker.text "string.uuid" in ret (JStr s)
      else if is_one_of format ["email"] then
        let* s := Faker.text "internet.email" in ret (JStr s)
      else if is_one_of format ["date-time"; "datetime"] then
        let* s := Faker.text "date.anytime.toISOString" in ret (JStr s)
      else if is_one_of format ["date"] then
        let* s := Faker.text "date.past.toISOString" in
        ret (JStr (hd EmptyString (split_on "T" s)))
      else if is_one_of format ["uri"; "url"] then
        let* s := Faker.text "internet.url" in ret (JStr s)
      else if is_one_of format ["hostname"] then
        let* s := Faker.text "internet.domainName" in ret (JStr s)
      else if is_one_of format ["ipv4"] then
        let* s := Faker.text "internet.ip" in ret (JStr s)
      else if is_one_of format ["ipv6"] then
        let* s := Faker.text "internet.ipv6" in ret (JStr s)
      else if is_one_of format ["password"] then
        let* s := Faker.text "internet.password" in ret (JStr s)
      else
        let* minLength := num_or (field schema "minLength") 1 in
        let* maxLength := num_or (field schema "maxLength") 50 in
        let* len := Faker.number_int minLength maxLength in
        let* s := Faker.string_alphanumeric len in
        ret (JStr s)
  end.

(** [Math.floor(value / multipleOf) * multipleOf]. *)
Definition snap (value : Binary64.number) (multipleOf : Q) : Binary64.number :=
  Binary64.mul
    (Binary64.floor (Binary64.div value (Binary64.Fin multipleOf)))
    (Binary64.Fin multipleOf).

(** The number that [generateNumber] returns, an infinity or [NaN]
    included. *)
Definition generateNumberValue (schema : JS) : M Binary64.number :=
  let isInteger := is_one_of (field schema "type") ["integer"] in
  let* minimum := num_unless_undefined (field schema "minimum") 0 in
  let* maximum := num_unless_undefined (field schema "maximum") 1000 in
  let multipleOf := field schema "multipleOf" in
  if isInteger then
    let* value := Faker.computed_int minimum maximum in
    if truthy multipleOf then
      let* m := as_number multipleOf in ret (snap value m)
    else ret value
  else
    let* value := Faker.computed_float minimum maximum in
    if truthy multipleOf then
      let* m := as_number multipleOf in ret (snap value m)
    else ret value.

(** [generateNumber], as far as [JS] holds its result. *)
Definition generateNumber (schema : JS) : M JS :=
  let* value := generateNumberValue schema in
  match value with
  | Binary64.Fin q => ret (JNum q)
  | Binary64.Inf _ | Binary64.NaN => unmodelled
  end.

Definition generateBoolean (_schema : JS) : M JS :=
  let* b := Faker.datatype_boolean in ret (JBool b).

(** The [for] loop that pushes [length] generated items. *)
Fixpoint pushItems (gen : M JS) (n : nat) (array : list JS) : M (list JS) :=
  match n with
  | O => ret array
  | S n' => let* item := gen in pushItems gen n' (array ++ [item])
  end.

(** [generate] stands for [this.generateFromSchema(_, visitedRefs)]. *)
Definition generateArray (generate : JS -> M JS) (schema : JS) : M JS :=
  let* minItems := num_or (field schema "minItems") 1 in
  let* maxItems := num_or (field schema "maxItems") 5 in
  let* len := Faker.number_int minItems maxItems in
  let itemsSchema :=
    or_else (field schema "items") (JObj [("type", JStr "string")]) in
  let* array := pushItems (generate itemsSchema) (Z.to_nat len) [] in
  ret (JArr array).

(** The loop of [generateObject] over [Object.entries(properties)]. *)
Fixpoint fillProperties (generate : JS -> M JS) (schema : JS)
    (entries : list (string * JS)) (obj : list (string * JS))
  : M (list (string * JS)) :=
  match entries with
  | [] => ret obj
  | (key, propSchema) :: rest =>
      let* isRequired := required_includes (field schema "required") key in
      let* wanted := if isRequired then ret true else Faker.datatype_boolean in
      let* obj' :=
        if (wanted : bool) then
          let* value := generate propSchema in ret (assign_key key value obj)
        else ret obj in
      fillProperties generate schema rest obj'
  end.

(** The loop of [generateObject] over the additional properties. *)
Fixpoint addAdditional (generate : JS -> M JS) (additional : JS) (n : nat)
    (obj : list (string * JS)) : M (list (string * JS)) :=
  match n with
  | O => ret obj
  | S n' =>
      let* suffix := Faker.string_alphanumeric 8 in
      let key := "additional_" +:+ suffix in
      let* obj' :=
        if is_object additional then
          let* value := generate additional in ret (assign_key key value obj)
        else
          match additional with
          | JBool true =>
              let* a := Faker.string_alphanumeric 10 in
              let* b := Faker.number_int 0 (inject_Z Faker.max_safe_integer) in
              let* c := Faker.datatype_boolean in
              let* value :=
                Faker.helpers_arrayElement [JStr a; JNum (inject_Z b); JBool c] in
              ret (assign_key key value obj)
          | _ => ret obj
          end in
      addAdditional generate additional n' obj'
  end.

Definition generateObject (generate : JS -> M JS) (schema : JS) : M JS :=
  let properties := or_else (field schema "properties") (JObj []) in
  let* obj := fillProperties generate schema (object_entries properties) [] in
  let additional := field schema "additionalProperties" in
  let* obj' :=
    if truthy additional then
      let* additionalCount := Faker.number_int 0 3 in
      addAdditional generate additional (Z.to_nat additionalCount) obj
    else ret obj in
  ret (JObj obj').

(** The callback of [schema.allOf.map]. *)
Definition resolveMember (fuel : nat) (s : JS) : M JS :=
  let* ref := read s "$ref" in
  if truthy ref then
    let* resolved := resolveRef fuel ref in ret (or_else resolved s)
  else ret s.

(** The [switch (type)] that ends [generateFromSchema]. *)
Definition switchType (generate : JS -> M JS) (schema : JS) : M JS :=
  let type := or_else (field schema "type") (inferType schema) in
  if is_one_of type ["string"] then generateString schema
  else if is_one_of type ["number"; "integer"] then generateNumber schema
  else if is_one_of type ["boolean"] then generateBoolean schema
  else if is_one_of type ["array"] then generateArray generate schema
  else if is_one_of type ["object"] then generateObject generate schema
  else if is_one_of type ["null"] then ret JNull
  else ret JNull.

Fixpoint generateFromSchema (fuel : nat) (schema : JS) : M JS :=
  match fuel with
  | O => diverge
  | S fuel' =>
      if negb (truthy schema) then ret JNull
      else if truthy (field schema "$ref") then
        let* resolvedSchema := resolveRef fuel' (field schema "$ref") in
        if truthy resolvedSchema then generateFromSchema fuel' resolvedSchema
        else ret (JObj [])
      else
        match nonempty_array (field schema "oneOf") with
        | Elements oneOf =>
            let* selectedSchema := Faker.helpers_arrayElement oneOf in
            generateFromSchema fuel' selectedSchema
        | NotAnArray => unmodelled
        | NoElements =>
        match nonempty_array (field schema "anyOf") with
        | Elements anyOf =>
            let* selectedSchema := Faker.helpers_arrayElement anyOf in
            generateFromSchema fuel' selectedSchema
        | NotAnArray => unmodelled
        | NoElements =>
        match nonempty_array (field schema "allOf") with
        | Elements allOf =>
            let* resolvedSchemas := map_m (resolveMember fuel') allOf in
            let* merged := mergeSchemas resolvedSchemas in
            generateFromSchema fuel' merged
        | NotAnArray => unmodelled
        | NoElements => switchType (generateFromSchema fuel') schema
        end end end
  end.

(** A top-level call: [visitedRefs] defaults to [new Set()]. *)
Definition generate (fuel : nat) (schema : JS) (rnd : list nat)
  : Outcome World JS :=
  generateFromSchema fuel schema (mkWorld ∅ rnd).

End WithSpec.
End DataGenerator.

(** ** TemplateEngine

    Strings are sequences of code units below 256, so the white space that
    [trim] removes is TAB, LF, VT, FF, CR, SPACE and NBSP, and [toLowerCase]
    acts on A-Z and on the capital letters of Latin-1. *)
Module TemplateEngine.
Import Js.

Definition between (lo n hi : nat) : bool := Nat.leb lo n && Nat.leb n hi.

Definition is_whitespace (c : ascii) : bool :=
  let n := nat_of_ascii c in
  between 9 n 13 || Nat.eqb n 32 || Nat.eqb n 160.

Fixpoint trimStart (s : string) : string :=
  match s with
  | String c rest => if is_whitespace c then trimStart rest else s
  | EmptyString => EmptyString
  end.

Fixpoint trimEnd (s : string) : string :=
  match s with
  | EmptyString => EmptyString
  | String c rest =>
      match trimEnd rest with
      | EmptyString => if is_whitespace c then EmptyString else String c EmptyString
      | kept => String c kept
      end
  end.

(** [s.trim()]. *)
Definition trim (s : string) : string := trimEnd (trimStart s).

Definition lower_char (c : ascii) : ascii :=
  let n := nat_of_ascii c in
  if between 65 n 90 || between 192 n 214 || between 216 n 222
  then ascii_of_nat (n + 32)
  else c.

(** [s.toLowerCase()]. *)
Fixpoint toLowerCase (s : string) : string :=
  match s with
  | EmptyString => EmptyString
  | String c rest => String (lower_char c) (toLowerCase rest)
  end.

(** The labels of the [switch] of [processTemplate], in source order. *)
Definition catalogNames : list string :=
  ["uuid"; "date"; "datetime"; "date-past"; "date-future";
   "date-birthdate"; "email"; "name"; "fullname"; "firstname"; "lastname";
   "username"; "nickname"; "nick"; "password"; "url"; "ip"; "ipv6";
   "phone"; "address"; "city"; "country"; "zipcode"; "latitude";
   "longitude"; "int"; "integer"; "float"; "string"; "random"; "timestamp";
   "timestamp-ms"; "timestamp-s"; "creditcard"; "credit-card"; "cvv";
   "iban"; "bic"; "account-number"; "amount"; "price"; "currency-code";
   "currency-name"; "currency-symbol"; "bitcoin-address";
   "ethereum-address"; "product-name"; "product-description";
   "product-material"; "product-adjective"; "department"; "isbn-10";
   "isbn-13"; "company-name"; "company"; "company-catchphrase";
   "company-buzzphrase"; "word"; "words"; "sentence"; "sentences";
   "paragraph"; "paragraphs"; "text"; "lorem"; "image-url"; "image";
   "avatar"; "color"; "color-hex"; "color-rgb"; "state"; "state-abbr";
   "street-name"; "building-number"; "timezone"; "country-code";
   "job-title"; "job"; "job-type"; "bio"; "gender"; "sex"; "age";
   "middle-name"; "prefix"; "suffix"; "domain"; "domain-word";
   "user-agent"; "mac-address"; "port"; "animal-type"; "animal-dog";
   "animal-cat"; "animal-bird"; "hacker-phrase"; "hacker-verb";
   "hacker-noun"; "hacker-adjective"; "hacker-abbreviation"; "role";
   "permission"; "order-id"; "order_id"; "order-number"; "order";
   "invoice-id"; "invoice_id"; "invoice-number"; "transaction-id";
   "transaction_id"; "txn-id"; "payment-id"; "payment_id"; "refund-id";
   "refund_id"; "ticket-id"; "ticket_id"; "ticket-number"; "booking-id";
   "booking_id"; "reservation-id"; "reservation_id"; "subscription-id";
   "subscription_id"; "session-id"; "session_id"; "token"; "api-key";
   "api_key"; "secret-key"; "secret_key"; "access-token"; "access_token";
   "refresh-token"; "refresh_token"; "slug"; "url-slug"; "hash";
   "md5-hash"; "sha256-hash"; "status"; "order-status"; "payment-status";
   "user-status"; "version"; "semver"; "category"; "tag"; "tags"; "rating";
   "score"; "percentage"; "promo-code"; "promocode"; "coupon-code";
   "discount-code"; "referral-code"; "priority"; "file-extension";
   "mime-type"; "date-recent"; "date-soon"; "date-month"; "date-weekday";
   "alpha"; "alphabetic"; "numeric"; "hex"; "base64"; "nanoid"; "boolean";
   "bool"].

Definition is_brace_close (c : ascii) : bool := Ascii.eqb c "}".

(** [[^}]+] is greedy and cannot give a character back: it takes the longest
    run without a closing brace. The result is the run and what follows. *)
Fixpoint takeTemplate (s : string) : string * string :=
  match s with
  | EmptyString => (EmptyString, EmptyString)
  | String c rest =>
      if is_brace_close c then (EmptyString, s)
      else let (run, after) := takeTemplate rest in (String c run, after)
  end.

Definition starts_with_two (c : ascii) (s : string) : option string :=
  match s with
  | String a (String b rest) =>
      if Ascii.eqb a c && Ascii.eqb b c then Some rest else None
  | _ => None
  end.

(** A match of [/\{\{([^}]+)\}\}/] that begins at the first character of
    [s]: the captured text and the number of characters matched. *)
Definition matchHere (s : string) : option (string * nat) :=
  match starts_with_two "{" s with
  | Some body =>
      let (template, after) := takeTemplate body in
      match template, starts_with_two "}" after with
      | String _ _, Some _ => Some (template, 4 + String.length template)
      | _, _ => None
      end
  | None => None
  end.

Section WithCatalog.

(** What the generators of the catalog read and change: the random source of
    faker and the clock. *)
Context {W : Type}.

(** The body of the [case] that carries the label [name], run on the
    parameters. Each body is calls of faker and arithmetic on the parameters;
    the development holds for whatever they return or raise. *)
Variable expand : string -> list string -> Eff W string.

Definition processTemplate (template : string) : Eff W string :=
  match split_on ":" template with
  | name :: params =>
      let trimmedName := toLowerCase (trim name) in
      if existsb (String.eqb trimmedName) catalogNames
      then expand trimmedName params
      else ret ("{{" +:+ template +:+ "}}")
  | [] => throw TypeError
  end.

(** [str.replace(templateRegex, callback)]: the matches are found from left
    to right, the search going on after each match. [skip] counts the
    characters of the current match still to pass over. *)
Fixpoint replaceFrom (skip : nat) (str : string) : Eff W string :=
  match str with
  | EmptyString => ret EmptyString
  | String c rest =>
      match skip with
      | S skip' => replaceFrom skip' rest
      | O =>
          match matchHere str with
          | Some (template, len) =>
              let trimmed := trim template in
              let* replacement := processTemplate trimmed in
              let* tail := replaceFrom (len - 1) rest in
              ret (replacement +:+ tail)
          | None =>
              let* tail := replaceFrom 0 rest in ret (String c tail)
          end
      end
  end.

Definition processString (str : string) : Eff W string := replaceFrom 0 str.

(** What a processed value is for the setter of [__proto__]. *)
Definition prototype_of (marked : JS * bool) : Prototype :=
  match fst marked with
  | JNull => NullPrototype
  | JArr _ | JObj _ => ObjectPrototype (snd marked)
  | _ => NotAPrototype
  end.

Section Recursion.

(** [this.process], which also tells whether [__proto__] is an ordinary
    key of the object it returns. *)
Variable processMarked : JS -> Eff W (JS * bool).

(** The loop of [processObject] over [Object.entries(obj)]. *)
Fixpoint processEntries (entries : list (string * JS)) (result : Built JS)
  : Eff W (Built JS) :=
  match entries with
  | [] => ret result
  | (key, value) :: rest =>
      let* processedKey := processString key in
      let* processed := processMarked value in
      processEntries rest
        (assign_built processedKey (fst processed) (prototype_of processed)
           result)
  end.

Definition processObject (obj : list (string * JS)) : Eff W (JS * bool) :=
  let* result := processEntries obj (mkBuilt [] false) in
  ret (JObj (own result), ordinary result).

Definition processArray (arr : list JS) : Eff W (JS * bool) :=
  let* items :=
    map_m (fun item => let* processed := processMarked item in
                       ret (fst processed)) arr in
  ret (JArr items, false).

End Recursion.

Fixpoint processMarked (data : JS) : Eff W (JS * bool) :=
  match data with
  | JStr str =>
      let* processed := processString str in ret (JStr processed, false)
  | JObj obj => processObject processMarked obj
  | JArr arr => processArray processMarked arr
  | _ => ret (data, false)
  end.

(** [process]. *)
Definition process (data : JS) : Eff W JS :=
  let* processed := processMarked data in ret (fst processed).

End WithCatalog.
End TemplateEngine.

(** ** TemplateEngine over a store

    The same five methods with arrays and objects as cells of a store, so
    that the identity of an object and a write into it can be told apart
    from a copy. A location is an index in the list of cells; allocation
    appends a cell. *)
Module TemplateHeap.
Import Js TemplateEngine.

Inductive Val : Type :=
| VUndefined
| VNull
| VBool (b : bool)
| VNum (q : Q)
| VStr (s : string)
| VRef (l : nat).

Inductive Cell : Type :=
| CArr (items : list Val)
| CObj (fields : list (string * Val)).

Record Store (W : Type) : Type := mkStore {
  cells : list Cell;
  outside : W
}.

Arguments mkStore {W} cells outside.
Arguments cells {W} s.
Arguments outside {W} s.

(** The tree that a value stands for, read through the store down to
    [depth] references. *)
Fixpoint reify (depth : nat) (heap : list Cell) (v : Val) : option JS :=
  match v with
  | VUndefined => Some JUndefined
  | VNull => Some JNull
  | VBool b => Some (JBool b)
  | VNum q => Some (JNum q)
  | VStr s => Some (JStr s)
  | VRef l =>
      match depth with
      | O => None
      | S depth' =>
          match heap !! l with
          | Some (CArr items) =>
              JArr <$> mapM (reify depth' heap) items
          | Some (CObj fields) =>
              JObj <$> mapM (fun kv => pair (fst kv) <$> reify depth' heap (snd kv))
                         fields
          | None => None
          end
      end
  end.

Section WithCatalog.
Context {W : Type}.
Variable expand : string -> list string -> Eff W string.

(** A computation on the random source and the clock, run inside the
    store. *)
Definition lift {A} (m : Eff W A) : Eff (Store W) A :=
  fun st =>
    match m (outside st) with
    | Ok a w' => Ok a (mkStore (cells st) w')
    | Throw e w' => Throw e (mkStore (cells st) w')
    | Unmodelled => Unmodelled
    | OutOfFuel => OutOfFuel
    end.

(** [{}] and the array that [map] creates: a new cell. *)
Definition alloc (c : Cell) : Eff (Store W) nat :=
  fun st => Ok (length (cells st)) (mkStore (cells st ++ [c]) (outside st)).

(** Reading the cell behind a reference. A location without a cell is not
    a value of the program. *)
Definition load (l : nat) : Eff (Store W) Cell :=
  fun st =>
    match cells st !! l with
    | Some c => Ok c st
    | None => Unmodelled
    end.

(** What a processed value is for the setter of [__proto__]. *)
Definition prototype_of (marked : Val * bool) : Prototype :=
  match fst marked with
  | VNull => NullPrototype
  | VRef _ => ObjectPrototype (snd marked)
  | _ => NotAPrototype
  end.

(** [result[key] = value], where [ordinary] tells whether [__proto__] is an
    ordinary key of [result]; the answer tells whether it is one now. *)
Definition assign (result : nat) (key : string) (value : Val)
    (as_prototype : Prototype) (ordinary : bool) : Eff (Store W) bool :=
  fun st =>
    match cells st !! result with
    | Some (CObj fields) =>
        let built := assign_built key value as_prototype (mkBuilt fields ordinary) in
        Ok (Js.ordinary built)
          (mkStore (<[result := CObj (own built)]> (cells st)) (outside st))
    | _ => Unmodelled
    end.

(** [A[k] = mapped] for the next index [k] of the array under
    construction. *)
Definition store_item (result : nat) (value : Val) : Eff (Store W) unit :=
  fun st =>
    match cells st !! result with
    | Some (CArr items) =>
        Ok tt (mkStore (<[result := CArr (items ++ [value])]> (cells st))
                 (outside st))
    | _ => Unmodelled
    end.

Section Recursion.

(** [this.process], which also tells whether [__proto__] is an ordinary
    key of the object it returns. *)
Variable processMarked : Val -> Eff (Store W) (Val * bool).

(** The loop of [processObject] over [Object.entries(obj)], an array made
    before the loop starts. *)
Fixpoint processEntries (result : nat) (entries : list (string * Val))
    (ordinary : bool) : Eff (Store W) bool :=
  match entries with
  | [] => ret ordinary
  | (key, value) :: rest =>
      let* processedKey := lift (processString expand key) in
      let* processed := processMarked value in
      let* ordinary' :=
        assign result processedKey (fst processed) (prototype_of processed)
          ordinary in
      processEntries result rest ordinary'
  end.

Definition processObject (obj : list (string * Val))
  : Eff (Store W) (Val * bool) :=
  let* result := alloc (CObj []) in
  let* ordinary := processEntries result obj false in
  ret (VRef result, ordinary).

(** The loop of [Array.prototype.map]: for each index below the length
    taken at the start, the element is read from the array as it is now. *)
Fixpoint mapItems (arr result : nat) (k n : nat) : Eff (Store W) unit :=
  match n with
  | O => ret tt
  | S n' =>
      let* cell := load arr in
      match cell with
      | CArr items =>
          match items !! k with
          | Some item =>
              let* mapped := processMarked item in
              store_item result (fst mapped) >>
              mapItems arr result (S k) n'
          | None => unmodelled
          end
      | CObj _ => unmodelled
      end
  end.

Definition processArray (arr : nat) (len : nat) : Eff (Store W) (Val * bool) :=
  let* result := alloc (CArr []) in
  mapItems arr result 0 len >>
  ret (VRef result, false).

End Recursion.

Fixpoint processMarked (fuel : nat) (data : Val) : Eff (Store W) (Val * bool) :=
  match fuel with
  | O => diverge
  | S fuel' =>
      match data with
      | VStr str =>
          let* processed := lift (processString expand str) in
          ret (VStr processed, false)
      | VRef l =>
          let* cell := load l in
          match cell with
          | CObj obj => processObject (processMarked fuel') obj
          | CArr items => processArray (processMarked fuel') l (length items)
          end
      | _ => ret (data, false)
      end
  end.

(** [process]. *)
Definition process (fuel : nat) (data : Val) : Eff (Store W) Val :=
  let* processed := processMarked fuel data in ret (fst processed).

End WithCatalog.
End TemplateHeap.

(** ** More of the JavaScript library: [toUpperCase], [parseInt] and the
    printing of integers *)
Module JsText.
Import Js TemplateEngine.

(** The capital of a character, for the code units below 256 that strings
    are made of here. Two of them have their capital outside that alphabet
    (the micro sign and the y with diaeresis): [None]. The sharp s becomes
    two letters. Beyond these code units JavaScript has two more characters
    whose capital is a letter of A-Z, the long s (U+017F) and the dotless i
    (U+0131); no string of this development holds them. *)
Definition upper_char (c : ascii) : option string :=
  let n := nat_of_ascii c in
  if between 97 n 122 || between 224 n 246 || between 248 n 254
  then Some (String (ascii_of_nat (n - 32)) EmptyString)
  else if Nat.eqb n 223 then Some "SS"
  else if Nat.eqb n 181 || Nat.eqb n 255 then None
  else Some (String c EmptyString).

(** [s.toUpperCase()]; [None] when the result leaves the alphabet. *)
Fixpoint toUpperCase (s : string) : option string :=
  match s with
  | EmptyString => Some EmptyString
  | String c rest =>
      match upper_char c, toUpperCase rest with
      | Some u, Some r => Some (u +:+ r)
      | _, _ => None
      end
  end.

Definition is_digit (c : ascii) : bool := between 48 (nat_of_ascii c) 57.

(** The longest run of decimal digits at the head of the text. *)
Fixpoint digit_run (s : string) : list nat :=
  match s with
  | EmptyString => []
  | String c rest =>
      if is_digit c then (nat_of_ascii c - 48)%nat :: digit_run rest else []
  end.

Definition numeral_value (digits : list nat) : Z :=
  fold_left (fun acc d => (10 * acc + Z.of_nat d)%Z) digits 0%Z.

(** What [parseInt] returns. *)
Inductive Parsed : Type :=
| NotANumber
| Finite (z : Z)
| Infinite (negative : bool).

(** The least integer that rounds to [Infinity] as a double. *)
Definition overflow : Z := (2 ^ 1024 - 2 ^ 970)%Z.

(** [parseInt(s, 10)]: white space, a sign, then the longest run of digits.
    The value is kept exact; below [overflow] it differs from the double
    only by rounding, which no comparison with an integer below 2^53
    observes. *)
Definition parseInt (s : string) : Parsed :=
  let trimmed := trimStart s in
  let (negative, body) :=
    match trimmed with
    | String c rest =>
        if Ascii.eqb c "-" then (true, rest)
        else if Ascii.eqb c "+" then (false, rest)
        else (false, trimmed)
    | EmptyString => (false, trimmed)
    end in
  match digit_run body with
  | [] => NotANumber
  | digits =>
      let value := numeral_value digits in
      if Z.leb overflow value then Infinite negative
      else Finite (if negative : bool then - value else value)%Z
  end.

(** [n.toString()] for an integer below 10^21 in size. *)
Definition integer_to_string (z : Z) : string :=
  if Z.ltb z 0 then "-" +:+ nat_to_string (Z.to_nat (- z))
  else nat_to_string (Z.to_nat z).

End JsText.

(** ** The bodies of the catalog

    The [case]s of [processTemplate] whose bodies are arithmetic on the
    parameters and calls of the faker primitives modelled above. The other
    bodies (formatted text, floating-point printing, the clock) stay a
    parameter of the engine. *)
Module Catalog.
Import Js JsText.

(** [params[i] ? parseInt(params[i], 10) : fallback]. *)
Definition intParam (params : list string) (i : nat) (fallback : Z) : Parsed :=
  match params !! i with
  | Some p => if String.eqb p EmptyString then Finite fallback else parseInt p
  | None => Finite fallback
  end.

(** [Number.isFinite(x) ? Math.max(lo, Math.min(hi, x)) : fallback]. *)
Definition clamp (lo hi fallback : Z) (x : Parsed) : Z :=
  match x with
  | Finite z => Z.max lo (Z.min hi z)
  | NotANumber | Infinite _ => fallback
  end.

(** [faker.helpers.arrayElement] on an array of strings. *)
Definition arrayElement (options : list string) : M string :=
  let* v := Faker.helpers_arrayElement (map JStr options) in
  match v with
  | JStr s => ret s
  | _ => unmodelled
  end.

(** [faker.string.alphanumeric(n).toUpperCase()]. *)
Definition upperAlphanumeric (n : Z) : M string :=
  let* s := Faker.string_alphanumeric n in
  match toUpperCase s with
  | Some u => ret u
  | None => unmodelled
  end.

(** [faker.number.int({ min, max }).toString()]. *)
Definition intString (min max : Z) : M string :=
  let* n := Faker.number_int (inject_Z min) (inject_Z max) in
  ret (integer_to_string n).

Definition caseInt (params : list string) : M string :=
  let min := intParam params 0 0 in
  let max := intParam params 1 1000 in
  let safeMin := clamp (-2147483648) 2147483647 0 min in
  let safeMax := clamp (-2147483648) 2147483647 1000 max in
  let finalMin := Z.min safeMin safeMax in
  let finalMax := Z.max safeMin safeMax in
  intString finalMin finalMax.

Definition caseAge (params : list string) : M string :=
  let min := intParam params 0 18 in
  let max := intParam params 1 65 in
  let safeMin := clamp 0 120 18 min in
  let safeMax := clamp 0 120 65 max in
  let finalMin := Z.min safeMin safeMax in
  let finalMax := Z.max safeMin safeMax in
  intString finalMin finalMax.

Definition caseString (params : list string) : M string :=
  let length := intParam params 0 10 in
  let safeLength := clamp 1 10000 10 length in
  Faker.string_alphanumeric safeLength.

Definition caseRandom (params : list string) : M string :=
  if Nat.ltb 0 (List.length params) then arrayElement params
  else Faker.string_alphanumeric 10.

Definition caseVersion (firstMin : Z) (_ : list string) : M string :=
  let* major := intString firstMin 10 in
  let* minor := intString 0 99 in
  let* patch := intString 0 99 in
  ret (major +:+ "." +:+ minor +:+ "." +:+ patch).

Definition caseBoolean (_ : list string) : M string :=
  let* b := Faker.datatype_boolean in
  ret (if b : bool then "true" else "false").

(** The labels of each modelled [case] and its body, in source order. *)
Definition cases : list (list string * (list string -> M string)) :=
  [(["int"; "integer"], caseInt);
   (["string"], caseString);
   (["random"], caseRandom);
   (["age"], caseAge);
   (["role"],
    fun _ => arrayElement
      ["admin"; "user"; "moderator"; "editor"; "viewer"; "guest"; "manager";
       "developer"; "tester"; "analyst"]);
   (["permission"],
    fun _ => arrayElement
      ["read"; "write"; "delete"; "update"; "create"; "execute"; "manage";
       "view"]);
   (["order"], fun _ => intString 1000 999999);
   (["payment-id"; "payment_id"],
    fun _ => let* s := upperAlphanumeric 10 in ret ("PAY-" +:+ s));
   (["refund-id"; "refund_id"],
    fun _ => let* s := upperAlphanumeric 10 in ret ("REF-" +:+ s));
   (["ticket-id"; "ticket_id"; "ticket-number"],
    fun _ => let* s := upperAlphanumeric 8 in ret ("TKT-" +:+ s));
   (["booking-id"; "booking_id"],
    fun _ => let* s := upperAlphanumeric 10 in ret ("BK-" +:+ s));
   (["reservation-id"; "reservation_id"],
    fun _ => let* s := upperAlphanumeric 10 in ret ("RSV-" +:+ s));
   (["subscription-id"; "subscription_id"],
    fun _ => let* s := upperAlphanumeric 10 in ret ("SUB-" +:+ s));
   (["token"], fun _ => Faker.string_alphanumeric 32);
   (["api-key"; "api_key"],
    fun _ => let* s := Faker.string_alphanumeric 32 in ret ("sk-" +:+ s));
   (["secret-key"; "secret_key"], fun _ => Faker.string_alphanumeric 64);
   (["access-token"; "access_token"], fun _ => Faker.string_alphanumeric 40);
   (["refresh-token"; "refresh_token"], fun _ => Faker.string_alphanumeric 40);
   (["status"],
    fun _ => arrayElement
      ["active"; "inactive"; "pending"; "completed"; "cancelled"; "failed"]);
   (["order-status"],
    fun _ => arrayElement
      ["pending"; "processing"; "shipped"; "delivered"; "cancelled";
       "refunded"]);
   (["payment-status"],
    fun _ => arrayElement ["pending"; "paid"; "failed"; "refunded"; "cancelled"]);
   (["user-status"],
    fun _ => arrayElement
      ["active"; "inactive"; "suspended"; "banned"; "pending"]);
   (["version"], caseVersion 0);
   (["semver"], caseVersion 1);
   (["category"],
    fun _ => arrayElement
      ["electronics"; "clothing"; "food"; "books"; "toys"; "sports"; "home";
       "automotive"; "health"; "beauty"]);
   (["tag"],
    fun _ => arrayElement
      ["new"; "popular"; "featured"; "sale"; "hot"; "trending"; "limited";
       "exclusive"]);
   (["score"], fun _ => intString 0 100);
   (["promo-code"; "promocode"; "coupon-code"], fun _ => upperAlphanumeric 8);
   (["discount-code"],
    fun _ => let* s := upperAlphanumeric 6 in ret ("DISCOUNT" +:+ s));
   (["referral-code"], fun _ => upperAlphanumeric 10);
   (["priority"],
    fun _ => arrayElement ["low"; "medium"; "high"; "urgent"; "critical"]);
   (["file-extension"],
    fun _ => arrayElement
      ["pdf"; "doc"; "docx"; "xls"; "xlsx"; "jpg"; "png"; "gif"; "mp4"; "zip"]);
   (["mime-type"],
    fun _ => arrayElement
      ["application/json"; "application/pdf"; "image/jpeg"; "image/png";
       "text/plain"; "video/mp4"]);
   (["boolean"; "bool"], caseBoolean)].

(** The body that the [switch] runs for a label, when it is modelled. *)
Definition body (name : string) : option (list string -> M string) :=
  snd <$> List.find (fun c => existsb (String.eqb name) (fst c)) cases.

End Catalog.

(** ** OpenAPIParser

    [packages/core/src/openapi-parser.ts], class [OpenAPIParser]:
    [parseEndpoints], [extractResponseSchema], [normalizePath]. Loading the
    document from a file is outside the development; [spec] is the document
    loaded, or [undefined]. *)
Module OpenAPIParser.
Import Js Keyword TemplateEngine JsText.

(** How a call of the parser can fail. *)
Inductive Failure : Type :=
| NotLoaded          (** the [Error] of [parseEndpoints] without a document *)
| RuntimeTypeError   (** a [TypeError] of the JavaScript runtime *)
| OutsideAlphabet.   (** [toUpperCase] left the alphabet of the embedding *)

Definition Try (A : Type) : Type := Failure + A.

Definition and_then {A B} (m : Try A) (k : A -> Try B) : Try B :=
  match m with
  | inl failure => inl failure
  | inr a => k a
  end.

(** A match of [/\{([^}]+)\}/] that begins at the first character of [s]:
    the captured text and the number of characters matched. *)
Definition matchParam (s : string) : option (string * nat) :=
  match s with
  | String c body =>
      if Ascii.eqb c "{" then
        let (name, after) := takeTemplate body in
        match name, after with
        | String _ _, String close _ =>
            if is_brace_close close then Some (name, 2 + String.length name)
            else None
        | _, _ => None
        end
      else None
  | EmptyString => None
  end.

(** [path.replace(/\{([^}]+)\}/g, ':$1')]; [skip] counts the characters of
    the current match still to pass over. *)
Fixpoint normalizeFrom (skip : nat) (path : string) : string :=
  match path with
  | EmptyString => EmptyString
  | String c rest =>
      match skip with
      | S skip' => normalizeFrom skip' rest
      | O =>
          match matchParam path with
          | Some (name, len) => ":" +:+ name +:+ normalizeFrom (len - 1) rest
          | None => String c (normalizeFrom 0 rest)
          end
      end
  end.

Definition normalizePath (path : string) : string := normalizeFrom 0 path.

(** [v?.k]. *)
Definition optional (v : JS) (k : string) : JS :=
  match v with
  | JUndefined | JNull => JUndefined
  | _ => field v k
  end.

(** [Object.values(v)[0]] for a truthy [v]. *)
Definition first_value (v : JS) : JS :=
  hd JUndefined (map snd (object_entries v)).

Definition extractResponseSchema (operation : JS) : Try JS :=
  match get operation "responses" with
  | None => inl RuntimeTypeError
  | Some declared =>
      let responses := or_else declared (JObj []) in
      let successResponse :=
        or_else (or_else (field responses "200") (field responses "201"))
                (field responses "204") in
      let fromFirst :=
        let firstResponse := first_value responses in
        if truthy (optional firstResponse "content") then
          let jsonContent :=
            field (field firstResponse "content") "application/json" in
          if truthy (optional jsonContent "schema")
          then field jsonContent "schema"
          else optional firstResponse "schema"
        else optional firstResponse "schema" in
      if truthy successResponse then
        if truthy (field successResponse "content") then
          let jsonContent :=
            field (field successResponse "content") "application/json" in
          if truthy (optional jsonContent "schema")
          then inr (field jsonContent "schema")
          else
            let firstContent := first_value (field successResponse "content") in
            inr (optional firstContent "schema")
        else if truthy (field successResponse "schema")
        then inr (field successResponse "schema")
        else inr fromFirst
      else inr fromFirst
  end.

Record ParsedEndpoint : Type := mkEndpoint {
  path : string;
  method : string;
  operation : JS;
  responseSchema : JS
}.

Definition httpMethods : list string :=
  ["get"; "post"; "put"; "delete"; "patch"; "head"; "options"].

(** [Object.entries(v)] where [v] may be [null] or [undefined]. *)
Definition entries_of (v : JS) : Try (list (string * JS)) :=
  match v with
  | JUndefined | JNull => inl RuntimeTypeError
  | _ => inr (object_entries v)
  end.

(** The inner loop of [parseEndpoints], over the entries of one path item. *)
Fixpoint parseOperations (path : string) (entries : list (string * JS))
    (endpoints : list ParsedEndpoint) : Try (list ParsedEndpoint) :=
  match entries with
  | [] => inr endpoints
  | (method, operation) :: rest =>
      if negb (existsb (String.eqb (toLowerCase method)) httpMethods)
      then parseOperations path rest endpoints
      else
        and_then (extractResponseSchema operation) (fun responseSchema =>
        match toUpperCase method with
        | None => inl OutsideAlphabet
        | Some upper =>
            parseOperations path rest
              (endpoints ++ [mkEndpoint (normalizePath path) upper operation
                                        responseSchema])
        end)
  end.

(** The outer loop, over the entries of [paths]. *)
Fixpoint parsePaths (entries : list (string * JS))
    (endpoints : list ParsedEndpoint) : Try (list ParsedEndpoint) :=
  match entries with
  | [] => inr endpoints
  | (path, pathItem) :: rest =>
      and_then (entries_of pathItem) (fun operations =>
      and_then (parseOperations path operations endpoints) (fun endpoints' =>
      parsePaths rest endpoints'))
  end.

Definition parseEndpoints (spec : JS) : Try (list ParsedEndpoint) :=
  if negb (truthy spec) then inl NotLoaded
  else
    let paths := or_else (field spec "paths") (JObj []) in
    parsePaths (object_entries paths) [].

End OpenAPIParser.

(** ** Validators

    [packages/shared/src/validators.ts]. The arguments are values as they
    arrive from a request or from the command line, so each validator takes
    a [JS] where the source tests [typeof]. *)
Module Validators.
Import Js Keyword TemplateEngine JsText.

(** [Number.isInteger(v)]. *)
Definition isInteger (v : JS) : bool :=
  match v with
  | JNum q => Qeq_bool q (inject_Z (Qfloor q))
  | _ => false
  end.

(** [isInteger(v) && v >= lo && v <= hi], also for [Number.isFinite]. *)
Definition in_range (v : JS) (lo hi : Q) : bool :=
  match v with
  | JNum q => Qle_bool lo q && Qle_bool q hi
  | _ => false
  end.

Definition isValidPort (port : JS) : bool :=
  isInteger port && in_range port 1 65535.

Definition double_quote : ascii := ascii_of_nat 34.

(** The class of the angle brackets, the two quotes and the ampersand. *)
Definition is_dangerous (c : ascii) : bool :=
  existsb (Ascii.eqb c) ["<"%char; ">"%char; "'"%char; double_quote; "&"%char].

(** [regex.test(s)] for a character class. *)
Fixpoint has_char (test : ascii -> bool) (s : string) : bool :=
  match s with
  | EmptyString => false
  | String c rest => test c || has_char test rest
  end.

Definition isValidHost (host : JS) : bool :=
  match host with
  | JStr s =>
      if String.eqb s EmptyString then false
      else if has_char is_dangerous s then false
      else if Nat.ltb 253 (String.length s) then false
      else true
  | _ => false
  end.

(** The class of the characters that a file name on Windows cannot hold:
    angle brackets, colon, double quote, bar, question mark, star. *)
Definition is_windows_reserved (c : ascii) : bool :=
  existsb (Ascii.eqb c)
    ["<"%char; ">"%char; ":"%char; double_quote; "|"%char; "?"%char; "*"%char].

Definition backslash : ascii := ascii_of_nat 92.

(** Two dots, two slashes, two backslashes, a reserved character: the
    patterns in source order. *)
Definition dangerousPatterns : list (string -> bool) :=
  [fun p => string_includes p "..";
   fun p => string_includes p "//";
   fun p => string_includes p (String backslash (String backslash EmptyString));
   has_char is_windows_reserved].

Section FilePath.

(** [path.resolve] of Node: the absolute, normalized path, which depends on
    the working directory of the process. *)
Variable resolve : string -> string.

(** [basePath] is [None] when the argument is left out. *)
Definition isValidFilePath (filePath : JS) (basePath : option string) : bool :=
  match filePath with
  | JStr p =>
      if String.eqb p EmptyString then false
      else if existsb (fun pattern => pattern p) dangerousPatterns then false
      else
        match basePath with
        | Some base =>
            if String.eqb base EmptyString then true
            else String.prefix (resolve base) (resolve p)
        | None => true
        end
  | _ => false
  end.

End FilePath.

Definition validMethods : list string :=
  ["GET"; "POST"; "PUT"; "DELETE"; "PATCH"; "HEAD"; "OPTIONS"].

(** [validMethods.includes(method.toUpperCase())]. A capital outside the
    alphabet is no letter of a valid method. *)
Definition isValidHttpMethod (method : string) : bool :=
  match toUpperCase method with
  | Some upper => existsb (String.eqb upper) validMethods
  | None => false
  end.

Definition isValidEndpointPath (endpointPath : JS) : bool :=
  match endpointPath with
  | JStr s =>
      if String.eqb s EmptyString then false
      else if negb (String.prefix "/" s) then false
      else if has_char is_dangerous s then false
      else if Nat.ltb 2048 (String.length s) then false
      else true
  | _ => false
  end.

(** [str.replace(class, '')] with the [g] flag. *)
Fixpoint remove_chars (test : ascii -> bool) (s : string) : string :=
  match s with
  | EmptyString => EmptyString
  | String c rest =>
      if test c then remove_chars test rest else String c (remove_chars test rest)
  end.

Definition sanitizeString (str : JS) : string :=
  match str with
  | JStr s => trim (remove_chars is_dangerous s)
  | _ => EmptyString
  end.

(** [Number.isFinite(delay) && delay >= 0 && delay <= 60000]. *)
Definition isValidDelay (delay : JS) : bool := in_range delay 0 60000.

Definition isValidStatusCode (statusCode : JS) : bool :=
  isInteger statusCode && in_range statusCode 100 599.

End Validators.

(** ** RequestMonitor

    [packages/server/src/request-monitor.ts]. The clock, the random
    request id and [JSON.stringify] are inputs; a WebSocket client is what
    the monitor can see of it: its [readyState], and whether its [send]
    raises. *)
Module RequestMonitor.
Import Js.

Definition maxHistorySize : nat := 1000.

(** A header of an incoming request, as Node types it. *)
Inductive HeaderValue : Type :=
| HeaderText (s : string)
| HeaderList (l : list string)
| HeaderAbsent.

(** A value of [req.query], as the query-string parser types it. *)
Inductive QueryValue : Type :=
| QText (s : string)
| QList (l : list QueryValue)
| QNested (fields : list (string * QueryValue))
| QAbsent.

(** [l.join(sep)] on texts. *)
Fixpoint join (sep : string) (l : list string) : string :=
  match l with
  | [] => EmptyString
  | [x] => x
  | x :: rest => x +:+ sep +:+ join sep rest
  end.

(** [Array.isArray(value) ? value.join(', ') : String(value)]. *)
Definition headerText (value : HeaderValue) : string :=
  match value with
  | HeaderList l => join ", " l
  | HeaderText s => s
  | HeaderAbsent => "undefined"
  end.

(** [String(value)]: an array prints its elements between commas, an
    absent element as nothing; an object prints as [[object Object]]. *)
Fixpoint queryText (value : QueryValue) : string :=
  match value with
  | QText s => s
  | QList l =>
      join ","
        (map (fun x => match x with
                       | QAbsent => EmptyString
                       | _ => queryText x
                       end) l)
  | QNested _ => "[object Object]"
  | QAbsent => "undefined"
  end.

(** [s.length > n ? s.substring(0, n) : s]. *)
Definition truncate (n : nat) (s : string) : string :=
  if Nat.ltb n (String.length s) then String.substring 0 n s else s.

Record Request : Type := mkRequest {
  reqMethod : string;
  reqPath : string;
  reqHeaders : list (string * HeaderValue);
  reqQuery : list (string * QueryValue);
  reqParams : option (list (string * string));
  reqBody : JS
}.

Record RequestLog : Type := mkLog {
  id : string;
  method : string;
  path : string;
  timestamp : Z;
  headers : list (string * string);
  query : list (string * string);
  params : list (string * string);
  statusCode : Z;
  responseTime : Z;
  body : option JS
}.

(** The loops over [req.headers] and [req.query]: they stop when [count]
    reaches [limit]. *)
Fixpoint safeEntries {V : Type} (text : V -> string) (limit : nat)
    (entries : list (string * V)) (count : nat) (safe : list (string * string))
  : list (string * string) :=
  match entries with
  | [] => safe
  | (key, value) :: rest =>
      if Nat.leb limit count then safe
      else safeEntries text limit rest (S count)
             (assign_key key (truncate 1000 (text value)) safe)
  end.

(** The loop over [req.params], which has no limit. *)
Fixpoint safeParams (entries : list (string * string))
    (safe : list (string * string)) : list (string * string) :=
  match entries with
  | [] => safe
  | (key, value) :: rest =>
      safeParams rest (assign_key key (truncate 1000 value) safe)
  end.

Inductive Message : Type :=
| RequestMessage (log : RequestLog)   (** [{ type: 'request', data: log }] *)
| HistoryCleared.                     (** [{ type: 'history-cleared' }] *)

Record Client : Type := mkClient {
  ident : nat;
  readyState : nat;
  sendRaises : bool
}.

(** [WebSocket.OPEN]. *)
Definition OPEN : nat := 1.

Record Monitor : Type := mkMonitor {
  clients : list Client;
  history : list RequestLog
}.

Definition addToHistory (log : RequestLog) (m : Monitor) : Monitor :=
  let unshifted := log :: history m in
  mkMonitor (clients m)
    (if Nat.ltb maxHistorySize (length unshifted)
     then take maxHistorySize unshifted
     else unshifted).

(** [broadcast]: the clients that stay, and what was sent to whom. *)
Fixpoint broadcastTo (message : Message) (remaining : list Client)
  : list Client * list (nat * Message) :=
  match remaining with
  | [] => ([], [])
  | client :: rest =>
      let (kept, sent) := broadcastTo message rest in
      if Nat.eqb (readyState client) OPEN then
        if sendRaises client then (kept, sent)
        else (client :: kept, (ident client, message) :: sent)
      else (client :: kept, sent)
  end.

Definition broadcast (message : Message) (m : Monitor)
  : Monitor * list (nat * Message) :=
  let (kept, sent) := broadcastTo message (clients m) in
  (mkMonitor kept (history m), sent).

Definition getHistory (m : Monitor) : list RequestLog := history m.

Definition clearHistory (m : Monitor) : Monitor * list (nat * Message) :=
  broadcast HistoryCleared (mkMonitor (clients m) []).

Section LogRequest.

(** [JSON.stringify]; [None] when it raises. *)
Variable stringify : JS -> option string.

(** What [logRequest] reads of the world: the clock at its three readings
    and the random part of the request id. *)
Variable now : Z.
Variable requestId : string.
Variable date : Z.

Definition logRequest (req : Request) (resStatusCode : Z) (startTime : Z)
    (m : Monitor) : Monitor * list (nat * Message) :=
  let responseTime := (now - startTime)%Z in
  let safePath := truncate 2048 (reqPath req) in
  let safeHeaders := safeEntries headerText 50 (reqHeaders req) 0 [] in
  let safeQuery := safeEntries queryText 100 (reqQuery req) 0 [] in
  let safeParams :=
    match reqParams req with
    | Some entries => safeParams entries []
    | None => []
    end in
  let logBody :=
    if truthy (reqBody req) && is_object (reqBody req) then
      match stringify (reqBody req) with
      | Some bodyString =>
          if Z.leb (Z.of_nat (String.length bodyString)) 10000
          then Some (reqBody req)
          else Some (JObj [("_truncated", JBool true);
                           ("_size",
                            JNum (inject_Z (Z.of_nat (String.length bodyString))))])
      | None => None
      end
    else None in
  let log :=
    mkLog requestId (reqMethod req) safePath date safeHeaders safeQuery
          safeParams resStatusCode responseTime logBody in
  broadcast (RequestMessage log) (addToHistory log m).

End LogRequest.

End RequestMonitor.

(** ** RequestQueue

    [packages/server/src/request-queue.ts], class [RequestQueue]. The
    class runs on the event loop: [enqueue] and [clear] are called from
    outside, and [processQueue] is suspended at its [await] until the
    response in flight is ended (or its handler raised), then goes on
    before any other call. The state is the two fields of the class and the
    item that the suspended [processQueue] waits for. *)
Module RequestQueue.

Section Queue.

(** One entry of the queue: request, response, [next] and handler. *)
Context {Item : Type}.

(** [this.maxSize]. *)
Variable maxSize : Z.

Record State : Type := mkState {
  queue : list Item;
  processing : bool;
  awaited : option Item
}.

(** What the queue does to the requests. *)
Inductive Effect : Type :=
| Refused (item : Item)   (** answered 503, the queue is full *)
| Started (item : Item)   (** its handler is called *)
| Dropped (item : Item).  (** answered 503, the queue was cleared *)

Definition initial : State := mkState [] false None.

(** The [while] loop of [processQueue] from its test on: the first item is
    taken and its handler called, and the loop waits; or the loop ends. *)
Definition continue (st : State) : State * list Effect :=
  match queue st with
  | [] => (mkState [] false None, [])
  | item :: rest => (mkState rest true (Some item), [Started item])
  end.

Definition processQueue (st : State) : State * list Effect :=
  continue (mkState (queue st) true (awaited st)).

Definition enqueue (item : Item) (st : State) : State * list Effect :=
  if Z.leb maxSize (Z.of_nat (length (queue st))) then (st, [Refused item])
  else
    let pushed := mkState (queue st ++ [item]) (processing st) (awaited st) in
    if processing pushed then (pushed, []) else processQueue pushed.

(** The promise that [processQueue] waits for is settled. *)
Definition settled (st : State) : State * list Effect :=
  match awaited st with
  | Some _ => continue st
  | None => (st, [])
  end.

Definition clear (st : State) : State * list Effect :=
  (mkState [] (processing st) (awaited st), map Dropped (queue st)).

Definition getSize (st : State) : nat := length (queue st).

End Queue.

Arguments State : clear implicits.
Arguments Effect : clear implicits.

End RequestQueue.

(** ** MockServer

    [packages/server/src/mock-server.ts]: the registration of endpoints in
    [registerEndpoint] and [registerEndpoints]. An endpoint configuration
    is the object stored under its key, with whatever members it has; the
    map of configurations keeps insertion order, as a [Map] does. *)
Module MockServer.
Import Js Keyword OpenAPIParser.

Definition endpointKey (endpoint : ParsedEndpoint) : string :=
  method endpoint +:+ ":" +:+ path endpoint.

Definition defaultConfig (endpoint : ParsedEndpoint) : JS :=
  JObj [("path", JStr (path endpoint));
        ("method", JStr (method endpoint));
        ("delay", JNum 0);
        ("statusCode", JNum 200)].

(** The start of [registerEndpoint]: the map after it, and the
    configuration that the handler closes over. *)
Definition registerEndpoint (endpoints : list (string * JS))
    (endpoint : ParsedEndpoint) : list (string * JS) * JS :=
  let key := endpointKey endpoint in
  let endpoints' :=
    match lookup_field key endpoints with
    | Some _ => endpoints
    | None => set_field key (defaultConfig endpoint) endpoints
    end in
  (endpoints', default JUndefined (lookup_field key endpoints')).

(** [registerEndpoints]: the map after the loop. *)
Definition registerEndpoints (endpoints : list (string * JS))
    (parsed : list ParsedEndpoint) : list (string * JS) :=
  fold_left (fun acc endpoint => fst (registerEndpoint acc endpoint)) parsed
            endpoints.

End MockServer.

(** ** The routes of the dashboard

    [packages/server/src/ui-routes.ts]: the handlers of [GET /api/endpoints]
    and [GET /api/history]. *)
Module UiRoutes.
Import Js Keyword JsText RequestMonitor Validators.

Record ListedEndpoint : Type := mkListed {
  listedMethod : JS;
  listedPath : JS;
  listedDelay : JS;
  listedStatusCode : JS
}.

(** [arr[i]] of an array of texts. *)
Definition item (parts : list string) (i : nat) : JS :=
  match parts !! i with
  | Some s => JStr s
  | None => JUndefined
  end.

(** The callback of [config.endpoints.forEach] in [GET /api/endpoints]. *)
Definition listEndpoint (entry : string * JS) : ListedEndpoint :=
  let parts := split_on ":" (fst entry) in
  mkListed (item parts 0) (item parts 1)
           (field (snd entry) "delay") (field (snd entry) "statusCode").

Definition apiEndpoints (endpoints : list (string * JS)) : list ListedEndpoint :=
  map listEndpoint endpoints.

(** [parseInt(req.query.limit, 10) || 1000]. *)
Definition limitOrDefault (limit : QueryValue) : Parsed :=
  match parseInt (queryText limit) with
  | NotANumber => Finite 1000
  | Finite z => if Z.eqb z 0 then Finite 1000 else Finite z
  | Infinite negative => Infinite negative
  end.

(** [history.slice(0, Math.min(Math.max(1, limit), 1000))]. *)
Definition apiHistory (limit : QueryValue) (m : Monitor) : list RequestLog :=
  let history := getHistory m in
  match limitOrDefault limit with
  | Finite z => take (Z.to_nat (Z.min (Z.max 1 z) 1000)) history
  | Infinite true => take 1 history
  | Infinite false => take 1000 history
  | NotANumber => []
  end.

(** How [PUT /api/endpoints/:method/:path] answers: [success] with status
    200, one of the refusals with status 400, or status 500. The texts of
    the answers are outside the alphabet of the embedding; each is named by
    what it reports. *)
Inductive PutAnswer : Type :=
| Success
| BadMethod
| BadPath
| BadDelay
| BadStatusCode
| BadCustomResponse
| CustomResponseTooLarge
| BadQueueEnabled
| BadQueueSize
| NoSettingsManager
| FailedToSave.

Definition answerStatus (answer : PutAnswer) : Z :=
  match answer with
  | Success => 200
  | NoSettingsManager | FailedToSave => 500
  | _ => 400
  end.

(** A value whose members cannot be read: destructuring it raises. *)
Definition null_or_undefined (v : JS) : bool :=
  match v with
  | JUndefined | JNull => true
  | _ => false
  end.

(** [v !== undefined]. *)
Definition is_defined (v : JS) : bool :=
  match v with
  | JUndefined => false
  | _ => true
  end.

(** [typeof v === 'object' && v !== null]. *)
Definition is_container (v : JS) : bool :=
  match v with
  | JArr _ | JObj _ => true
  | _ => false
  end.

(** [typeof v === 'boolean']. *)
Definition is_bool (v : JS) : bool :=
  match v with
  | JBool _ => true
  | _ => false
  end.

(** [obj.key = value] when the member of the body is there. *)
Definition assign_if_defined (key : string) (value : JS)
    (obj : list (string * JS)) : list (string * JS) :=
  if is_defined value then set_field key value obj else obj.

Section PutEndpoint.

(** [decodeURIComponent] and [JSON.stringify]; [None] when they raise. *)
Variable decodeURIComponent : string -> option string.
Variable stringify : JS -> option string.

(** The handler of [PUT /api/endpoints/:method/:path] with a manager that
    keeps the settings in memory: the map of configurations after the
    request, and the answer. [hasManager] tells whether a settings manager
    was given to [setupUIRoutes]. Each [let] below is the rest of the
    handler from one check on. *)
Definition putEndpoint (hasManager : bool) (paramMethod paramPath : string)
    (body : JS) (endpoints : list (string * JS))
  : list (string * JS) * PutAnswer :=
  if negb hasManager then (endpoints, NoSettingsManager)
  else
    let method := sanitizeString (JStr paramMethod) in
    match decodeURIComponent paramPath with
    | None => (endpoints, FailedToSave)
    | Some endpointPath =>
        if negb (isValidHttpMethod method) then (endpoints, BadMethod)
        else if negb (isValidEndpointPath (JStr endpointPath))
        then (endpoints, BadPath)
        else if null_or_undefined body then (endpoints, FailedToSave)
        else
          let delay := field body "delay" in
          let statusCode := field body "statusCode" in
          let customResponse := field body "customResponse" in
          let queueEnabled := field body "queueEnabled" in
          let queueSize := field body "queueSize" in
          let save :=
            match toUpperCase method with
            | None => (endpoints, FailedToSave)
            | Some upper =>
                let endpointConfig :=
                  assign_if_defined "queueSize" queueSize
                    (assign_if_defined "queueEnabled" queueEnabled
                       (assign_if_defined "customResponse" customResponse
                          (assign_if_defined "statusCode" statusCode
                             (assign_if_defined "delay" delay [])))) in
                (set_field (upper +:+ ":" +:+ endpointPath)
                           (JObj endpointConfig) endpoints,
                 Success)
            end in
          let fromQueueSize :=
            if is_defined queueSize
               && negb (isInteger queueSize && in_range queueSize 1 100)
            then (endpoints, BadQueueSize)
            else save in
          let fromQueueEnabled :=
            if is_defined queueEnabled && negb (is_bool queueEnabled)
            then (endpoints, BadQueueEnabled)
            else fromQueueSize in
          let fromCustomResponse :=
            if is_defined customResponse then
              if negb (is_container customResponse)
              then (endpoints, BadCustomResponse)
              else
                match stringify customResponse with
                | None => (endpoints, FailedToSave)
                | Some serialized =>
                    if Z.ltb (1024 * 1024) (Z.of_nat (String.length serialized))
                    then (endpoints, CustomResponseTooLarge)
                    else fromQueueEnabled
                end
            else fromQueueEnabled in
          let fromStatusCode :=
            if is_defined statusCode && negb (isValidStatusCode statusCode)
            then (endpoints, BadStatusCode)
            else fromCustomResponse in
          if is_defined delay && negb (isValidDelay delay)
          then (endpoints, BadDelay)
          else fromStatusCode
    end.

End PutEndpoint.

End UiRoutes.

(** * Vocabulary of the statements *)

Module Run.

(** The run of [m] from [w] returns a value satisfying [P] and leaves the
    visited set as it was. *)
Definition returns {A} (m : M A) (w : World) (P : A → Prop) : Prop :=
  ∃ a w', m w = Ok a w' ∧ visitedRefs w' = visitedRefs w ∧ P a.

(** Whatever the run of [m] from [w] returns satisfies [P]. *)
Definition ensures {A} (m : M A) (w : World) (P : A → World → Prop) : Prop :=
  ∀ a w', m w = Ok a w' → P a w'.

End Run.

Module Vocabulary.
Import Js Keyword DataGenerator.

(** Every string that some object of the document holds under [$ref]. *)
Fixpoint refs_of (v : JS) : gset string :=
  match v with
  | JArr l => ⋃ (map refs_of l)
  | JObj fs =>
      match lookup_field "$ref" fs with
      | Some (JStr r) => {[r]}
      | _ => ∅
      end ∪ ⋃ (map (fun kv => refs_of (snd kv)) fs)
  | _ => ∅
  end.

(** The strings among the members of the visited set. *)
Definition visited_strings (members : Visited) : gset string :=
  list_to_set (omap (fun m => match m with JStr r => Some r | _ => None end)
                 members).

(** No member of the visited set is an array or an object. *)
Definition primitives_only (members : Visited) : Prop :=
  Forall (fun m => is_reference m = false) members.

(** Neither the path of [ref] nor the path of a reference of the document
    names a member of a prototype. *)
Definition own_paths (spec ref : JS) : Prop :=
  ∀ r, ref = JStr r ∨ r ∈ refs_of spec →
    walk spec (refParts (stripHash r)) ≠ Outside.

Definition no_elements (x : JS) : bool :=
  match nonempty_array x with
  | NoElements => true
  | _ => false
  end.

(** No [$ref] and no composition keyword: [generateFromSchema] goes on to
    its [switch (type)]. *)
Definition plain (schema : JS) : bool :=
  truthy schema
  && negb (truthy (field schema "$ref"))
  && no_elements (field schema "oneOf")
  && no_elements (field schema "anyOf")
  && no_elements (field schema "allOf").

(** [x ?? fallback] for a keyword that is absent or a number. *)
Definition bound (x : JS) (fallback : Q) : option Q :=
  match x with
  | JUndefined => Some fallback
  | JNum q => Some q
  | _ => None
  end.

(** The object has the key. *)
Definition has_key (key : string) (obj : list (string * JS)) : Prop :=
  is_Some (lookup_field key obj).

Definition is_string (v : JS) : Prop := ∃ s, v = JStr s.
Definition is_boolean (v : JS) : Prop := ∃ b, v = JBool b.

End Vocabulary.

Module TemplateVocabulary.
Import Js TemplateEngine.

(** No closing brace in the text. *)
Fixpoint no_close (s : string) : bool :=
  match s with
  | EmptyString => true
  | String c rest => negb (is_brace_close c) && no_close rest
  end.

(** No opening brace in the text. *)
Fixpoint no_open (s : string) : bool :=
  match s with
  | EmptyString => true
  | String c rest => negb (Ascii.eqb c "{") && no_open rest
  end.

(** The name that [processTemplate] looks up for a template: the part before
    the first colon, trimmed and lowercased. *)
Definition templateName (template : string) : string :=
  toLowerCase (trim (hd EmptyString (split_on ":" template))).

Definition known (name : string) : bool :=
  existsb (String.eqb name) catalogNames.

(** The text after the first [n] characters. *)
Fixpoint drop_chars (n : nat) (s : string) : string :=
  match n, s with
  | S n', String _ rest => drop_chars n' rest
  | _, _ => s
  end.

(** The leftmost placeholder of a text: the text before it, the text
    between its braces and the text after it. *)
Fixpoint first_match (s : string) : option (string * string * string) :=
  match s with
  | EmptyString => None
  | String c rest =>
      match matchHere s with
      | Some (template, len) =>
          Some (EmptyString, template, drop_chars (len - 1) rest)
      | None =>
          match first_match rest with
          | Some (pre, template, post) => Some (String c pre, template, post)
          | None => None
          end
      end
  end.







End TemplateVocabulary.

Module HeapVocabulary.
Import TemplateHeap.

(** Every cell of [st] is a cell of [st'], at the same location and with the
    same content: [st'] differs from [st] by new cells only. *)
Definition extends {W : Type} (st st' : Store W) : Prop :=
  ∃ extra, cells st' = cells st ++ extra.

(** The store after a run, whether it returned or raised, differs from
    [st0] by new cells only. *)
Definition frame {W A : Type} (st0 : Store W) (o : Outcome (Store W) A) : Prop :=
  match o with
  | Ok _ st' | Throw _ st' => extends st0 st'
  | Unmodelled | OutOfFuel => True
  end.

(** [v] reads back as [tree] through the cells [extra] alone, wherever they
    sit after [base] other cells: [v] is a copy made of new cells. *)
Definition copy_of (base depth : nat) (extra : list Cell) (v : Val) (tree : JS)
  : Prop :=
  ∀ prefix suffix, length prefix = base →
    reify depth (prefix ++ extra ++ suffix) v = Some tree.

(** The fields of an object read back. *)
Definition reify_field (depth : nat) (heap : list Cell) (kv : string * Val)
  : option (string * JS) :=
  pair (fst kv) <$> reify depth heap (snd kv).

End HeapVocabulary.

(** Documents and schemas used as examples. *)
Module Examples.

Definition nodeRef : string := "#/components/schemas/Node".

(** A schema whose required property refers back to the schema. *)
Definition nodeSchema : JS :=
  JObj [("type", JStr "object");
        ("properties", JObj [("self", JObj [("$ref", JStr nodeRef)])]);
        ("required", JArr [JStr "self"])].

Definition nodeSpec : JS :=
  JObj [("components", JObj [("schemas", JObj [("Node", nodeSchema)])])].

Definition nodeRefSchema : JS := JObj [("$ref", JStr nodeRef)].

(** Two schemas that are references to each other. *)
Definition chainSpec : JS :=
  JObj [("A", JObj [("$ref", JStr "#/B")]);
        ("B", JObj [("$ref", JStr "#/A")])].

Definition chainRefSchema : JS := JObj [("$ref", JStr "#/A")].

(** [{type:"integer", minimum:5, maximum:5}]. *)
Definition fiveSchema : JS :=
  JObj [("type", JStr "integer"); ("minimum", JNum 5); ("maximum", JNum 5)].


(** [{type:"string"}], also the default for the items of an array. *)
Definition stringSchema : JS := JObj [("type", JStr "string")].

Definition booleanSchema : JS := JObj [("type", JStr "boolean")].

(** [{type:"array", minItems:3, maxItems:3, items:{type:"boolean"}}]. *)
Definition threeBooleansSchema : JS :=
  JObj [("type", JStr "array"); ("minItems", JNum 3); ("maxItems", JNum 3);
        ("items", booleanSchema)].

(** [{type:"array", minItems:0, maxItems:0}]: by its bounds, the empty
    array only. *)
Definition emptyArraySchema : JS :=
  JObj [("type", JStr "array"); ("minItems", JNum 0); ("maxItems", JNum 0)].



(** [{type:"integer", minimum:2000}]: the default maximum is [1000]. *)
Definition aboveDefaultSchema : JS :=
  JObj [("type", JStr "integer"); ("minimum", JNum 2000)].

(** [{type:"array", minItems:6}]: the default maximum is [5]. *)
Definition sixItemsSchema : JS :=
  JObj [("type", JStr "array"); ("minItems", JNum 6)].

(** An object schema with [required: true], as draft-03 schemas write it. *)
Definition requiredTrueSchema : JS :=
  JObj [("type", JStr "object");
        ("properties", JObj [("id", stringSchema)]);
        ("required", JBool true)].

(** The two members of the [allOf] example, over any property schemas. *)
Definition memberX (x : JS) : JS :=
  JObj [("type", JStr "object");
        ("properties", JObj [("x", x)]);
        ("required", JArr [JStr "x"])].

Definition memberY (y : JS) : JS :=
  JObj [("type", JStr "object");
        ("properties", JObj [("y", y)]);
        ("required", JArr [JStr "y"])].

Definition allOfXY : JS :=
  JObj [("allOf", JArr [memberX stringSchema; memberY stringSchema])].

(** The same members without [type], as the specification writes them. *)
Definition allOfXYUntyped : JS :=
  JObj [("allOf",
         JArr [JObj [("properties", JObj [("x", stringSchema)]);
                     ("required", JArr [JStr "x"])];
               JObj [("properties", JObj [("y", stringSchema)]);
                     ("required", JArr [JStr "y"])]])].


(** A stand-in for the bodies of the catalog: the label in angle brackets. *)
Definition labelExpand (name : string) (_params : list string)
  : Eff unit string :=
  ret ("<" +:+ name +:+ ">").

(** A store that holds [{a: "{{uuid}}", b: [1, "{{ nope }}"]}]: the array
    at location 0, the object at location 1. *)
Definition sampleCells : list TemplateHeap.Cell :=
  [TemplateHeap.CArr [TemplateHeap.VNum 1; TemplateHeap.VStr "{{ nope }}"];
   TemplateHeap.CObj [("a", TemplateHeap.VStr "{{uuid}}");
                      ("b", TemplateHeap.VRef 0)]].

End Examples.

(** Vocabulary for the bodies of the catalog. *)
Module CatalogVocabulary.
Import Js TemplateEngine JsText Catalog.

(** [expand] runs the modelled body for every label that has one. *)
Definition carries (expand : string → list string → M string) : Prop :=
  ∀ name run, body name = Some run →
    ∀ params w, expand name params w = run params w.

(** The parameters that [processTemplate] passes on: what follows the first
    colon, cut at the colons. *)
Definition params_of (template : string) : list string :=
  tail (split_on ":" template).

(** Every character of the text passes the test. *)
Fixpoint all_chars (test : ascii → bool) (s : string) : bool :=
  match s with
  | EmptyString => true
  | String c rest => test c && all_chars test rest
  end.

Definition is_not (c x : ascii) : bool := negb (Ascii.eqb x c).

(** 32-bit signed integers. *)
Definition int32 (z : Z) : Prop := (-2147483648 ≤ z ≤ 2147483647)%Z.

(** The modelled bodies, and for the other labels a stand-in that returns
    text built from the label. *)
Definition sampleCatalog (name : string) (params : list string) : M string :=
  match body name with
  | Some run => run params
  | None => Faker.text name
  end.

End CatalogVocabulary.

(** Vocabulary for more statements about the generator. *)
Module GeneratorVocabulary.
Import Js Keyword DataGenerator.


(** The [switch (type)] takes the [string] case: the type is ["string"], or
    it is left to [inferType]. *)
Definition string_typed (schema : JS) : bool :=
  is_one_of (or_else (field schema "type") (inferType schema)) ["string"].


(** A key that the loop over the additional properties makes. *)
Definition additional_key (k : string) : Prop :=
  ∃ suffix, k = "additional_" +:+ suffix.

(** [{type:"integer", minimum:5, maximum:5, multipleOf:3}]. *)
Definition fiveByThreeSchema : JS :=
  JObj [("type", JStr "integer"); ("minimum", JNum 5); ("maximum", JNum 5);
        ("multipleOf", JNum 3)].

(** [{enum:["a","b"], format:"uuid"}], without [type]. *)
Definition enumSchema : JS :=
  JObj [("enum", JArr [JStr "a"; JStr "b"]); ("format", JStr "uuid")].


(** [{type:"object", properties:{id:{type:"string"}},
      additionalProperties:true}]. *)
Definition openObjectSchema : JS :=
  JObj [("type", JStr "object");
        ("properties", JObj [("id", JObj [("type", JStr "string")])]);
        ("additionalProperties", JBool true)].

(** [{oneOf:[{type:"boolean"}, {type:"string"}], type:"object"}]. *)
Definition eitherSchema : JS :=
  JObj [("oneOf", JArr [JObj [("type", JStr "boolean")];
                        JObj [("type", JStr "string")]]);
        ("type", JStr "object")].

End GeneratorVocabulary.

(** Vocabulary for the statements about the parser and the validators. *)
Module ParserVocabulary.
Import Js Keyword TemplateEngine JsText OpenAPIParser.

(** The entries of [spec.paths]. *)
Definition declared_paths (spec : JS) : list (string * JS) :=
  object_entries (or_else (field spec "paths") (JObj [])).

(** The keys of a path item that name an HTTP method, in any letter case. *)
Definition names_method (kv : string * JS) : bool :=
  existsb (String.eqb (toLowerCase (fst kv))) httpMethods.

Definition method_keys (pathItem : JS) : list (string * JS) :=
  List.filter names_method (object_entries pathItem).

Definition is_lower_letter (c : ascii) : bool := between 97 (nat_of_ascii c) 122.
Definition is_upper_letter (c : ascii) : bool := between 65 (nat_of_ascii c) 90.

(** The letters a-z of a text turned into A-Z, and back. *)
Fixpoint capitals (s : string) : string :=
  match s with
  | EmptyString => EmptyString
  | String c rest => String (ascii_of_nat (nat_of_ascii c - 32)) (capitals rest)
  end.

Fixpoint smalls (s : string) : string :=
  match s with
  | EmptyString => EmptyString
  | String c rest => String (ascii_of_nat (nat_of_ascii c + 32)) (smalls rest)
  end.

(** The text is empty or begins with a character that [trim] keeps. *)
Definition solid_start (s : string) : bool :=
  match s with
  | String c _ => negb (is_whitespace c)
  | EmptyString => true
  end.

Definition is_nullish (v : JS) : bool :=
  match v with
  | JUndefined | JNull => true
  | _ => false
  end.

(** One pair of normalized path and operation for each method key of each
    path item, in document order. *)
Definition declared_operations (spec : JS) : list (string * JS) :=
  flat_map
    (fun entry =>
       map (fun kv => (normalizePath (fst entry), snd kv))
           (method_keys (snd entry)))
    (declared_paths spec).

(** [v] is held by a response of the operation, as its [schema] or as the
    [schema] of one of its media types. *)
Definition schema_of_a_response (responses v : JS) : Prop :=
  ∃ code response,
    In (code, response) (object_entries responses)
    ∧ (v = field response "schema"
       ∨ ∃ media body,
           In (media, body) (object_entries (field response "content"))
           ∧ v = field body "schema").

(** A document with two paths; the first holds a [parameters] key next to
    its methods, the second a method in capitals. *)
Definition petSpec : JS :=
  JObj [("paths",
         JObj [("/pets/{petId}",
                JObj [("parameters", JArr []);
                      ("get", JObj [("responses",
                         JObj [("200", JObj [("content",
                            JObj [("application/json",
                                   JObj [("schema", JObj [("type", JStr "object")])])])])])]);
                      ("delete", JObj [("responses", JObj [("204", JObj [])])])]);
               ("/pets",
                JObj [("POST", JObj [])])])].

(** An operation whose 200 response offers XML before JSON, next to a 404
    with a schema of its own. *)
Definition listOperation : JS :=
  JObj [("responses",
         JObj [("200", JObj [("content",
                  JObj [("application/xml", JObj [("schema", JStr "xml")]);
                        ("application/json", JObj [("schema", JStr "json")])])]);
               ("404", JObj [("schema", JStr "missing")])])].

End ParserVocabulary.

(** Vocabulary for the statements about the server. *)
Module ServerVocabulary.
Import Js OpenAPIParser RequestMonitor MockServer.

(** The monitor after the requests [logs] were added one after the other,
    the first of the list first. *)
Definition after_logs (logs : list RequestLog) (m : Monitor) : Monitor :=
  fold_left (fun acc log => addToHistory log acc) logs m.

(** Every text of the object is at most [n] characters long. *)
Definition values_within (n : nat) (entries : list (string * string)) : Prop :=
  Forall (fun kv => String.length (snd kv) ≤ n) entries.

(** The first endpoint of the list that is registered under the key. *)
Definition first_with_key (key : string) (parsed : list ParsedEndpoint)
  : option ParsedEndpoint :=
  List.find (fun endpoint => String.eqb (endpointKey endpoint) key) parsed.

(** The members that [PUT /api/endpoints/:method/:path] can store. *)
Definition settingKeys : list string :=
  ["delay"; "statusCode"; "customResponse"; "queueEnabled"; "queueSize"].

(** Every member of the configuration passed its check. *)
Definition valid_settings (config : list (string * JS)) : Prop :=
  (∀ v, lookup_field "delay" config = Some v → Validators.isValidDelay v = true)
  ∧ (∀ v, lookup_field "statusCode" config = Some v →
       Validators.isValidStatusCode v = true)
  ∧ (∀ v, lookup_field "customResponse" config = Some v →
       (∃ items, v = JArr items) ∨ (∃ fields, v = JObj fields))
  ∧ (∀ v, lookup_field "queueEnabled" config = Some v → ∃ b, v = JBool b)
  ∧ (∀ v, lookup_field "queueSize" config = Some v →
       Validators.isInteger v && Validators.in_range v 1 100 = true)
  ∧ (∀ key, In key (keys config) → In key settingKeys).

End ServerVocabulary.

(** Vocabulary for the statements about the queue of requests. *)
Module QueueVocabulary.
Import RequestQueue.

Section Queue.
Context {Item : Type}.

(** What happens to a queue from outside. *)
Inductive Event : Type :=
| Enqueue (item : Item)   (** a request arrives: [enqueue] *)
| Settle                  (** the response in flight is ended *)
| Clear.                  (** [clear] *)

Definition step (maxSize : Z) (event : Event) (st : State Item)
  : State Item * list (Effect Item) :=
  match event with
  | Enqueue item => enqueue maxSize item st
  | Settle => settled st
  | Clear => clear st
  end.

(** The state after the events, and what was done to the requests, in
    order. *)
Fixpoint run (maxSize : Z) (events : list Event) (st : State Item)
  : State Item * list (Effect Item) :=
  match events with
  | [] => (st, [])
  | event :: rest =>
      let (st1, first) := step maxSize event st in
      let (st2, more) := run maxSize rest st1 in
      (st2, first ++ more)
  end.

Definition enqueued (events : list Event) : list Item :=
  omap (fun event => match event with Enqueue item => Some item | _ => None end)
       events.

Definition refused (effects : list (Effect Item)) : list Item :=
  omap (fun effect => match effect with Refused item => Some item | _ => None end)
       effects.

(** The requests that left the queue, started or dropped. *)
Definition taken (effects : list (Effect Item)) : list Item :=
  omap (fun effect =>
          match effect with
          | Started item | Dropped item => Some item
          | Refused _ => None
          end) effects.

(** The fields of the class agree with the suspended loop: nothing waits
    and nothing is in flight unless the loop is running, and a running loop
    waits for a response. *)
Definition consistent (st : State Item) : Prop :=
  (processing st = false → queue st = [] ∧ awaited st = None)
  ∧ (processing st = true → is_Some (awaited st)).

End Queue.

Arguments Event : clear implicits.

End QueueVocabulary.

Module NumberVocabulary.
Import Binary64.

(** The order of the numbers; [NaN] is not in it. *)
Definition le (a b : number) : Prop :=
  match a, b with
  | NaN, _ | _, NaN => False
  | Inf true, _ => True
  | _, Inf false => True
  | Fin x, Fin y => (x <= y)%Q
  | _, _ => False
  end.

(** [{type:"integer", minimum:2^53-2, maximum:2^53-1}]. *)
Definition nearSafeEndSchema : JS :=
  JObj [("type", JStr "integer");
        ("minimum", JNum 9007199254740990);
        ("maximum", JNum 9007199254740991)].

(** [Number.MAX_VALUE], the largest double. *)
Definition max_value : Q := ((2 ^ 53 - 1) * 2 ^ 971)%Q.

(** [{type:"number", minimum:-Number.MAX_VALUE, maximum:Number.MAX_VALUE}],
    the bounds of [format: double]. *)
Definition doubleRangeSchema : JS :=
  JObj [("type", JStr "number");
        ("minimum", JNum (- max_value));
        ("maximum", JNum max_value)].

(** The double nearest to a number that has one. *)
Definition nearest_double (q : Q) : Q :=
  match round q with
  | Fin d => d
  | Inf _ | NaN => 0
  end.

(** [{type:"number", minimum:1.7, maximum:1.7, multipleOf:0.1}]: each
    decimal stands for the double nearest to it. *)
Definition decimalsSchema : JS :=
  JObj [("type", JStr "number");
        ("minimum", JNum (nearest_double (17 # 10)));
        ("maximum", JNum (nearest_double (17 # 10)));
        ("multipleOf", JNum (nearest_double (1 # 10)))].

End NumberVocabulary.

(** * Facts about values *)
Module JsFacts.
Import Js.

(** Induction on values through arrays and objects. *)
Lemma JS_nested_ind (P : JS → Prop) :
  P JUndefined → P JNull → (∀ b, P (JBool b)) → (∀ q, P (JNum q)) →
  (∀ s, P (JStr s)) →
  (∀ items, Forall P items → P (JArr items)) →
  (∀ fields, Forall (fun kv => P (snd kv)) fields → P (JObj fields)) →
  ∀ v, P v.
Proof.
  intros Hu Hn Hb Hq Hs Ha Ho.
  fix IH 1. intros [| |b|q|s|items|fields].
  - exact Hu.
  - exact Hn.
  - apply Hb.
  - apply Hq.
  - apply Hs.
  - apply Ha. induction items as [|x items IHitems]; constructor.
    + apply IH.
    + exact IHitems.
  - apply Ho. induction fields as [|[k x] fields IHfields]; constructor.
    + apply IH.
    + exact IHfields.
Qed.

Lemma similar_refl (v : JS) : similar v v = true.
Proof.
  induction v as [| |b|q|s|items IH|fields IH] using JS_nested_ind; simpl.
  - reflexivity.
  - reflexivity.
  - by destruct b.
  - apply Qeq_bool_iff. reflexivity.
  - apply String.eqb_refl.
  - induction IH as [|x items Hx _ IHitems]; [reflexivity|].
    by rewrite Hx, IHitems.
  - induction IH as [|[k x] fields Hx _ IHfields]; [reflexivity|].
    simpl in Hx. by rewrite String.eqb_refl, Hx, IHfields.
Qed.

(** On strings, [similar] is equality. *)
Lemma similar_string (r : string) (m : JS) :
  similar (JStr r) m = true ↔ m = JStr r.
Proof.
  destruct m; simpl; split; try discriminate.
  - intros H. apply String.eqb_eq in H. by subst.
  - intros [= ->]. apply String.eqb_refl.
Qed.

(** A value that is not an array or an object has no twin among arrays
    and objects. *)
Lemma similar_reference (a b : JS) :
  similar a b = true → is_reference a = is_reference b.
Proof. destruct a, b; simpl; try discriminate; reflexivity. Qed.

(** ** Objects as lists of fields *)

Lemma lookup_set_field_eq (key : string) (v : JS) (obj : list (string * JS)) :
  lookup_field key (set_field key v obj) = Some v.
Proof.
  induction obj as [|[k' v'] obj IH]; simpl.
  - by rewrite String.eqb_refl.
  - destruct (String.eqb key k') eqn:E; simpl; rewrite ?String.eqb_refl, ?E; done.
Qed.

Lemma lookup_set_field_ne (key k : string) (v : JS) (obj : list (string * JS)) :
  k ≠ key → lookup_field k (set_field key v obj) = lookup_field k obj.
Proof.
  intros Hne. induction obj as [|[k' v'] obj IH]; simpl.
  - by apply String.eqb_neq in Hne as ->.
  - destruct (String.eqb_spec key k') as [<-|Hk]; simpl.
    + by apply String.eqb_neq in Hne as ->.
    + destruct (String.eqb k k'); done.
Qed.

End JsFacts.

(** * Reasoning about runs *)
Module RunFacts.
Import Run.

Lemma bind_ret {A B} (a : A) (k : A → M B) : bind (ret a) k = k a.
Proof. reflexivity. Qed.

Lemma returns_ret {A} (a : A) (w : World) (P : A → Prop) :
  P a → returns (ret a) w P.
Proof. intros H. exists a, w. auto. Qed.

Lemma returns_bind {A B} (m : M A) (k : A → M B) (w : World)
    (P : A → Prop) (Q : B → Prop) :
  returns m w P →
  (∀ a w', visitedRefs w' = visitedRefs w → P a → returns (k a) w' Q) →
  returns (bind m k) w Q.
Proof.
  intros (a & w1 & Hm & Hv & Ha) Hk.
  destruct (Hk a w1 Hv Ha) as (b & w2 & Hkb & Hv2 & Hb).
  exists b, w2. unfold bind. rewrite Hm. split; [exact Hkb|]. split; congruence.
Qed.

Lemma returns_weaken {A} (m : M A) (w : World) (P Q : A → Prop) :
  returns m w P → (∀ a, P a → Q a) → returns m w Q.
Proof. intros (a & w' & ? & ? & ?) HPQ. exists a, w'. auto. Qed.

Lemma ensures_ret {A} (a : A) (w : World) (P : A → World → Prop) :
  P a w → ensures (ret a) w P.
Proof. intros H b w' [= <- <-]. exact H. Qed.

Lemma ensures_bind {A B} (m : M A) (k : A → M B) (w : World)
    (P : A → World → Prop) (Q : B → World → Prop) :
  ensures m w P →
  (∀ a w', P a w' → ensures (k a) w' Q) →
  ensures (bind m k) w Q.
Proof.
  intros Hm Hk b w2. unfold bind.
  destruct (m w) as [a w1| | |] eqn:E; try discriminate.
  intros H. exact (Hk a w1 (Hm a w1 E) b w2 H).
Qed.

Lemma ensures_weaken {A} (m : M A) (w : World) (P Q : A → World → Prop) :
  ensures m w P → (∀ a w', P a w' → Q a w') → ensures m w Q.
Proof. intros Hm HPQ a w' H. auto. Qed.

Lemma returns_ensures {A} (m : M A) (w : World) (P : A → Prop)
    (Q : A → World → Prop) :
  returns m w P → ensures m w Q → returns m w (fun a => P a ∧ ∃ w', Q a w').
Proof.
  intros (a & w' & Hm & Hv & Ha) Hq. exists a, w'. eauto 6.
Qed.

End RunFacts.

(** * Facts about the faker primitives *)
Module FakerFacts.
Import Run RunFacts Faker.

Lemma draw_returns (w : World) : returns draw w (fun _ => True).
Proof.
  unfold returns, draw. destruct (entropy w) as [|n rest]; eauto 6.
Qed.

Lemma number_int_returns (min max : Q) (w : World) :
  (Qceiling min ≤ Qfloor max)%Z →
  returns (number_int min max) w
    (fun z => (Qceiling min ≤ z ≤ Qfloor max)%Z).
Proof.
  intros Hle. unfold number_int.
  destruct (Z.eqb_spec (Qceiling min) (Qfloor max)) as [Heq|Hne].
  - apply returns_ret. lia.
  - destruct (Z.ltb_spec (Qfloor max) (Qceiling min)) as [Hlt|_]; [lia|].
    eapply returns_bind; [apply draw_returns|].
    intros real w' _ _. apply returns_ret.
    pose proof (Z.mod_pos_bound (Z.of_nat real)
                  (Qfloor max + 1 - Qceiling min)%Z ltac:(lia)).
    lia.
Qed.

Lemma number_int_raises (min max : Q) (w : World) :
  (Qfloor max < Qceiling min)%Z →
  number_int min max w = Throw FakerError w.
Proof.
  intros Hlt. unfold number_int.
  destruct (Z.eqb_spec (Qceiling min) (Qfloor max)) as [Heq|Hne]; [lia|].
  destruct (Z.ltb_spec (Qfloor max) (Qceiling min)) as [_|Hge]; [reflexivity|lia].
Qed.

(** An integral range of one value is answered without a draw. *)
Lemma number_int_point (z : Z) (w : World) :
  number_int (inject_Z z) (inject_Z z) w = Ok z w.
Proof.
  unfold number_int. rewrite Qceiling_Z, Qfloor_Z, Z.eqb_refl. reflexivity.
Qed.

Lemma datatype_boolean_returns (w : World) :
  returns datatype_boolean w (fun _ => True).
Proof.
  unfold datatype_boolean. eapply returns_bind; [apply draw_returns|].
  intros. by apply returns_ret.
Qed.

Lemma random_chars_returns (n : nat) (w : World) :
  returns (random_chars n) w (fun _ => True).
Proof.
  revert w. induction n as [|n IH]; intros w; simpl.
  - by apply returns_ret.
  - eapply returns_bind; [apply draw_returns|]. intros r w1 _ _.
    eapply returns_bind; [apply IH|]. intros rest w2 _ _. by apply returns_ret.
Qed.

Lemma string_alphanumeric_returns (len : Z) (w : World) :
  returns (string_alphanumeric len) w (fun _ => True).
Proof.
  unfold string_alphanumeric. destruct (Z.leb len 0).
  - by apply returns_ret.
  - apply random_chars_returns.
Qed.

Lemma text_returns (api : string) (w : World) :
  returns (text api) w (fun _ => True).
Proof.
  unfold text. eapply returns_bind; [apply draw_returns|].
  intros. by apply returns_ret.
Qed.

Lemma helpers_arrayElement_returns (array : list JS) (w : World) :
  array ≠ [] →
  returns (helpers_arrayElement array) w (fun v => In v array).
Proof.
  intros Hne. unfold helpers_arrayElement.
  destruct array as [|x rest]; [done|].
  set (arr := x :: rest) in *.
  destruct (Nat.ltb_spec 1 (length arr)) as [Hlong|Hshort].
  - eapply returns_bind.
    + apply number_int_returns. rewrite Qfloor_Z.
      change (Qceiling 0) with 0%Z. lia.
    + intros index w' _ Hindex. apply returns_ret.
      rewrite Qfloor_Z in Hindex. change (Qceiling 0) with 0%Z in Hindex.
      apply nth_In. lia.
  - eapply returns_bind; [by apply (returns_ret 0%Z w (fun z => z = 0%Z))|].
    intros index w' _ ->. apply returns_ret. simpl. auto.
Qed.

End FakerFacts.
(** * Facts about binary64 arithmetic *)
Module NumberFacts.
Import Binary64 NumberVocabulary.
Local Open Scope Q_scope.

(** ** Powers of two *)
Lemma two_pow_pos (e : Z) : 0 < 2 ^ e.
Proof. apply Qpower_0_lt. reflexivity. Qed.

Lemma two_pow_le (a b : Z) : (a <= b)%Z -> 2 ^ a <= 2 ^ b.
Proof. intros H. apply Qpower_le_compat_l; [exact H|discriminate]. Qed.

Lemma two_pow_lt (a b : Z) : (a < b)%Z -> 2 ^ a < 2 ^ b.
Proof. intros H. apply Qpower_lt_compat_l; [exact H|reflexivity]. Qed.

Lemma two_pow_lt_inv (a b : Z) : 2 ^ a < 2 ^ b -> (a < b)%Z.
Proof. intros H. eapply Qpower_lt_compat_l_inv; [exact H|reflexivity]. Qed.

Lemma two_pow_plus (a b : Z) : 2 ^ (a + b) == 2 ^ a * 2 ^ b.
Proof. apply Qpower_plus. discriminate. Qed.

Lemma two_pow_succ (a : Z) : 2 ^ (a + 1) == 2 * 2 ^ a.
Proof. rewrite two_pow_plus. change (2 ^ 1) with 2. ring. Qed.

Lemma two_pow_Z (n : Z) : (0 <= n)%Z -> inject_Z (2 ^ n) == 2 ^ n.
Proof. intros H. exact (Zpower_Qpower 2 n H). Qed.

(** ** The position of the leading bit *)
Lemma ilog2_spec (q : Q) : 0 < q -> 2 ^ ilog2 q <= q /\ q < 2 ^ (ilog2 q + 1).
Proof.
  intros Hq. destruct q as [a b]. unfold ilog2. cbn [Qnum Qden].
  assert (0 < a)%Z as Ha by (unfold Qlt in Hq; simpl in Hq; lia).
  set (la := Z.log2 a). set (lb := Z.log2 (Zpos b)).
  destruct (Z.log2_spec a Ha) as [Ha1 Ha2]. fold la in Ha1, Ha2.
  destruct (Z.log2_spec (Zpos b) ltac:(lia)) as [Hb1 Hb2]. fold lb in Hb1, Hb2.
  assert (0 <= la)%Z as Hla by apply Z.log2_nonneg.
  assert (0 <= lb)%Z as Hlb by apply Z.log2_nonneg.
  assert (2 ^ la <= inject_Z a) as HA1.
  { rewrite <- two_pow_Z by done. rewrite <- Zle_Qle. exact Ha1. }
  assert (inject_Z a < 2 * 2 ^ la) as HA2.
  { rewrite <- two_pow_succ, <- two_pow_Z by lia. rewrite <- Zlt_Qlt.
    replace (la + 1)%Z with (Z.succ la) by lia. exact Ha2. }
  assert (2 ^ lb <= inject_Z (Zpos b)) as HB1.
  { rewrite <- two_pow_Z by done. rewrite <- Zle_Qle. exact Hb1. }
  assert (inject_Z (Zpos b) < 2 * 2 ^ lb) as HB2.
  { rewrite <- two_pow_succ, <- two_pow_Z by lia. rewrite <- Zlt_Qlt.
    replace (lb + 1)%Z with (Z.succ lb) by lia. exact Hb2. }
  assert ((a # b) * inject_Z (Zpos b) == inject_Z a) as Hab.
  { unfold Qeq, Qmult, inject_Z; simpl. lia. }
  pose proof (two_pow_pos la) as Pla. pose proof (two_pow_pos lb) as Plb.
  set (q := a # b) in *. set (A := inject_Z a) in *. set (B := inject_Z (Zpos b)) in *.
  destruct (Qle_bool (2 ^ (la - lb)) q) eqn:E.
  - apply Qle_bool_iff in E. split; [exact E|].
    assert (2 ^ (la - lb + 1) * 2 ^ lb == 2 * 2 ^ la) as HT.
    { rewrite <- two_pow_plus, <- two_pow_succ.
      replace (la - lb + 1 + lb)%Z with (la + 1)%Z by lia. reflexivity. }
    set (T := 2 ^ (la - lb + 1)) in *.
    assert (0 < T) by apply two_pow_pos.
    apply Qnot_le_lt. intros Hge. nra.
  - assert (¬ 2 ^ (la - lb) <= q) as E'.
    { intros H. apply Qle_bool_iff in H. congruence. }
    apply Qnot_le_lt in E'.
    replace (la - lb - 1 + 1)%Z with (la - lb)%Z by lia.
    split; [|exact E'].
    assert (2 ^ (la - lb - 1) * (2 * 2 ^ lb) == 2 ^ la) as HT.
    { rewrite <- two_pow_succ, <- two_pow_plus.
      replace (la - lb - 1 + (lb + 1))%Z with la by lia. reflexivity. }
    set (T := 2 ^ (la - lb - 1)) in *.
    assert (0 < T) by apply two_pow_pos.
    apply Qnot_lt_le. intros Hlt. nra.
Qed.

Lemma ilog2_unique (q : Q) (n : Z) :
  2 ^ n <= q -> q < 2 ^ (n + 1) -> ilog2 q = n.
Proof.
  intros Hlo Hhi.
  assert (0 < q) as Hq by (pose proof (two_pow_pos n); lra).
  destruct (ilog2_spec q Hq) as [Hlo' Hhi'].
  assert (ilog2 q < n + 1)%Z by (apply two_pow_lt_inv; lra).
  assert (n < ilog2 q + 1)%Z by (apply two_pow_lt_inv; lra).
  lia.
Qed.

Lemma ilog2_mono (x y : Q) : 0 < x -> x <= y -> (ilog2 x <= ilog2 y)%Z.
Proof.
  intros Hx Hxy.
  destruct (ilog2_spec x Hx) as [Hlo _].
  destruct (ilog2_spec y ltac:(lra)) as [_ Hhi].
  assert (ilog2 x < ilog2 y + 1)%Z by (apply two_pow_lt_inv; lra).
  lia.
Qed.

Lemma exponent_mono (x y : Q) : 0 < x -> x <= y -> (exponent x <= exponent y)%Z.
Proof. intros Hx Hxy. unfold exponent. pose proof (ilog2_mono x y Hx Hxy). lia. Qed.

(** ** Rounding to an integer *)
Lemma nearest_even_cases (x : Q) :
  let f := Qfloor x in
  (x - inject_Z f < 1 # 2 /\ nearest_even x = f)
  \/ (1 # 2 < x - inject_Z f /\ nearest_even x = (f + 1)%Z)
  \/ (x - inject_Z f == 1 # 2 /\ Z.even f = true /\ nearest_even x = f)
  \/ (x - inject_Z f == 1 # 2 /\ Z.even f = false /\ nearest_even x = (f + 1)%Z).
Proof.
  intros f. unfold nearest_even. fold f.
  destruct (Qcompare (x - inject_Z f) (1 # 2)) eqn:E.
  - apply Qeq_alt in E. destruct (Z.even f) eqn:Ev.
    + right; right; left. auto.
    + right; right; right. auto.
  - apply Qlt_alt in E. left. auto.
  - apply Qgt_alt in E. right; left. auto.
Qed.

Lemma floor_bounds (x : Q) : inject_Z (Qfloor x) <= x /\ x < inject_Z (Qfloor x) + 1.
Proof.
  split; [apply Qfloor_le|]. pose proof (Qlt_floor x) as H.
  rewrite inject_Z_plus in H. exact H.
Qed.

Lemma nearest_even_error (x : Q) :
  x - (1 # 2) <= inject_Z (nearest_even x) /\ inject_Z (nearest_even x) <= x + (1 # 2).
Proof.
  pose proof (floor_bounds x) as [Hlo Hhi].
  destruct (nearest_even_cases x) as [[H ->]|[[H ->]|[(H & _ & ->)|(H & _ & ->)]]];
    rewrite ?inject_Z_plus; change (inject_Z 1) with 1; lra.
Qed.

Lemma nearest_even_mono (x y : Q) : x <= y -> (nearest_even x <= nearest_even y)%Z.
Proof.
  intros Hxy. pose proof (Qfloor_resp_le x y Hxy) as Hf.
  pose proof (floor_bounds x) as [Hxlo Hxhi]. pose proof (floor_bounds y) as [Hylo Hyhi].
  destruct (Z.eq_dec (Qfloor x) (Qfloor y)) as [Heq|Hne].
  - destruct (nearest_even_cases x) as [[Hx ->]|[[Hx ->]|[(Hx & Ex & ->)|(Hx & Ex & ->)]]];
    destruct (nearest_even_cases y) as [[Hy ->]|[[Hy ->]|[(Hy & Ey & ->)|(Hy & Ey & ->)]]];
      rewrite <- ?Heq in *; try lia; try (exfalso; lra); try congruence.
  - assert (Qfloor x + 1 <= Qfloor y)%Z as Hlt by lia.
    assert (nearest_even x <= Qfloor x + 1)%Z.
    { destruct (nearest_even_cases x) as [[_ ->]|[[_ ->]|[(_ & _ & ->)|(_ & _ & ->)]]]; lia. }
    assert (Qfloor y <= nearest_even y)%Z.
    { destruct (nearest_even_cases y) as [[_ ->]|[[_ ->]|[(_ & _ & ->)|(_ & _ & ->)]]]; lia. }
    lia.
Qed.

Lemma nearest_even_Z (n : Z) : nearest_even (inject_Z n) = n.
Proof.
  unfold nearest_even. rewrite Qfloor_Z.
  assert (inject_Z n - inject_Z n == 0) as -> by ring. reflexivity.
Qed.

Lemma nearest_even_comp (x y : Q) : x == y -> nearest_even x = nearest_even y.
Proof.
  intros H. unfold nearest_even. rewrite (Qfloor_comp x y H).
  assert (Qcompare (x - inject_Z (Qfloor y)) (1 # 2)
          = Qcompare (y - inject_Z (Qfloor y)) (1 # 2)) as ->; [|reflexivity].
  apply Qcompare_comp; [|reflexivity]. rewrite H. reflexivity.
Qed.

Lemma ilog2_comp (x y : Q) : 0 < x -> x == y -> ilog2 x = ilog2 y.
Proof.
  intros Hx H. destruct (ilog2_spec x Hx) as [Hlo Hhi].
  symmetry. apply ilog2_unique; rewrite <- H; assumption.
Qed.

Lemma exponent_comp (x y : Q) : 0 < x -> x == y -> exponent x = exponent y.
Proof. intros Hx H. unfold exponent. by rewrite (ilog2_comp x y Hx H). Qed.

(** The significand of a positive number has at most 53 bits. *)
Lemma significand_upper (x : Q) :
  0 < x -> (nearest_even (x / 2 ^ exponent x) <= 2 ^ 53)%Z.
Proof.
  intros Hx. destruct (ilog2_spec x Hx) as [_ Hhi].
  rewrite <- (nearest_even_Z (2 ^ 53)). apply nearest_even_mono.
  pose proof (two_pow_pos (exponent x)) as He.
  apply Qle_shift_div_r; [exact He|].
  rewrite two_pow_Z by lia. rewrite <- two_pow_plus.
  assert (2 ^ (ilog2 x + 1) <= 2 ^ (53 + exponent x)).
  { apply two_pow_le. unfold exponent. lia. }
  lra.
Qed.

Lemma significand_lower (x : Q) :
  0 < x -> (-1074 < exponent x)%Z ->
  (2 ^ 52 <= nearest_even (x / 2 ^ exponent x))%Z.
Proof.
  intros Hx Hnormal. destruct (ilog2_spec x Hx) as [Hlo _].
  rewrite <- (nearest_even_Z (2 ^ 52)) at 1. apply nearest_even_mono.
  pose proof (two_pow_pos (exponent x)) as He.
  apply Qle_shift_div_l; [exact He|].
  rewrite two_pow_Z by lia. rewrite <- two_pow_plus.
  assert (exponent x = ilog2 x - 52)%Z as -> by (unfold exponent in *; lia).
  replace (52 + (ilog2 x - 52))%Z with (ilog2 x) by lia. exact Hlo.
Qed.

Lemma round_positive_mono (x y : Q) :
  0 < x -> x <= y -> round_positive x <= round_positive y.
Proof.
  intros Hx Hxy. unfold round_positive.
  pose proof (exponent_mono x y Hx Hxy) as He.
  pose proof (two_pow_pos (exponent x)) as Px.
  pose proof (two_pow_pos (exponent y)) as Py.
  destruct (Z.eq_dec (exponent x) (exponent y)) as [Heq|Hne].
  - rewrite <- Heq in *. apply Qmult_le_compat_r; [|lra].
    rewrite <- Zle_Qle. apply nearest_even_mono.
    apply Qmult_le_compat_r; [exact Hxy|]. apply Qlt_le_weak, Qinv_lt_0_compat, Px.
  - pose proof (significand_upper x Hx) as Hux.
    pose proof (significand_lower y ltac:(lra) ltac:(unfold exponent in *; lia)) as Hly.
    rewrite Zle_Qle in Hux, Hly. rewrite two_pow_Z in Hux, Hly by lia.
    assert (2 ^ 53 * 2 ^ exponent x <= 2 ^ 52 * 2 ^ exponent y) as Hstep.
    { rewrite <- !two_pow_plus. apply two_pow_le. lia. }
    set (mx := inject_Z (nearest_even (x / 2 ^ exponent x))) in *.
    set (my := inject_Z (nearest_even (y / 2 ^ exponent y))) in *.
    set (px := 2 ^ exponent x) in *. set (py := 2 ^ exponent y) in *.
    assert (mx * px <= 2 ^ 53 * px) by (apply Qmult_le_compat_r; lra).
    assert (2 ^ 52 * py <= my * py) by (apply Qmult_le_compat_r; lra).
    lra.
Qed.

(** ** Rounding to a double keeps the order *)

Lemma round_positive_pos (x : Q) : 0 < x -> 0 <= round_positive x.
Proof.
  intros Hx. unfold round_positive.
  apply Qmult_le_0_compat; [|apply Qlt_le_weak, two_pow_pos].
  change 0 with (inject_Z 0). rewrite <- Zle_Qle.
  rewrite <- (nearest_even_Z 0). apply nearest_even_mono.
  apply Qlt_le_weak, Qlt_shift_div_l; [apply two_pow_pos|].
  rewrite Qmult_0_l. exact Hx.
Qed.

Lemma round_mono (x y : Q) : x <= y -> le (round x) (round y).
Proof.
  intros Hxy. unfold round.
  destruct (Qcompare_spec x 0) as [Ex|Ex|Ex];
    destruct (Qcompare_spec y 0) as [Ey|Ey|Ey]; try (exfalso; lra).
  - simpl. lra.
  - pose proof (round_positive_pos y Ey).
    destruct (Qle_bool (2 ^ 1024) (round_positive y)); simpl; [done|].
    rewrite Qred_correct. lra.
  - pose proof (round_positive_pos (- x) ltac:(lra)).
    destruct (Qle_bool (2 ^ 1024) (round_positive (- x))); simpl; [done|].
    rewrite Qred_correct. lra.
  - pose proof (round_positive_mono (- y) (- x) ltac:(lra) ltac:(lra)) as Hm.
    destruct (Qle_bool (2 ^ 1024) (round_positive (- x))) eqn:Ox;
      destruct (Qle_bool (2 ^ 1024) (round_positive (- y))) eqn:Oy; simpl; try done.
    + apply Qle_bool_iff in Oy.
      assert (¬ 2 ^ 1024 <= round_positive (- x)) as Hn.
      { intros H. apply Qle_bool_iff in H. congruence. }
      apply Hn. lra.
    + rewrite !Qred_correct. lra.
  - pose proof (round_positive_pos (- x) ltac:(lra)).
    pose proof (round_positive_pos y Ey).
    destruct (Qle_bool (2 ^ 1024) (round_positive (- x)));
      destruct (Qle_bool (2 ^ 1024) (round_positive y)); simpl; try done.
    rewrite !Qred_correct. lra.
  - pose proof (round_positive_mono x y Ex Hxy) as Hm.
    destruct (Qle_bool (2 ^ 1024) (round_positive y)) eqn:Oy;
      destruct (Qle_bool (2 ^ 1024) (round_positive x)) eqn:Ox; simpl; try done.
    + apply Qle_bool_iff in Ox.
      assert (¬ 2 ^ 1024 <= round_positive y) as Hn.
      { intros H. apply Qle_bool_iff in H. congruence. }
      apply Hn. lra.
    + rewrite !Qred_correct. lra.
Qed.


Lemma le_squeeze (n : number) (x y : Q) :
  le (Fin x) n -> le n (Fin y) -> exists a, n = Fin a /\ x <= a /\ a <= y.
Proof.
  destruct n as [a|[|]|]; simpl; try done. intros Hx Hy. by exists a.
Qed.

(** ** Rounding is near, and exact on integers below [2^53] *)

Lemma round_positive_error (q : Q) :
  0 < q -> round_positive q <= q + 2 ^ exponent q / 2.
Proof.
  intros Hq. unfold round_positive. set (e := exponent q).
  pose proof (two_pow_pos e) as He.
  pose proof (nearest_even_error (q / 2 ^ e)) as [_ Hup].
  assert (inject_Z (nearest_even (q / 2 ^ e)) * 2 ^ e
          <= (q / 2 ^ e + (1 # 2)) * 2 ^ e) as H.
  { apply Qmult_le_compat_r; lra. }
  assert ((q / 2 ^ e + (1 # 2)) * 2 ^ e == q + 2 ^ e / 2) as Heq.
  { field. lra. }
  lra.
Qed.

Lemma exponent_bound (q : Q) :
  0 < q -> 2 ^ exponent q <= q / 2 ^ 52 \/ exponent q = (-1074)%Z.
Proof.
  intros Hq. unfold exponent.
  destruct (Z.max_spec (ilog2 q - 52) (-1074)) as [[_ ->]|[_ ->]]; [by right|].
  left. destruct (ilog2_spec q Hq) as [Hlo _].
  assert (2 ^ (ilog2 q - 52) == 2 ^ ilog2 q / 2 ^ 52) as ->.
  { replace (ilog2 q - 52)%Z with (ilog2 q + - 52)%Z by lia.
    rewrite two_pow_plus. rewrite (Qpower_opp 2 52). reflexivity. }
  apply Qmult_le_compat_r; [exact Hlo|].
  apply Qlt_le_weak, Qinv_lt_0_compat, two_pow_pos.
Qed.

Lemma Qred_inject_Z (z : Z) : Qred (inject_Z z) = inject_Z z.
Proof.
  unfold Qred, inject_Z.
  pose proof (Z.ggcd_gcd z 1) as Hg.
  pose proof (Z.ggcd_correct_divisors z 1) as Hd.
  destruct (Z.ggcd z 1) as [g [aa bb]]. simpl in Hg, Hd.
  rewrite Z.gcd_1_r in Hg. subst g. destruct Hd as [Ha Hb].
  rewrite Z.mul_1_l in Ha, Hb. by subst.
Qed.

Lemma round_positive_comp (x y : Q) :
  0 < x -> x == y -> round_positive x == round_positive y.
Proof.
  intros Hx H. unfold round_positive.
  rewrite (exponent_comp x y Hx H).
  rewrite (nearest_even_comp (x / 2 ^ exponent y) (y / 2 ^ exponent y));
    [reflexivity|]. by rewrite H.
Qed.

(** Numbers that are equal have the same double. *)
Lemma round_comp (x y : Q) : x == y -> round x = round y.
Proof.
  intros H. unfold round. rewrite (Qcompare_comp x y H 0 0 (Qeq_refl 0)).
  destruct (Qcompare_spec y 0) as [E|E|E]; [reflexivity| |].
  - assert (round_positive (- x) == round_positive (- y)) as Hr.
    { apply round_positive_comp; lra. }
    rewrite (Qleb_comp _ _ (Qeq_refl (2 ^ 1024)) _ _ Hr).
    destruct (Qle_bool (2 ^ 1024) (round_positive (- y))); [reflexivity|].
    f_equal. apply Qred_complete. by rewrite Hr.
  - assert (round_positive x == round_positive y) as Hr.
    { apply round_positive_comp; lra. }
    rewrite (Qleb_comp _ _ (Qeq_refl (2 ^ 1024)) _ _ Hr).
    destruct (Qle_bool (2 ^ 1024) (round_positive y)); [reflexivity|].
    f_equal. by apply Qred_complete.
Qed.

Lemma below_overflow (r : Q) : r < 2 ^ 1024 -> Qle_bool (2 ^ 1024) r = false.
Proof.
  intros H. destruct (Qle_bool (2 ^ 1024) r) eqn:E; [|reflexivity].
  apply Qle_bool_iff in E. lra.
Qed.

Lemma two_pow_53_small : 2 ^ 53 < 2 ^ 1024.
Proof. apply two_pow_lt. lia. Qed.

(** An integer below [2^53] is a double. *)
Lemma round_positive_integer (z : Z) :
  (0 < z < 2 ^ 53)%Z -> round_positive (inject_Z z) == inject_Z z.
Proof.
  intros [Hpos Hlt]. unfold round_positive.
  assert (0 < inject_Z z) as Hq.
  { change 0 with (inject_Z 0). rewrite <- Zlt_Qlt. exact Hpos. }
  destruct (ilog2_spec (inject_Z z) Hq) as [Hlo Hhi].
  assert (0 <= ilog2 (inject_Z z) <= 52)%Z as [Hl0 Hl52].
  { split.
    - assert (2 ^ 0 < 2 ^ (ilog2 (inject_Z z) + 1)) as H.
      { change (2 ^ 0) with (inject_Z 1). eapply Qle_lt_trans; [|exact Hhi].
        rewrite <- Zle_Qle. lia. }
      apply two_pow_lt_inv in H. lia.
    - assert (2 ^ ilog2 (inject_Z z) < 2 ^ 53) as H.
      { eapply Qle_lt_trans; [exact Hlo|]. rewrite <- two_pow_Z by lia.
        rewrite <- Zlt_Qlt. exact Hlt. }
      apply two_pow_lt_inv in H. lia. }
  assert (exponent (inject_Z z) = (ilog2 (inject_Z z) - 52)%Z) as ->.
  { unfold exponent. lia. }
  set (s := (52 - ilog2 (inject_Z z))%Z).
  replace (ilog2 (inject_Z z) - 52)%Z with (- s)%Z by (unfold s; lia).
  assert (0 <= s)%Z as Hs by (unfold s; lia).
  assert (inject_Z z / 2 ^ (- s) == inject_Z (z * 2 ^ s)) as Hdiv.
  { rewrite inject_Z_mult, two_pow_Z by lia. rewrite Qpower_opp.
    field. pose proof (two_pow_pos s). lra. }
  rewrite (nearest_even_comp _ _ Hdiv), nearest_even_Z.
  rewrite inject_Z_mult, two_pow_Z by lia. rewrite Qpower_opp.
  field. pose proof (two_pow_pos s). lra.
Qed.

Lemma round_integer (z : Z) :
  (0 <= z < 2 ^ 53)%Z -> round (inject_Z z) = Fin (inject_Z z).
Proof.
  intros [Hpos Hlt]. destruct (Z.eq_dec z 0%Z) as [->|Hne]; [reflexivity|].
  assert (0 < inject_Z z) as Hq.
  { change 0 with (inject_Z 0). rewrite <- Zlt_Qlt. lia. }
  pose proof (round_positive_integer z ltac:(lia)) as Hr.
  unfold round. destruct (Qcompare_spec (inject_Z z) 0) as [E|E|E]; try lra.
  rewrite below_overflow.
  - f_equal. rewrite (Qred_complete _ _ Hr). apply Qred_inject_Z.
  - rewrite Hr. eapply Qlt_trans; [|apply two_pow_53_small].
    rewrite <- two_pow_Z by lia. rewrite <- Zlt_Qlt. exact Hlt.
Qed.

(** A quotient [q] that is at least [1/m] below the next integer, with a
    last bit small against [1/m], is rounded to a number below that
    integer. *)
Lemma round_positive_below (q kq mq : Q) :
  0 < q -> 0 < mq -> q + 1 / mq <= kq + 1 -> 2 ^ exponent q / 2 < 1 / mq ->
  round_positive q < kq + 1.
Proof.
  intros Hq Hm Hhigh Hulp. pose proof (round_positive_error q Hq). lra.
Qed.

Lemma last_bit_small (nq mq : Q) :
  0 < nq -> nq < 2 ^ 53 -> 0 < mq -> mq < 2 ^ 53 ->
  2 ^ exponent (nq / mq) / 2 < 1 / mq.
Proof.
  intros Hn0 Hn Hm0 Hm.
  assert (0 < nq / mq) as Hq.
  { apply Qlt_shift_div_l; [exact Hm0|]. by rewrite Qmult_0_l. }
  assert (0 < 1 / mq) as Hinv.
  { apply Qlt_shift_div_l; [exact Hm0|]. rewrite Qmult_0_l. reflexivity. }
  destruct (exponent_bound (nq / mq) Hq) as [He| ->].
  - assert (nq / mq / 2 ^ 52 / 2 == (nq / 2 ^ 53) * (1 / mq)) as Heq.
    { change (2 ^ 53) with (2 ^ 52 * 2). field.
      intros H. rewrite H in Hm0. by apply Qlt_irrefl in Hm0. }
    assert (nq / 2 ^ 53 < 1) as Hn1.
    { apply Qlt_shift_div_r; [reflexivity|]. by rewrite Qmult_1_l. }
    assert (0 < nq / 2 ^ 53) as Hn2.
    { apply Qlt_shift_div_l; [reflexivity|]. by rewrite Qmult_0_l. }
    apply Qle_lt_trans with (nq / mq / 2 ^ 52 / 2).
    { apply Qmult_le_compat_r; [exact He|discriminate]. }
    rewrite Heq. set (part := nq / 2 ^ 53) in *. set (inv := 1 / mq) in *.
    nra.
  - apply Qlt_shift_div_l; [exact Hm0|].
    assert (2 ^ (-1074) / 2 * 2 ^ 53 < 1) as Hsmall by (vm_compute; reflexivity).
    assert (0 < 2 ^ (-1074) / 2) as Hpos by (vm_compute; reflexivity).
    set (tiny := 2 ^ (-1074) / 2) in *. set (big := 2 ^ 53) in *. nra.
Qed.

Lemma inject_Z_pos (z : Z) : (0 < z)%Z -> 0 < inject_Z z.
Proof. intros H. change 0 with (inject_Z 0). by rewrite <- Zlt_Qlt. Qed.

Lemma inject_Z_below (z : Z) : (z < 2 ^ 53)%Z -> inject_Z z < 2 ^ 53.
Proof. intros H. rewrite <- two_pow_Z by lia. by rewrite <- Zlt_Qlt. Qed.

Lemma Qfloor_unique (x : Q) (k : Z) :
  inject_Z k <= x -> x < inject_Z k + 1 -> Qfloor x = k.
Proof.
  intros Hlo Hhi. apply Z.le_antisymm.
  - assert (inject_Z (Qfloor x) < inject_Z (k + 1)) as H.
    { rewrite inject_Z_plus. eapply Qle_lt_trans; [apply Qfloor_le|exact Hhi]. }
    rewrite <- Zlt_Qlt in H. lia.
  - rewrite <- (Qfloor_Z k). by apply Qfloor_resp_le.
Qed.

(** A positive number whose double lies from [k] up to, but not at,
    [k + 1] has the integer part [k] after rounding. *)
Lemma floor_round_within (q : Q) (k : Z) :
  0 < q -> inject_Z k <= round_positive q -> round_positive q < inject_Z k + 1 ->
  inject_Z k + 1 < 2 ^ 1024 ->
  floor (round q) = Fin (inject_Z k).
Proof.
  intros Hq Hdown Hup Hfar. unfold round.
  destruct (Qcompare_spec q 0) as [E|E|E].
  - rewrite E in Hq. by apply Qlt_irrefl in Hq.
  - exfalso. apply (Qlt_irrefl q). by apply Qlt_trans with 0.
  - rewrite below_overflow by (by apply Qlt_trans with (inject_Z k + 1)).
    cbn [floor]. do 2 f_equal. apply Qfloor_unique; by rewrite Qred_correct.
Qed.

(** The quotient of two integers below [2^53] is rounded to a double with
    the same integer part. *)
Lemma floor_round_quotient (n m : Z) :
  (0 <= n < 2 ^ 53)%Z -> (0 < m < 2 ^ 53)%Z ->
  floor (round (inject_Z n / inject_Z m)) = Fin (inject_Z (n / m)).
Proof.
  intros [Hn0 Hn] [Hm0 Hm].
  pose proof (inject_Z_pos m Hm0) as Hmq.
  pose proof (inject_Z_below m Hm) as Hm53.
  destruct (Z.eq_dec n 0%Z) as [->|Hne].
  { rewrite (round_comp (inject_Z 0 / inject_Z m) 0).
    - reflexivity.
    - unfold Qdiv. change (inject_Z 0) with 0. ring. }
  pose proof (inject_Z_pos n ltac:(lia)) as Hnq.
  pose proof (inject_Z_below n Hn) as Hn53.
  set (k := (n / m)%Z).
  assert (0 <= k /\ k * m <= n /\ n + 1 <= (k + 1) * m)%Z as (Hk0 & Hkm & Hkm1).
  { unfold k. pose proof (Z.div_pos n m ltac:(lia) Hm0).
    pose proof (Z.mul_div_le n m Hm0). pose proof (Z.mul_succ_div_gt n m Hm0).
    lia. }
  set (q := inject_Z n / inject_Z m).
  assert (0 < q) as Hq.
  { apply Qlt_shift_div_l; [exact Hmq|]. by rewrite Qmult_0_l. }
  assert (inject_Z k <= q) as Hlow.
  { apply Qle_shift_div_l; [exact Hmq|].
    rewrite <- inject_Z_mult, <- Zle_Qle. exact Hkm. }
  assert (q + 1 / inject_Z m <= inject_Z k + 1) as Hhigh.
  { assert (q + 1 / inject_Z m == (inject_Z n + 1) / inject_Z m) as ->.
    { unfold q. field. intros H. rewrite H in Hmq. by apply Qlt_irrefl in Hmq. }
    apply Qle_shift_div_r; [exact Hmq|].
    change 1 with (inject_Z 1). rewrite <- !inject_Z_plus, <- inject_Z_mult.
    rewrite <- Zle_Qle. exact Hkm1. }
  apply floor_round_within.
  - exact Hq.
  - destruct (Z.eq_dec k 0%Z) as [Hk|Hk].
    + rewrite Hk. apply round_positive_pos, Hq.
    + rewrite <- (round_positive_integer k).
      * apply round_positive_mono; [|exact Hlow]. apply inject_Z_pos. lia.
      * split; [lia|]. apply Z.le_lt_trans with n; [nia|exact Hn].
  - apply (round_positive_below q (inject_Z k) (inject_Z m)); try done.
    by apply last_bit_small.
  - eapply Qle_lt_trans; [|apply two_pow_53_small].
    rewrite <- two_pow_Z by lia. change 1 with (inject_Z 1).
    rewrite <- inject_Z_plus, <- Zle_Qle. nia.
Qed.

(** [Math.floor(n / m) * m] is exact on integers below [2^53]. *)
Lemma snap_integers (n m : Z) :
  (0 <= n < 2 ^ 53)%Z -> (0 < m < 2 ^ 53)%Z ->
  mul (floor (div (Fin (inject_Z n)) (Fin (inject_Z m)))) (Fin (inject_Z m))
  = Fin (inject_Z (n / m * m)).
Proof.
  intros Hn Hm. cbn [div].
  assert (Qeq_bool (inject_Z m) 0 = false) as ->.
  { apply not_true_is_false. intros H. apply Qeq_bool_iff in H.
    pose proof (inject_Z_pos m ltac:(lia)) as Hpos.
    rewrite H in Hpos. by apply Qlt_irrefl in Hpos. }
  rewrite floor_round_quotient by done. cbn [mul].
  change (inject_Z (n / m) * inject_Z m) with (inject_Z (n / m * m)).
  apply round_integer.
  pose proof (Z.div_pos n m ltac:(lia) ltac:(lia)).
  pose proof (Z.mul_div_le n m ltac:(lia)). nia.
Qed.

End NumberFacts.
(** * Facts about the reference resolver *)
Module ResolveFacts.
Import Js JsFacts Keyword DataGenerator Vocabulary.

(** ** The visited set *)

Lemma twin_false (ref : JS) (members : Visited) :
  twin ref members = false ↔ ∀ m, m ∈ members → similar ref m = false.
Proof.
  unfold twin. induction members as [|x members IH]; simpl.
  - split; [|done]. intros _ m Hm. by apply elem_of_nil in Hm.
  - rewrite orb_false_iff, IH. split.
    + intros [Hx Hrest] m Hm. apply elem_of_cons in Hm as [->|Hm]; auto.
    + intros H. split; [apply H; left|intros m Hm; apply H; by right].
Qed.

(** Adding a value that has no twin and deleting it again gives the set
    back. *)
Lemma add_then_delete (ref : JS) (members : Visited) :
  twin ref members = false →
  List.filter (fun m => negb (similar ref m)) (members ++ [ref]) = members.
Proof.
  intros Hnew. rewrite List.filter_app. simpl. rewrite similar_refl. simpl.
  rewrite app_nil_r. rewrite twin_false in Hnew.
  induction members as [|x members IH]; [reflexivity|]. simpl.
  rewrite (Hnew x) by left. simpl. f_equal. apply IH.
  intros m Hm. apply Hnew. by right.
Qed.

Lemma twin_string (r : string) (members : Visited) :
  twin (JStr r) members = true ↔ r ∈ visited_strings members.
Proof.
  unfold twin, visited_strings. rewrite existsb_exists, elem_of_list_to_set.
  rewrite list_elem_of_omap. split.
  - intros (m & Hm & Hsim). apply similar_string in Hsim as ->.
    exists (JStr r). split; [by apply list_elem_of_In|done].
  - intros (m & Hm & Heq). destruct m; try discriminate. injection Heq as ->.
    exists (JStr r). split; [by apply list_elem_of_In|]. by apply similar_string.
Qed.

Lemma visited_strings_snoc (r : string) (members : Visited) :
  visited_strings (members ++ [JStr r]) = visited_strings members ∪ {[r]}.
Proof.
  unfold visited_strings. rewrite omap_app. simpl. set_solver.
Qed.

Lemma primitives_only_no_twin (ref : JS) (members : Visited) :
  primitives_only members → is_reference ref = true → twin ref members = false.
Proof.
  intros Hprim Href. apply twin_false. intros m Hm.
  destruct (similar ref m) eqn:E; [|done].
  apply similar_reference in E. rewrite Href in E.
  unfold primitives_only in Hprim. rewrite Forall_forall in Hprim.
  specialize (Hprim m Hm). congruence.
Qed.

Lemma primitives_only_snoc (r : string) (members : Visited) :
  primitives_only members → primitives_only (members ++ [JStr r]).
Proof.
  intros H. apply Forall_app. split; [exact H|]. by repeat constructor.
Qed.

(** ** The references of a document *)

Lemma refs_of_lookup_list (l : list JS) (i : nat) (x : JS) :
  l !! i = Some x → refs_of x ⊆ ⋃ (map refs_of l).
Proof.
  revert i. induction l as [|y l IH]; intros [|i]; simpl; try discriminate.
  - intros [= ->]. set_solver.
  - intros H. specialize (IH i H). set_solver.
Qed.

Lemma refs_of_lookup (fs : list (string * JS)) (k : string) (v : JS) :
  lookup_field k fs = Some v →
  refs_of v ⊆ ⋃ (map (fun kv => refs_of (snd kv)) fs).
Proof.
  induction fs as [|[k' v'] fs IH]; simpl; [discriminate|].
  destruct (String.eqb k k').
  - intros [= ->]. set_solver.
  - intros H. specialize (IH H). set_solver.
Qed.

Lemma refs_of_member (current next : JS) (part : string) :
  member current part = Own next → refs_of next ⊆ refs_of current.
Proof.
  destruct current as [| | | |s|l|fs]; simpl; try discriminate.
  - destruct (String.eqb part "length"); [intros [= <-]; set_solver|].
    destruct (parse_index part) as [i|].
    + destruct (l !! i) as [x|] eqn:E; [|discriminate].
      intros [= <-]. by eapply refs_of_lookup_list.
    + by case_match.
  - destruct (lookup_field part fs) as [x|] eqn:E.
    + intros [= <-]. pose proof (refs_of_lookup _ _ _ E). set_solver.
    + by case_match.
Qed.

Lemma refs_of_walk (parts : list string) (current found : JS) :
  walk current parts = Reached found → refs_of found ⊆ refs_of current.
Proof.
  revert current. induction parts as [|part rest IH]; simpl; intros current.
  - intros [= ->]. done.
  - destruct (truthy current && is_object current); [|discriminate].
    destruct (member current part) as [next| |] eqn:E; try discriminate.
    intros H. apply IH in H. pose proof (refs_of_member _ _ _ E). set_solver.
Qed.

Lemma ref_field_in_refs (current : JS) (r : string) :
  field current "$ref" = JStr r → r ∈ refs_of current.
Proof.
  destruct current as [| | | |s|l|fs]; unfold field; simpl; try discriminate.
  destruct (lookup_field "$ref" fs) as [v|]; simpl; [|discriminate].
  intros ->. set_solver.
Qed.

Section WithSpec.
Variable spec : JS.

Lemma world_eta (w : World) : mkWorld (visitedRefs w) (entropy w) = w.
Proof. destruct w; reflexivity. Qed.

Lemma visited_add_new (ref : JS) (w : World) :
  twin ref (visitedRefs w) = false →
  visited_add ref w = Ok tt (mkWorld (visitedRefs w ++ [ref]) (entropy w)).
Proof. intros H. unfold visited_add. by rewrite H. Qed.

Lemma visited_delete_added (ref : JS) (w : World) :
  twin ref (visitedRefs w) = false →
  visited_delete ref (mkWorld (visitedRefs w ++ [ref]) (entropy w)) = Ok tt w.
Proof.
  intros H. unfold visited_delete. cbn [visitedRefs entropy].
  by rewrite add_then_delete, world_eta.
Qed.

(** One call of [resolveRef] on a reference string that is not in the
    visited set, effects written out. *)
Lemma resolveRef_string (fuel : nat) (r : string) (w : World) :
  twin (JStr r) (visitedRefs w) = false →
  truthy spec = true →
  resolveRef spec (S fuel) (JStr r) w =
    match walk spec (refParts (stripHash r)) with
    | Missing => Ok JNull w
    | Outside => Unmodelled
    | Reached current =>
        if truthy current && truthy (field current "$ref") then
          match resolveRef spec fuel (field current "$ref")
                  (mkWorld (visitedRefs w ++ [JStr r]) (entropy w)) with
          | Ok resolved w' =>
              Ok resolved
                (mkWorld (List.filter (fun m => negb (similar (JStr r) m))
                            (visitedRefs w'))
                   (entropy w'))
          | Throw _ w' =>
              Ok JNull
                (mkWorld (List.filter (fun m => negb (similar (JStr r) m))
                            (visitedRefs w'))
                   (entropy w'))
          | Unmodelled => Unmodelled
          | OutOfFuel => OutOfFuel
          end
        else Ok current w
    end.
Proof.
  intros Hnew Hspec. cbn [resolveRef]. unfold bind at 1, visited_has.
  rewrite Hnew. cbn [is_reference andb]. rewrite Hspec. cbn [negb].
  unfold bind at 1. rewrite visited_add_new by done.
  unfold try_catch, bind at 1, cleanRef, ret at 1.
  destruct (walk spec (refParts (stripHash r))) as [current| |].
  - destruct (truthy current && truthy (field current "$ref")).
    + unfold bind at 1.
      destruct (resolveRef spec fuel _ _) as [resolved w'|e w'| |]; try reflexivity.
    + unfold bind. by rewrite visited_delete_added.
  - unfold bind. by rewrite visited_delete_added.
  - reflexivity.
Qed.

(** A member of the visited set that is not an array or an object resolves
    to [null] at once. *)
Lemma resolveRef_member (fuel : nat) (ref : JS) (w : World) :
  is_reference ref = false → twin ref (visitedRefs w) = true →
  resolveRef spec (S fuel) ref w = Ok JNull w.
Proof.
  intros Href Hin. cbn [resolveRef]. unfold bind, visited_has.
  by rewrite Href, Hin.
Qed.

Lemma resolveRef_without_document (fuel : nat) (ref : JS) (w : World) :
  twin ref (visitedRefs w) = false → truthy spec = false →
  resolveRef spec (S fuel) ref w = Ok JNull w.
Proof.
  intros Hnew Hspec. cbn [resolveRef]. unfold bind, visited_has.
  by rewrite Hnew, andb_false_r, Hspec.
Qed.

(** A [$ref] that is not a string enters the visited set, makes
    [ref.startsWith] raise, and is taken out of the set by the handler. *)
Lemma resolveRef_not_string (fuel : nat) (ref : JS) (w : World) :
  (∀ r, ref ≠ JStr r) → twin ref (visitedRefs w) = false →
  resolveRef spec (S fuel) ref w = Ok JNull w.
Proof.
  intros Hns Hnew. destruct (truthy spec) eqn:Hspec;
    [|by apply resolveRef_without_document].
  cbn [resolveRef]. unfold bind at 1, visited_has.
  rewrite Hnew, andb_false_r, Hspec. cbn [negb].
  unfold bind at 1. rewrite visited_add_new by done.
  unfold try_catch.
  assert (cleanRef ref = throw TypeError) as ->.
  { destruct ref; try reflexivity. by exfalso; eapply Hns. }
  unfold bind, throw. by rewrite visited_delete_added.
Qed.

(** A call that returns hands back the world it was given, and no call
    raises. *)
Lemma resolveRef_outcome (fuel : nat) (ref : JS) (w : World) :
  (∃ resolved, resolveRef spec fuel ref w = Ok resolved w)
  ∨ resolveRef spec fuel ref w = Unmodelled
  ∨ resolveRef spec fuel ref w = OutOfFuel.
Proof.
  revert ref w. induction fuel as [|fuel IH]; intros ref w; [right; right; reflexivity|].
  destruct (twin ref (visitedRefs w)) eqn:Hin.
  - destruct (is_reference ref) eqn:Href.
    + right; left. cbn [resolveRef]. unfold bind, visited_has.
      by rewrite Href, Hin.
    + left. exists JNull. by apply resolveRef_member.
  - destruct (truthy spec) eqn:Hspec;
      [|left; exists JNull; by apply resolveRef_without_document].
    destruct ref as [| | | |r| |];
      try solve [left; exists JNull; apply resolveRef_not_string; [intros ? [=]|done]].
    rewrite resolveRef_string by done.
    destruct (walk spec (refParts (stripHash r))) as [current| |];
      [|left; eauto|right; left; reflexivity].
    destruct (truthy current && truthy (field current "$ref")); [|left; eauto].
    destruct (IH (field current "$ref")
                (mkWorld (visitedRefs w ++ [JStr r]) (entropy w)))
      as [[resolved ->]|[-> | ->]]; [|right; left; reflexivity|right; right; reflexivity].
    left. exists resolved. cbn [visitedRefs entropy]. by rewrite add_then_delete, world_eta.
Qed.

(** Fuel beyond the number of references still unvisited is never used up. *)
Lemma resolveRef_known_ref_returns (fuel : nat) (ref : JS) (w : World) :
  (∀ r, ref = JStr r → r ∈ refs_of spec) →
  size (refs_of spec ∖ visited_strings (visitedRefs w)) < fuel →
  resolveRef spec fuel ref w ≠ OutOfFuel.
Proof.
  revert ref w. induction fuel as [|fuel IH]; intros ref w Hknown Hsize; [lia|].
  destruct (resolveRef_outcome (S fuel) ref w) as [[x Hx]|[Hx|Hx]];
    [congruence|congruence|].
  exfalso.
  destruct (twin ref (visitedRefs w)) eqn:Hin.
  { cbn [resolveRef] in Hx. unfold bind, visited_has in Hx. rewrite Hin in Hx.
    destruct (is_reference ref); discriminate. }
  destruct (truthy spec) eqn:Hspec;
    [|by rewrite resolveRef_without_document in Hx].
  destruct ref as [| | | |r| |];
    try solve [rewrite resolveRef_not_string in Hx; [discriminate|intros ? [=]|done]].
  rewrite resolveRef_string in Hx by done.
  destruct (walk spec (refParts (stripHash r))) as [current| |] eqn:Hwalk;
    try discriminate.
  destruct (truthy current && truthy (field current "$ref")); [|discriminate].
  assert (resolveRef spec fuel (field current "$ref")
            (mkWorld (visitedRefs w ++ [JStr r]) (entropy w)) ≠ OutOfFuel) as Hrec.
  { apply IH.
    - intros r' Hr'. apply ref_field_in_refs in Hr'.
      apply refs_of_walk in Hwalk. set_solver.
    - simpl. rewrite visited_strings_snoc.
      assert (r ∉ visited_strings (visitedRefs w)) as Hnotin.
      { intros H. apply twin_string in H. congruence. }
      assert (refs_of spec ∖ (visited_strings (visitedRefs w) ∪ {[r]})
              ⊂ refs_of spec ∖ visited_strings (visitedRefs w)) as Hlt.
      { specialize (Hknown r eq_refl). set_solver. }
      apply subset_size in Hlt. lia. }
  destruct (resolveRef spec fuel _ _); try discriminate. congruence.
Qed.

Lemma resolveRef_enough_fuel (fuel : nat) (ref : JS) (w : World) :
  (size (refs_of spec) + 2 ≤ fuel)%nat →
  resolveRef spec fuel ref w ≠ OutOfFuel.
Proof.
  intros Hfuel Hx.
  destruct fuel as [|fuel]; [lia|].
  destruct (twin ref (visitedRefs w)) eqn:Hin.
  { cbn [resolveRef] in Hx. unfold bind, visited_has in Hx. rewrite Hin in Hx.
    destruct (is_reference ref); discriminate. }
  destruct (truthy spec) eqn:Hspec;
    [|by rewrite resolveRef_without_document in Hx].
  destruct ref as [| | | |r| |];
    try solve [rewrite resolveRef_not_string in Hx; [discriminate|intros ? [=]|done]].
  rewrite resolveRef_string in Hx by done.
  destruct (walk spec (refParts (stripHash r))) as [current| |] eqn:Hwalk;
    try discriminate.
  destruct (truthy current && truthy (field current "$ref")); [|discriminate].
  assert (resolveRef spec fuel (field current "$ref")
            (mkWorld (visitedRefs w ++ [JStr r]) (entropy w)) ≠ OutOfFuel) as Hrec.
  { apply resolveRef_known_ref_returns.
    - intros r' Hr'. apply ref_field_in_refs in Hr'.
      apply refs_of_walk in Hwalk. set_solver.
    - simpl.
      assert (size (refs_of spec ∖ visited_strings (visitedRefs w ++ [JStr r]))
              ≤ size (refs_of spec))%nat.
      { apply subseteq_size. set_solver. }
      lia. }
  destruct (resolveRef spec fuel _ _); try discriminate. congruence.
Qed.

(** The run stays in the embedding when the visited set holds no array or
    object and no path names a member of a prototype. *)
Lemma resolveRef_modelled (fuel : nat) (ref : JS) (w : World) :
  primitives_only (visitedRefs w) →
  (∀ r, ref = JStr r ∨ r ∈ refs_of spec →
     walk spec (refParts (stripHash r)) ≠ Outside) →
  resolveRef spec fuel ref w ≠ Unmodelled.
Proof.
  revert ref w. induction fuel as [|fuel IH]; intros ref w Hprim Hpaths;
    [discriminate|].
  destruct (twin ref (visitedRefs w)) eqn:Hin.
  { destruct (is_reference ref) eqn:Href.
    - by rewrite primitives_only_no_twin in Hin.
    - by rewrite resolveRef_member. }
  destruct (truthy spec) eqn:Hspec;
    [|by rewrite resolveRef_without_document].
  destruct ref as [| | | |r| |];
    try solve [rewrite resolveRef_not_string; [discriminate|intros ? [=]|done]].
  rewrite resolveRef_string by done.
  destruct (walk spec (refParts (stripHash r))) as [current| |] eqn:Hwalk;
    [|discriminate|exfalso; eapply Hpaths; eauto].
  destruct (truthy current && truthy (field current "$ref")); [|discriminate].
  assert (resolveRef spec fuel (field current "$ref")
            (mkWorld (visitedRefs w ++ [JStr r]) (entropy w)) ≠ Unmodelled) as Hrec.
  { apply IH.
    - simpl. by apply primitives_only_snoc.
    - intros r' [Hr'|Hr']; apply Hpaths; right; [|done].
      apply ref_field_in_refs in Hr'. apply refs_of_walk in Hwalk. set_solver. }
  destruct (resolveRef spec fuel _ _); try discriminate. congruence.
Qed.

Lemma resolveRef_returns (fuel : nat) (ref : JS) (w : World) :
  primitives_only (visitedRefs w) → own_paths spec ref →
  (size (refs_of spec) + 2 ≤ fuel)%nat →
  ∃ resolved, resolveRef spec fuel ref w = Ok resolved w.
Proof.
  intros Hprim Hpaths Hfuel.
  destruct (resolveRef_outcome fuel ref w) as [H|[H|H]]; [exact H|exfalso..].
  - by eapply resolveRef_modelled.
  - by eapply resolveRef_enough_fuel.
Qed.

End WithSpec.

(** C3. On every return path [resolveRef] leaves the visited set as it found
    it: a call that returns hands back the very world it was given, and no
    call raises. With fuel beyond the number of references in the document
    the call does return, from a set without arrays and objects and along
    paths of own properties. A reference already in the set gives [null]
    with the set untouched. A reference not yet in the set is put in on
    entry: it is a member while the reference found at its target is
    resolved, so that a target that refers back to it resolves to [null],
    and it is out of the set again at the return. A reference that is not a
    string is put in as well, makes [ref.startsWith] raise, and is taken out
    by the handler. *)
Theorem resolveRef_restores_visitedRefs (spec ref : JS) (w : World) :
  (∀ fuel resolved w', resolveRef spec fuel ref w = Ok resolved w' → w' = w)
  ∧ (∀ fuel e w', resolveRef spec fuel ref w ≠ Throw e w')
  ∧ (primitives_only (visitedRefs w) → own_paths spec ref →
     ∀ fuel, (size (refs_of spec) + 2 ≤ fuel)%nat →
       ∃ resolved, resolveRef spec fuel ref w = Ok resolved w)
  ∧ (∀ fuel, is_reference ref = false → twin ref (visitedRefs w) = true →
       resolveRef spec (S fuel) ref w = Ok JNull w)
  ∧ (∀ fuel r current,
       ref = JStr r → twin ref (visitedRefs w) = false → truthy spec = true →
       walk spec (refParts (stripHash r)) = Reached current →
       truthy current && truthy (field current "$ref") = true →
       resolveRef spec (S fuel) ref w =
         match resolveRef spec fuel (field current "$ref")
                 (mkWorld (visitedRefs w ++ [ref]) (entropy w)) with
         | Ok resolved _ => Ok resolved w
         | other => other
         end)
  ∧ (∀ fuel r current,
       ref = JStr r → twin ref (visitedRefs w) = false → truthy spec = true →
       walk spec (refParts (stripHash r)) = Reached current →
       field current "$ref" = ref → truthy ref = true →
       resolveRef spec (S (S fuel)) ref w = Ok JNull w)
  ∧ (∀ fuel,
       (∀ r, ref ≠ JStr r) → twin ref (visitedRefs w) = false →
       truthy spec = true →
       let entered := mkWorld (visitedRefs w ++ [ref]) (entropy w) in
       visited_add ref w = Ok tt entered
       ∧ cleanRef ref entered = Throw TypeError entered
       ∧ visited_delete ref entered = Ok tt w
       ∧ resolveRef spec (S fuel) ref w = Ok JNull w).
Proof.
  repeat split.
  - intros fuel resolved w' H.
    destruct (resolveRef_outcome spec fuel ref w) as [[x Hx]|[Hx|Hx]]; congruence.
  - intros fuel e w' H.
    destruct (resolveRef_outcome spec fuel ref w) as [[x Hx]|[Hx|Hx]]; congruence.
  - intros Hprim Hpaths fuel Hfuel. by apply resolveRef_returns.
  - intros fuel Href Hin. by apply resolveRef_member.
  - intros fuel r current -> Hnew Hspec Hwalk Href.
    rewrite resolveRef_string, Hwalk, Href by done.
    destruct (resolveRef_outcome spec fuel (field current "$ref")
                (mkWorld (visitedRefs w ++ [JStr r]) (entropy w)))
      as [[x ->]|[-> | ->]]; try reflexivity.
    cbn [visitedRefs entropy]. by rewrite add_then_delete, world_eta.
  - intros fuel r current -> Hnew Hspec Hwalk Href Hr.
    rewrite resolveRef_string, Hwalk, Href, Hr by done.
    assert (truthy current = true) as ->.
    { destruct current; try done; unfold field in Href; discriminate. }
    cbn [andb]. rewrite resolveRef_member; [| done |].
    + cbn [visitedRefs entropy]. by rewrite add_then_delete, world_eta.
    + cbn [visitedRefs]. unfold twin. rewrite existsb_app. cbn [existsb].
      by rewrite similar_refl, orb_true_r.
  - by apply visited_add_new.
  - destruct ref; try reflexivity. exfalso. by eapply H.
  - by apply visited_delete_added.
  - by apply resolveRef_not_string.
Qed.

End ResolveFacts.

(** * Facts about the generator *)
Module GeneratorFacts.
Import Js JsFacts Keyword DataGenerator Run RunFacts FakerFacts Vocabulary ResolveFacts Examples.
Import NumberVocabulary NumberFacts.

(** ** Schemas that reach the type switch *)

Lemma generateFromSchema_plain (spec : JS) (fuel : nat) (schema : JS) :
  plain schema = true →
  generateFromSchema spec (S fuel) schema
  = switchType (generateFromSchema spec fuel) schema.
Proof.
  unfold plain, no_elements. intros H.
  repeat (apply andb_prop in H; destruct H as [H ?]).
  cbn [generateFromSchema]. rewrite H. cbn [negb].
  destruct (truthy (field schema "$ref")); [discriminate|].
  destruct (nonempty_array (field schema "oneOf")); try discriminate.
  destruct (nonempty_array (field schema "anyOf")); try discriminate.
  destruct (nonempty_array (field schema "allOf")); try discriminate.
  reflexivity.
Qed.

(** ** Numbers *)

Lemma num_unless_undefined_bound (x : JS) (fallback q : Q) :
  bound x fallback = Some q → num_unless_undefined x fallback = ret q.
Proof. destruct x; simpl; intros [= <-]; reflexivity. Qed.

(** [Faker.bits] reads [n] bits after [acc] and always returns. *)
Lemma bits_returns (n : nat) (acc : Z) (w : World) :
  ∃ z w', Faker.bits n acc w = Ok z w'
    ∧ visitedRefs w' = visitedRefs w
    ∧ (acc * 2 ^ Z.of_nat n ≤ z < (acc + 1) * 2 ^ Z.of_nat n)%Z.
Proof.
  revert acc w. induction n as [|n IH]; intros acc w.
  - exists acc, w. simpl. split; [reflexivity|]. split; [reflexivity|lia].
  - cbn [Faker.bits]. unfold bind.
    destruct (draw_returns w) as (b & w1 & -> & Hv & _).
    destruct (IH (2 * acc + (if Nat.odd b then 1 else 0))%Z w1)
      as (z & w' & -> & Hv' & Hz).
    exists z, w'. split; [reflexivity|]. split; [congruence|].
    rewrite Nat2Z.inj_succ, Z.pow_succ_r by lia.
    destruct (Nat.odd b); nia.
Qed.

(** The random fraction is at least 0 and at most [1 - 2^-53]. *)
Lemma real_range (w w' : World) (r : Q) :
  Faker.real w = Ok r w' →
  visitedRefs w' = visitedRefs w
  ∧ (0 <= r)%Q ∧ (r <= 9007199254740991 # 9007199254740992)%Q.
Proof.
  unfold Faker.real, bind.
  destruct (bits_returns 53 0 w) as (z & w1 & -> & Hv & Hz).
  intros [= <- <-]. split; [done|].
  change (2 ^ Z.of_nat 53)%Z with 9007199254740992%Z in Hz.
  unfold Qle. simpl. lia.
Qed.

Lemma real_returns (w : World) : ∃ r w', Faker.real w = Ok r w'.
Proof.
  unfold Faker.real, bind.
  destruct (bits_returns 53 0 w) as (z & w1 & -> & _). eauto.
Qed.

(** Rounding keeps a number between the roundings of its bounds. *)
Lemma round_between (x lo hi a b : Q) :
  (lo <= x)%Q → (x <= hi)%Q →
  Binary64.round lo = Binary64.Fin a → Binary64.round hi = Binary64.Fin b →
  ∃ c, Binary64.round x = Binary64.Fin c ∧ (a <= c)%Q ∧ (c <= b)%Q.
Proof.
  intros Hlo Hhi Ha Hb. apply le_squeeze.
  - rewrite <- Ha. by apply round_mono.
  - rewrite <- Hb. by apply round_mono.
Qed.

(** Between [2^53 - 2] and [2^53 - 1] faker's sum [real * 2 + (2^53 - 2)]
    is rounded up to [2^53] for every fraction from [3/4] on. *)
Lemma computed_int_near_safe_end (w w' : World) (r : Q) :
  Faker.real w = Ok r w' → (3 # 4 <= r)%Q →
  Faker.computed_int 9007199254740990 9007199254740991 w
  = Ok (Binary64.Fin 9007199254740992) w'.
Proof.
  intros Hreal Hr. destruct (real_range _ _ _ Hreal) as (_ & _ & Hr1).
  unfold Faker.computed_int.
  change (Qceiling 9007199254740990) with 9007199254740990%Z.
  change (Qfloor 9007199254740991) with 9007199254740991%Z.
  change (9007199254740990 =? 9007199254740991)%Z with false.
  change (9007199254740991 <? 9007199254740990)%Z with false.
  cbv iota. unfold bind at 1. rewrite Hreal. unfold ret. f_equal.
  replace (Binary64.sub
             (Binary64.add (Binary64.Fin (inject_Z 9007199254740991))
                (Binary64.Fin 1))
             (Binary64.Fin (inject_Z 9007199254740990)))
    with (Binary64.Fin 2) by (vm_compute; reflexivity).
  cbn [Binary64.mul].
  destruct (round_between (r * 2) (3 # 2) (9007199254740991 # 4503599627370496)
              (3 # 2) (9007199254740991 # 4503599627370496))
    as (c & -> & Hc1 & Hc2);
    [lra | unfold Qle in *; simpl in *; lia
    | vm_compute; reflexivity | vm_compute; reflexivity |].
  cbn [Binary64.add].
  destruct (round_between (c + inject_Z 9007199254740990)
              (18014398509481983 # 2)
              ((9007199254740991 # 4503599627370496) + 9007199254740990)
              9007199254740992 9007199254740992)
    as (d & -> & Hd1 & Hd2);
    [unfold inject_Z; lra | unfold inject_Z; lra
    | vm_compute; reflexivity | vm_compute; reflexivity |].
  cbn [Binary64.floor]. do 2 f_equal.
  assert (d == 9007199254740992)%Q as -> by lra. reflexivity.
Qed.

Lemma number_type_cases (type : JS) :
  is_one_of type ["number"; "integer"] = true →
  type = JStr "number" ∨ type = JStr "integer".
Proof.
  destruct type as [| | | |s| |]; simpl; try discriminate.
  destruct (String.eqb_spec s "number") as [->|_]; [auto|].
  destruct (String.eqb_spec s "integer") as [->|_]; [auto|discriminate].
Qed.

Lemma switchType_number (generate : JS → M JS) (schema : JS) :
  is_one_of (field schema "type") ["number"; "integer"] = true →
  switchType generate schema = generateNumber schema.
Proof.
  intros Htype. unfold switchType.
  destruct (number_type_cases _ Htype) as [-> | ->]; reflexivity.
Qed.

Lemma in_integer_range (lo hi : Q) (z : Z) :
  (Qceiling lo ≤ z ≤ Qfloor hi)%Z → (lo <= inject_Z z <= hi)%Q.
Proof.
  intros [Hlo Hhi]. split.
  - eapply Qle_trans; [apply Qle_ceiling|]. by rewrite <- Zle_Qle.
  - eapply Qle_trans; [|apply Qfloor_le]. by rewrite <- Zle_Qle.
Qed.

(** C7. Where the claim fails. For [{type:"integer",
    minimum:9007199254740990, maximum:9007199254740991}] faker computes
    [Math.floor(real * 2 + 9007199254740990)] in doubles, and for every
    random fraction from [3/4] on the sum is rounded to [2^53]:
    [generateFromSchema] returns [9007199254740992], which is above
    [maximum]. The random source that starts with the bits 1, 1 gives that
    fraction. With the bounds of [format: double] the difference
    [maximum - minimum] overflows and the value is [Infinity], or [NaN]
    when the fraction is 0. The particular case of the claim holds:
    [{type:"integer", minimum:5, maximum:5}] always gives exactly [5]. *)
Theorem number_can_leave_bounds :
  (∀ spec fuel w r w',
     Faker.real w = Ok r w' → (3 # 4 <= r)%Q →
     generateFromSchema spec (S fuel) nearSafeEndSchema w
     = Ok (JNum 9007199254740992) w')
  ∧ generate JUndefined 1 nearSafeEndSchema [1; 1]
    = Ok (JNum 9007199254740992) (mkWorld ∅ [])
  ∧ bound (field nearSafeEndSchema "maximum") 1000 = Some 9007199254740991%Q
  ∧ generateNumberValue doubleRangeSchema (mkWorld ∅ [1])
    = Ok (Binary64.Inf false) (mkWorld ∅ [])
  ∧ generateNumberValue doubleRangeSchema (mkWorld ∅ [])
    = Ok Binary64.NaN (mkWorld ∅ [])
  ∧ (∀ spec fuel rnd,
       generate spec (S fuel) fiveSchema rnd = Ok (JNum 5) (mkWorld ∅ rnd)).
Proof.
  split; [|split; [|split; [|split; [|split]]]].
  - intros spec fuel w r w' Hreal Hr.
    rewrite generateFromSchema_plain by reflexivity.
    rewrite switchType_number by reflexivity.
    unfold generateNumber, generateNumberValue.
    change (field nearSafeEndSchema "minimum") with (JNum 9007199254740990).
    change (field nearSafeEndSchema "maximum") with (JNum 9007199254740991).
    change (is_one_of (field nearSafeEndSchema "type") ["integer"]) with true.
    change (truthy (field nearSafeEndSchema "multipleOf")) with false.
    cbn [num_unless_undefined]. rewrite !bind_ret. cbv iota.
    unfold bind. by rewrite (computed_int_near_safe_end w w' r).
  - vm_compute. reflexivity.
  - reflexivity.
  - vm_compute. reflexivity.
  - vm_compute. reflexivity.
  - intros spec fuel rnd. reflexivity.
Qed.

(** ** Strings and booleans *)

Lemma text_as_string (api : string) (w : World) :
  returns (let* s := Faker.text api in ret (JStr s)) w is_string.
Proof.
  eapply returns_bind; [apply text_returns|].
  intros s w' _ _. apply returns_ret. by exists s.
Qed.

Lemma generateString_returns (schema : JS) (lo hi : Q) (w : World) :
  nonempty_array (field schema "enum") = NoElements →
  num_or (field schema "minLength") 1 = ret lo →
  num_or (field schema "maxLength") 50 = ret hi →
  (Qceiling lo ≤ Qfloor hi)%Z →
  returns (generateString schema) w is_string.
Proof.
  intros Henum Hlo Hhi Hle. unfold generateString. rewrite Henum.
  repeat match goal with
         | |- context [if is_one_of ?f ?l then _ else _] =>
             destruct (is_one_of f l); [try apply text_as_string|]
         end.
  - eapply returns_bind; [apply text_returns|].
    intros s w' _ _. apply returns_ret. by eexists.
  - rewrite Hlo, Hhi, !bind_ret.
    eapply returns_bind; [by apply number_int_returns|]. intros len w3 _ _.
    eapply returns_bind; [apply string_alphanumeric_returns|]. intros str w4 _ _.
    apply returns_ret. by exists str.
Qed.

Lemma generate_stringSchema (spec : JS) (fuel : nat) (w : World) :
  returns (generateFromSchema spec (S fuel) stringSchema) w is_string.
Proof.
  rewrite generateFromSchema_plain by reflexivity.
  change (switchType (generateFromSchema spec fuel) stringSchema)
    with (generateString stringSchema).
  by apply (generateString_returns stringSchema 1 50).
Qed.

Lemma generate_booleanSchema (spec : JS) (fuel : nat) (w : World) :
  returns (generateFromSchema spec (S fuel) booleanSchema) w is_boolean.
Proof.
  rewrite generateFromSchema_plain by reflexivity.
  change (switchType (generateFromSchema spec fuel) booleanSchema)
    with (generateBoolean booleanSchema).
  unfold generateBoolean.
  eapply returns_bind; [apply datatype_boolean_returns|].
  intros b w' _ _. apply returns_ret. by exists b.
Qed.

(** ** Arrays *)

Lemma pushItems_returns (gen : M JS) (P : JS → Prop) (n : nat) :
  (∀ w, returns gen w P) →
  ∀ (array : list JS) (w : World),
    returns (pushItems gen n array) w
      (fun l => ∃ new, l = array ++ new ∧ length new = n ∧ Forall P new).
Proof.
  intros Hgen. induction n as [|n IH]; intros array w; simpl.
  - apply returns_ret. exists []. by rewrite app_nil_r.
  - eapply returns_bind; [apply Hgen|]. intros item w1 _ Hitem.
    eapply returns_weaken; [apply IH|].
    intros l (new & -> & Hlen & Hall). exists (item :: new).
    rewrite <- app_assoc. simpl. auto.
Qed.

(** The length of a generated array lies between [minItems || 1] and
    [maxItems || 5], and every item comes from the items schema. *)
Lemma generateArray_returns (generate : JS → M JS) (schema : JS) (lo hi : Q)
    (P : JS → Prop) (w : World) :
  num_or (field schema "minItems") 1 = ret lo →
  num_or (field schema "maxItems") 5 = ret hi →
  (Qceiling lo ≤ Qfloor hi)%Z →
  (∀ w',
     returns (generate (or_else (field schema "items") stringSchema)) w' P) →
  returns (generateArray generate schema) w
    (fun v => ∃ items, v = JArr items
                ∧ (Qceiling lo ≤ Z.of_nat (length items) ≤ Qfloor hi
                   ∨ (Qfloor hi < 0 ∧ items = []))%Z
                ∧ Forall P items).
Proof.
  intros Hlo Hhi Hle Hgen. unfold generateArray. rewrite Hlo, Hhi, !bind_ret.
  eapply returns_bind; [by apply number_int_returns|]. intros len w3 _ Hlen.
  cbv beta in Hlen.
  eapply returns_bind; [by apply (pushItems_returns _ P)|].
  intros array w4 _ (new & -> & Hnew & Hall).
  apply returns_ret. exists new. split; [reflexivity|]. split; [|done].
  rewrite Hnew. destruct (Z.neg_nonneg_cases len) as [Hneg|Hpos].
  - destruct (Z.neg_nonneg_cases (Qfloor hi)) as [Hhn|Hhp].
    + right. split; [done|]. destruct new; [done|simpl in Hnew; lia].
    + left. lia.
  - left. rewrite Z2Nat.id by done. lia.
Qed.

Lemma generate_threeBooleans (spec : JS) (fuel : nat) (rnd : list nat) :
  ∃ a b c w',
    generate spec (S (S fuel)) threeBooleansSchema rnd
    = Ok (JArr [JBool a; JBool b; JBool c]) w'.
Proof.
  unfold generate. rewrite generateFromSchema_plain by reflexivity.
  change (switchType (generateFromSchema spec (S fuel)) threeBooleansSchema)
    with (generateArray (generateFromSchema spec (S fuel)) threeBooleansSchema).
  destruct (generateArray_returns (generateFromSchema spec (S fuel))
              threeBooleansSchema 3 3 is_boolean (mkWorld ∅ rnd))
    as (v & w' & Hrun & _ & items & -> & Hlen & Hall);
    [reflexivity|reflexivity|by vm_compute|intros w'; apply generate_booleanSchema|].
  rewrite Hrun. destruct Hlen as [Hlen|[Hneg _]]; [|vm_compute in Hneg; discriminate].
  change (Qceiling 3) with 3%Z in Hlen. change (Qfloor 3) with 3%Z in Hlen.
  destruct items as [|x [|y [|z [|? ?]]]]; simpl in Hlen; try lia.
  inversion Hall as [|? ? [a ->] Hall1]; subst.
  inversion Hall1 as [|? ? [b ->] Hall2]; subst.
  inversion Hall2 as [|? ? [c ->] _]; subst.
  by exists a, b, c, w'.
Qed.

(** C6. With [minItems:0] and [maxItems:0] the schema allows the empty array
    only. [schema.minItems || 1] and [schema.maxItems || 5] read a bound of
    [0] as no bound, so the generator draws a length between 1 and 5: the
    array returned is never empty. Bounds other than [0] are kept:
    [{type:"array", minItems:3, maxItems:3, items:{type:"boolean"}}] always
    gives three booleans. *)
Theorem zero_bounds_are_ignored (spec : JS) (fuel : nat) (rnd : list nat) :
  (∃ items w',
     generate spec (S (S fuel)) emptyArraySchema rnd = Ok (JArr items) w'
     ∧ (1 ≤ length items ≤ 5)%nat
     ∧ Forall is_string items)
  ∧ (∃ a b c w',
       generate spec (S (S fuel)) threeBooleansSchema rnd
       = Ok (JArr [JBool a; JBool b; JBool c]) w').
Proof.
  split; [|apply generate_threeBooleans].
  unfold generate. rewrite generateFromSchema_plain by reflexivity.
  change (switchType (generateFromSchema spec (S fuel)) emptyArraySchema)
    with (generateArray (generateFromSchema spec (S fuel)) emptyArraySchema).
  destruct (generateArray_returns (generateFromSchema spec (S fuel))
              emptyArraySchema 1 5 is_string (mkWorld ∅ rnd))
    as (v & w' & Hrun & _ & items & -> & Hlen & Hall);
    [reflexivity|reflexivity|by vm_compute|intros w'; apply generate_stringSchema|].
  exists items, w'. split; [exact Hrun|]. split; [|exact Hall].
  destruct Hlen as [Hlen|[Hneg _]]; [|vm_compute in Hneg; discriminate].
  change (Qceiling 1) with 1%Z in Hlen. change (Qfloor 5) with 5%Z in Hlen. lia.
Qed.

(** ** Objects *)



Lemma assign_key_proto (v : JS) (obj : list (string * JS)) :
  assign_key "__proto__" v obj = obj.
Proof. reflexivity. Qed.













(** ** Failing soft *)

Lemma absent_schema_gives_null (spec : JS) (fuel : nat) (schema : JS) (w : World) :
  truthy schema = false →
  generateFromSchema spec (S fuel) schema w = Ok JNull w.
Proof. intros H. cbn [generateFromSchema]. rewrite H. reflexivity. Qed.

Lemma unknown_type_gives_null (spec : JS) (fuel : nat) (schema : JS) (w : World) :
  plain schema = true →
  truthy (field schema "type") = true →
  is_one_of (field schema "type")
    ["string"; "number"; "integer"; "boolean"; "array"; "object"] = false →
  generateFromSchema spec (S fuel) schema w = Ok JNull w.
Proof.
  intros Hplain Htruthy Hunknown. rewrite generateFromSchema_plain by done.
  unfold switchType, or_else. rewrite Htruthy.
  destruct (field schema "type") as [| | | |s| |]; try reflexivity.
  simpl in Hunknown. simpl.
  repeat (apply orb_false_elim in Hunknown; destruct Hunknown as [-> Hunknown]).
  simpl. by destruct (String.eqb s "null").
Qed.

Lemma unresolved_ref_gives_empty_object (spec : JS) (fuel : nat) (schema : JS)
    (resolved : JS) (w : World) :
  truthy schema = true →
  truthy (field schema "$ref") = true →
  resolveRef spec fuel (field schema "$ref") w = Ok resolved w →
  truthy resolved = false →
  generateFromSchema spec (S fuel) schema w = Ok (JObj []) w.
Proof.
  intros Hschema Href Hresolve Hfalsy. cbn [generateFromSchema].
  rewrite Hschema, Href. cbn [negb]. unfold bind. rewrite Hresolve, Hfalsy.
  reflexivity.
Qed.

(** C4. The three soft failures hold: a falsy schema gives [null], a type
    outside the switch gives [null], a [$ref] that does not resolve gives the
    empty object. But the generator can raise: [faker.number.int] raises on
    an empty range and [generateNumber], [generateArray], [generateString]
    pass it the bounds of the schema next to their own defaults, without
    ordering them; and [required: true] makes [required.includes] a call of
    [undefined]. *)
Theorem generator_can_raise (spec : JS) (fuel : nat) (w : World) :
  (∀ schema, truthy schema = false →
     generateFromSchema spec (S fuel) schema w = Ok JNull w)
  ∧ (∀ schema, plain schema = true → truthy (field schema "type") = true →
       is_one_of (field schema "type")
         ["string"; "number"; "integer"; "boolean"; "array"; "object"] = false →
       generateFromSchema spec (S fuel) schema w = Ok JNull w)
  ∧ (∀ schema resolved, truthy schema = true →
       truthy (field schema "$ref") = true →
       resolveRef spec fuel (field schema "$ref") w = Ok resolved w →
       truthy resolved = false →
       generateFromSchema spec (S fuel) schema w = Ok (JObj []) w)
  ∧ generateFromSchema spec (S fuel) aboveDefaultSchema w = Throw FakerError w
  ∧ generateFromSchema spec (S fuel) sixItemsSchema w = Throw FakerError w
  ∧ generateFromSchema spec (S fuel) requiredTrueSchema w = Throw TypeError w.
Proof.
  split; [|split; [|split; [|split; [|split]]]].
  - intros schema. apply absent_schema_gives_null.
  - intros schema. apply unknown_type_gives_null.
  - intros schema resolved. apply unresolved_ref_gives_empty_object.
  - reflexivity.
  - reflexivity.
  - reflexivity.
Qed.

(** ** Merging the members of [allOf] *)

(** [mergeSchemas] on the two members: the properties and the required
    list of the first member are gone. *)
Lemma mergeSchemas_drops_first (x y : JS) (w : World) :
  mergeSchemas [memberX x; memberY y] w = Ok (memberY y) w.
Proof. reflexivity. Qed.

(** C1. For the [allOf] of [{properties:{x}, required:["x"]}] and
    [{properties:{y}, required:["y"]}], [mergeSchemas] returns the second
    member alone: the spread [{...merged, ...currentSchema}] overwrites the
    union made just before it, and the union made after it reads the
    overwritten [merged.properties]. The object generated has the key [y]
    only; with members that carry no [type], the result is a string. *)
Theorem allOf_keeps_last_member_only (spec : JS) (fuel : nat) (rnd : list nat) :
  (∀ x y w, mergeSchemas [memberX x; memberY y] w = Ok (memberY y) w)
  ∧ (∃ s w',
       generate spec (S (S (S (S fuel)))) allOfXY rnd
       = Ok (JObj [("y", JStr s)]) w')
  ∧ (∃ s w',
       generate spec (S (S (S fuel))) allOfXYUntyped rnd = Ok (JStr s) w').
Proof.
  split; [|split].
  - intros x y w. apply mergeSchemas_drops_first.
  - unfold generate.
    assert (generateFromSchema spec (S (S (S (S fuel)))) allOfXY (mkWorld ∅ rnd)
            = generateObject (generateFromSchema spec (S (S fuel)))
                (memberY stringSchema) (mkWorld ∅ rnd)) as -> by reflexivity.
    destruct (generate_stringSchema spec (S fuel) (mkWorld ∅ rnd))
      as (v & w' & Hrun & _ & s & ->).
    exists s, w'. unfold generateObject.
    change (object_entries
              (or_else (field (memberY stringSchema) "properties") (JObj [])))
      with [("y", stringSchema)].
    cbn [fillProperties].
    change (required_includes (field (memberY stringSchema) "required") "y")
      with (@ret World bool true).
    rewrite !bind_ret. unfold bind. rewrite Hrun. reflexivity.
  - unfold generate.
    assert (generateFromSchema spec (S (S (S fuel))) allOfXYUntyped (mkWorld ∅ rnd)
            = generateString
                (JObj [("properties", JObj [("y", stringSchema)]);
                       ("required", JArr [JStr "y"])]) (mkWorld ∅ rnd))
      as -> by reflexivity.
    destruct (generateString_returns
                (JObj [("properties", JObj [("y", stringSchema)]);
                       ("required", JArr [JStr "y"])]) 1 50 (mkWorld ∅ rnd))
      as (v & w' & Hrun & _ & s & ->);
      [reflexivity|reflexivity|reflexivity|by vm_compute|].
    by exists s, w'.
Qed.

(** ** A schema whose required property refers back to the schema *)

(** The reference resolves, and it is out of the visited set again when the
    resolved schema is handed to the generator. *)
Lemma resolve_nodeRef (fuel : nat) (w : World) :
  twin (JStr nodeRef) (visitedRefs w) = false →
  resolveRef nodeSpec (S fuel) (JStr nodeRef) w = Ok nodeSchema w.
Proof.
  intros Hnotin. rewrite resolveRef_string by done.
  change (walk nodeSpec (refParts (stripHash nodeRef)))
    with (Reached nodeSchema).
  reflexivity.
Qed.

Lemma node_generation_never_returns (fuel : nat) :
  ∀ w, twin (JStr nodeRef) (visitedRefs w) = false →
    generateFromSchema nodeSpec fuel nodeRefSchema w = OutOfFuel
    ∧ generateFromSchema nodeSpec fuel nodeSchema w = OutOfFuel.
Proof.
  induction fuel as [|fuel IH]; intros w Hnotin; [split; reflexivity|].
  destruct (IH w Hnotin) as [IHref IHnode]. split.
  - cbn [generateFromSchema].
    change (negb (truthy nodeRefSchema)) with false. cbv iota.
    change (field nodeRefSchema "$ref") with (JStr nodeRef).
    change (truthy (JStr nodeRef)) with true. cbv iota.
    unfold bind at 1.
    destruct fuel as [|fuel']; [reflexivity|].
    rewrite resolve_nodeRef by done.
    change (truthy nodeSchema) with true. cbv iota.
    exact IHnode.
  - cbn [generateFromSchema].
    change (negb (truthy nodeSchema)) with false. cbv iota.
    change (truthy (field nodeSchema "$ref")) with false. cbv iota.
    change (nonempty_array (field nodeSchema "oneOf")) with NoElements.
    change (nonempty_array (field nodeSchema "anyOf")) with NoElements.
    change (nonempty_array (field nodeSchema "allOf")) with NoElements.
    cbv iota.
    change (switchType (generateFromSchema nodeSpec fuel) nodeSchema)
      with (generateObject (generateFromSchema nodeSpec fuel) nodeSchema).
    unfold generateObject.
    change (object_entries (or_else (field nodeSchema "properties") (JObj [])))
      with [("self", nodeRefSchema)].
    unfold bind at 1. cbn [fillProperties].
    change (required_includes (field nodeSchema "required") "self")
      with (@ret World bool true).
    unfold bind at 1. unfold ret at 1. cbv iota.
    unfold bind at 1. unfold ret at 1. cbv iota.
    unfold bind at 1. unfold bind at 1.
    rewrite IHref. reflexivity.
Qed.

(** C2. The document [nodeSpec] holds a cyclic [$ref] chain: the required
    property [self] of the schema [Node] refers to [Node]. A top-level call on
    a reference to [Node] does not return, whatever the fuel and the random
    source: the reference has left the visited set when the property is
    generated, so the guard of [resolveRef] never fires. The guard does cut
    a cycle made of [$ref] nodes alone, as in [chainSpec], which gives the
    empty object. *)
Theorem self_reference_never_returns (fuel : nat) (rnd : list nat) :
  generate nodeSpec fuel nodeRefSchema rnd = OutOfFuel
  ∧ generate chainSpec (4 + fuel) chainRefSchema rnd
    = Ok (JObj []) (mkWorld ∅ rnd).
Proof.
  split.
  - unfold generate. by apply node_generation_never_returns.
  - vm_compute. reflexivity.
Qed.

End GeneratorFacts.
(** * Facts about the template engine *)
Module TemplateFacts.
Import Js JsFacts TemplateEngine TemplateVocabulary Examples.

Lemma append_cons (c : ascii) (a b : string) :
  String c a +:+ b = String c (a +:+ b).
Proof. reflexivity. Qed.

Lemma append_empty (b : string) : EmptyString +:+ b = b.
Proof. reflexivity. Qed.

Lemma append_assoc (a b c : string) : (a +:+ b) +:+ c = a +:+ (b +:+ c).
Proof.
  induction a as [|x a IH]; [done|]. rewrite !append_cons. by rewrite IH.
Qed.

Lemma length_append (a b : string) :
  String.length (a +:+ b) = (String.length a + String.length b)%nat.
Proof.
  induction a as [|x a IH]; [done|]. rewrite append_cons. simpl. by rewrite IH.
Qed.

Lemma split_on_not_nil (sep : ascii) (s : string) : split_on sep s ≠ [].
Proof.
  induction s as [|c s IH]; simpl; [done|].
  destruct (Ascii.eqb c sep); [done|]. by destruct (split_on sep s).
Qed.

Lemma takeTemplate_until_close (t rest : string) :
  no_close t = true →
  takeTemplate (t +:+ String "}" rest) = (t, String "}" rest).
Proof.
  induction t as [|c t IH]; [done|]. rewrite append_cons. simpl.
  intros H. apply andb_prop in H as [Hc Ht].
  apply negb_true_iff in Hc. rewrite Hc, (IH Ht). reflexivity.
Qed.

(** What [takeTemplate] returns is the text it was given, cut in two. *)
Lemma takeTemplate_append (s run after : string) :
  takeTemplate s = (run, after) → s = run +:+ after.
Proof.
  revert run after. induction s as [|c s IH]; intros run after; simpl.
  - by intros [= <- <-].
  - destruct (is_brace_close c); [by intros [= <- <-]|].
    destruct (takeTemplate s) as [run' after'].
    intros [= <- <-]. rewrite append_cons. f_equal. by apply IH.
Qed.

Lemma starts_with_two_append (c : ascii) (s rest : string) :
  starts_with_two c s = Some rest → s = String c (String c rest).
Proof.
  destruct s as [|a [|b s]]; simpl; try discriminate.
  destruct (Ascii.eqb_spec a c) as [->|]; [|discriminate].
  destruct (Ascii.eqb_spec b c) as [->|]; [|discriminate].
  by intros [= ->].
Qed.

(** A match is the text between two pairs of braces, and its length is the
    length of the text and the four braces. *)
Lemma matchHere_append (s template : string) (len : nat) :
  matchHere s = Some (template, len) →
  ∃ post, s = "{{" +:+ template +:+ "}}" +:+ post
          ∧ len = (4 + String.length template)%nat
          ∧ template ≠ EmptyString.
Proof.
  unfold matchHere.
  destruct (starts_with_two "{" s) as [body|] eqn:Hopen; [|discriminate].
  destruct (takeTemplate body) as [run after] eqn:Htake.
  destruct run as [|c run]; [discriminate|].
  destruct (starts_with_two "}" after) as [post|] eqn:Hclose; [|discriminate].
  intros [= <- <-]. exists post.
  apply starts_with_two_append in Hopen, Hclose.
  apply takeTemplate_append in Htake. subst. split; [reflexivity|done].
Qed.

Lemma matchHere_placeholder (inner post : string) :
  inner ≠ EmptyString → no_close inner = true →
  matchHere ("{{" +:+ inner +:+ "}}" +:+ post)
  = Some (inner, 4 + String.length inner)%nat.
Proof.
  intros Hne Hclose. unfold matchHere.
  change ("{{" +:+ inner +:+ "}}" +:+ post)
    with (String "{" (String "{" (inner +:+ String "}" (String "}" post)))).
  cbn [starts_with_two Ascii.eqb Bool.eqb andb].
  rewrite takeTemplate_until_close by done.
  destruct inner; [done|reflexivity].
Qed.

Lemma matchHere_not_open (c : ascii) (rest : string) :
  Ascii.eqb c "{" = false → matchHere (String c rest) = None.
Proof.
  intros H. unfold matchHere, starts_with_two.
  destruct rest; [done|]. by rewrite H.
Qed.

Lemma drop_chars_append (a b : string) :
  drop_chars (String.length a) (a +:+ b) = b.
Proof. induction a as [|c a IH]; [by destruct b|]. exact IH. Qed.

(** The leftmost placeholder cuts the text in three. *)
Lemma first_match_append (s pre template post : string) :
  first_match s = Some (pre, template, post) →
  s = pre +:+ "{{" +:+ template +:+ "}}" +:+ post ∧ template ≠ EmptyString.
Proof.
  revert pre. induction s as [|c s IH]; intros pre; [discriminate|].
  cbn [first_match].
  destruct (matchHere (String c s)) as [[t len]|] eqn:Hmatch.
  - intros [= <- <- <-].
    destruct (matchHere_append _ _ _ Hmatch) as (post' & Hs & -> & Hne).
    split; [|done]. rewrite Hs at 1. rewrite append_empty. do 3 f_equal.
    change ("{{" +:+ t +:+ "}}" +:+ post')
      with (String "{" ("{" +:+ t +:+ "}}" +:+ post')) in Hs.
    injection Hs as _ ->.
    replace (4 + String.length t - 1)%nat with (String.length ("{" +:+ t +:+ "}}"))
      by (rewrite !length_append; simpl; lia).
    replace ("{" +:+ t +:+ "}}" +:+ post') with (("{" +:+ t +:+ "}}") +:+ post')
      by (by rewrite !append_assoc).
    by rewrite drop_chars_append.
  - destruct (first_match s) as [[[pre' t] post']|]; [|discriminate].
    intros [= <- <- <-]. destruct (IH pre' eq_refl) as [-> Hne].
    by rewrite append_cons.
Qed.

Section WithCatalog.
Context {W : Type}.
Variable expand : string → list string → Eff W string.

Lemma processTemplate_unknown (template : string) (w : W) :
  known (templateName template) = false →
  processTemplate expand template w = Ok ("{{" +:+ template +:+ "}}") w.
Proof.
  unfold known, templateName, processTemplate.
  destruct (split_on ":" template) as [|name params] eqn:E.
  - by apply split_on_not_nil in E.
  - simpl. intros ->. reflexivity.
Qed.

(** The characters of a match are passed over. *)
Lemma replaceFrom_skip (a b : string) (n : nat) :
  replaceFrom expand (String.length a + n) (a +:+ b) = replaceFrom expand n b.
Proof.
  induction a as [|c a IH]; [done|]. rewrite append_cons. simpl. exact IH.
Qed.

Lemma replaceFrom_drop (s : string) (n : nat) :
  replaceFrom expand n s = replaceFrom expand 0 (drop_chars n s).
Proof.
  revert n. induction s as [|c s IH]; intros [|n]; try reflexivity.
  cbn [replaceFrom drop_chars]. apply IH.
Qed.

(** Text without an opening brace is copied. *)
Lemma replaceFrom_literal (pre s : string) (w : W) :
  no_open pre = true →
  replaceFrom expand 0 (pre +:+ s) w
  = (let* tail := replaceFrom expand 0 s in ret (pre +:+ tail)) w.
Proof.
  intros Hopen. revert w. induction pre as [|c pre IH]; intros w.
  - rewrite append_empty. unfold bind, ret.
    destruct (replaceFrom expand 0 s w); by rewrite ?append_empty.
  - rewrite append_cons. cbn [replaceFrom].
    simpl in Hopen. apply andb_prop in Hopen as [Hc Hpre].
    apply negb_true_iff in Hc. rewrite (matchHere_not_open _ _ Hc).
    unfold bind at 1. rewrite (IH Hpre). unfold bind.
    by destruct (replaceFrom expand 0 s w).
Qed.

Lemma replaceFrom_placeholder (inner post : string) (w : W) :
  inner ≠ EmptyString → no_close inner = true →
  replaceFrom expand 0 ("{{" +:+ inner +:+ "}}" +:+ post) w
  = (let* replacement := processTemplate expand (trim inner) in
     let* tail := replaceFrom expand 0 post in
     ret (replacement +:+ tail)) w.
Proof.
  intros Hne Hclose.
  pose proof (matchHere_placeholder inner post Hne Hclose) as Hmatch.
  change ("{{" +:+ inner +:+ "}}" +:+ post)
    with (String "{" ("{" +:+ inner +:+ "}}" +:+ post)) in *.
  cbn [replaceFrom]. rewrite Hmatch.
  replace (4 + String.length inner - 1)%nat
    with (String.length ("{" +:+ inner +:+ "}}") + 0)%nat
    by (rewrite !length_append; simpl; lia).
  replace ("{" +:+ inner +:+ "}}" +:+ post)
    with (("{" +:+ inner +:+ "}}") +:+ post)
    by (by rewrite !append_assoc).
  unfold bind. destruct (processTemplate expand (trim inner) w); try reflexivity.
  by rewrite replaceFrom_skip.
Qed.

(** [processString] at the leftmost placeholder: the text before it is
    copied, the placeholder is replaced by what [processTemplate] returns
    for its trimmed text, and the text after it is processed in turn. *)
Lemma processString_first_match (s pre template post : string) (w : W) :
  first_match s = Some (pre, template, post) →
  processString expand s w
  = (let* replacement := processTemplate expand (trim template) in
     let* tail := processString expand post in
     ret (pre +:+ replacement +:+ tail)) w.
Proof.
  unfold processString. revert pre w.
  induction s as [|c s IH]; intros pre w; [discriminate|].
  cbn [first_match replaceFrom].
  destruct (matchHere (String c s)) as [[t len]|] eqn:Hmatch.
  - intros [= <- <- <-]. rewrite (replaceFrom_drop s). reflexivity.
  - destruct (first_match s) as [[[pre' t] post']|] eqn:Hfirst; [|discriminate].
    intros [= <- <- <-]. unfold bind at 1. rewrite (IH pre' w eq_refl).
    unfold bind.
    destruct (processTemplate expand (trim t) w) as [r w1| | |];
      try reflexivity.
    destruct (replaceFrom expand 0 post' w1); reflexivity.
Qed.

(** A text without a placeholder is returned as it is. *)
Lemma processString_no_match (s : string) (w : W) :
  first_match s = None → processString expand s w = Ok s w.
Proof.
  unfold processString. induction s as [|c s IH]; [reflexivity|].
  cbn [first_match replaceFrom].
  destruct (matchHere (String c s)) as [[t len]|]; [discriminate|].
  destruct (first_match s) as [[[pre' t] post']|]; [discriminate|].
  intros _. unfold bind. by rewrite IH.
Qed.

(** ** The shape of the result *)



End WithCatalog.

(** ** Assignments to the object under construction *)





Section Shape.
Context {W : Type}.
Variable expand : string → list string → Eff W string.

(** When the bodies of the catalog return, so does every part of the
    engine. *)
Hypothesis expand_returns :
  ∀ name params w, ∃ s w', expand name params w = Ok s w'.

Lemma processTemplate_returns (template : string) (w : W) :
  ∃ s w', processTemplate expand template w = Ok s w'.
Proof.
  unfold processTemplate.
  destruct (split_on ":" template) as [|name params] eqn:E.
  - by apply split_on_not_nil in E.
  - destruct (existsb _ catalogNames); [apply expand_returns|]. by eexists _, _.
Qed.

Lemma replaceFrom_returns (str : string) :
  ∀ skip w, ∃ s w', replaceFrom expand skip str w = Ok s w'.
Proof.
  induction str as [|c rest IH]; intros skip w; cbn [replaceFrom].
  - by eexists _, _.
  - destruct skip as [|skip]; [|apply IH].
    destruct (matchHere (String c rest)) as [[template len]|].
    + unfold bind.
      destruct (processTemplate_returns (trim template) w) as (r & w1 & ->).
      destruct (IH (len - 1)%nat w1) as (tail & w2 & ->). by eexists _, _.
    + unfold bind. destruct (IH 0%nat w) as (tail & w1 & ->). by eexists _, _.
Qed.



End Shape.

(** C8. Every placeholder is replaced by what [processTemplate] returns for
    its trimmed text, and for a name that is not a label of the catalog
    that is [{{] + the trimmed text + [}}]: nothing is raised and nothing is
    dropped, but the white space around the text is. A text is cut at its
    leftmost placeholder into the text before it, which is copied, the
    placeholder, and the text after it, which is processed in turn; a text
    without a placeholder comes back as it is. So [{{ nope }}] comes back as
    [{{nope}}], and [{{unknown-template-xyz}}] unchanged. *)
Theorem unknown_placeholder_is_put_back_trimmed {W : Type}
    (expand : string → list string → Eff W string) (w : W) :
  (∀ str pre inner post,
     first_match str = Some (pre, inner, post) →
     str = pre +:+ "{{" +:+ inner +:+ "}}" +:+ post
     ∧ processString expand str w
       = (let* replacement := processTemplate expand (trim inner) in
          let* tail := processString expand post in
          ret (pre +:+ replacement +:+ tail)) w
     ∧ (known (templateName (trim inner)) = false →
        processString expand str w
        = (let* tail := processString expand post in
           ret (pre +:+ "{{" +:+ trim inner +:+ "}}" +:+ tail)) w))
  ∧ (∀ template,
       known (templateName template) = false →
       processTemplate expand template w = Ok ("{{" +:+ template +:+ "}}") w)
  ∧ (∀ str, first_match str = None → processString expand str w = Ok str w)
  ∧ process expand (JStr "{{ nope }}") w = Ok (JStr "{{nope}}") w
  ∧ process expand (JStr "see {{ nope }}!") w = Ok (JStr "see {{nope}}!") w
  ∧ process expand (JStr "{{unknown-template-xyz}}") w
    = Ok (JStr "{{unknown-template-xyz}}") w.
Proof.
  split; [|split; [|split; [|repeat split]]].
  - intros str pre inner post Hfirst.
    split; [by apply first_match_append in Hfirst as [-> _]|].
    split; [by apply processString_first_match|].
    intros Hunknown. rewrite (processString_first_match _ _ _ _ _ _ Hfirst).
    unfold bind at 1. rewrite processTemplate_unknown by done.
    unfold bind, ret. destruct (processString expand post w); try reflexivity.
    by rewrite !append_assoc.
  - intros template. apply processTemplate_unknown.
  - intros str. apply processString_no_match.
Qed.



End TemplateFacts.

(** * Facts about the template engine over a store *)
Module HeapFacts.
Import Js TemplateEngine TemplateHeap HeapVocabulary Examples.

Section WithCatalog.
Context {W : Type}.
Variable expand : string → list string → Eff W string.

Lemma extends_refl (st : Store W) : extends st st.
Proof. exists []. by rewrite app_nil_r. Qed.

Lemma extends_trans (st1 st2 st3 : Store W) :
  extends st1 st2 → extends st2 st3 → extends st1 st3.
Proof.
  intros [e1 H1] [e2 H2]. exists (e1 ++ e2). by rewrite H2, H1, app_assoc.
Qed.

Lemma extends_length (st st' : Store W) :
  extends st st' → length (cells st) ≤ length (cells st').
Proof. intros [extra ->]. rewrite length_app. lia. Qed.

Lemma extends_lookup (st st' : Store W) (l : nat) (c : Cell) :
  extends st st' → cells st !! l = Some c → cells st' !! l = Some c.
Proof. intros [extra ->] H. by apply lookup_app_l_Some. Qed.

(** A write at a location that [st0] does not have keeps [st0]. *)
Lemma extends_write (st0 st : Store W) (l : nat) (c : Cell) :
  extends st0 st → length (cells st0) ≤ l →
  extends st0 (mkStore (<[l := c]> (cells st)) (outside st)).
Proof.
  intros [extra Hext] Hl. simpl. rewrite Hext.
  exists (<[l - length (cells st0) := c]> extra).
  by rewrite insert_app_r_alt.
Qed.

Lemma frame_bind {A B} (st0 st : Store W) (m : Eff (Store W) A)
    (k : A → Eff (Store W) B) :
  frame st0 (m st) →
  (∀ a st1, m st = Ok a st1 → extends st0 st1 → frame st0 (k a st1)) →
  frame st0 (bind m k st).
Proof.
  intros Hm Hk. unfold bind.
  destruct (m st) as [a st1|e st1| |] eqn:E; simpl in *; auto.
Qed.

Lemma frame_lift {A} (st0 st : Store W) (m : Eff W A) :
  extends st0 st → frame st0 (lift m st).
Proof.
  intros Hext. unfold lift. destruct (m (outside st)); simpl; auto.
Qed.

Lemma frame_assign (st0 st : Store W) (result : nat) (key : string) (v : Val)
    (as_prototype : Prototype) (ordinary : bool) :
  extends st0 st → length (cells st0) ≤ result →
  frame st0 (assign result key v as_prototype ordinary st).
Proof.
  intros Hext Hl. unfold assign.
  destruct (cells st !! result) as [[items|fields]|]; simpl; auto.
  by apply extends_write.
Qed.

Lemma frame_store_item (st0 st : Store W) (result : nat) (v : Val) :
  extends st0 st → length (cells st0) ≤ result →
  frame st0 (store_item result v st).
Proof.
  intros Hext Hl. unfold store_item.
  destruct (cells st !! result) as [[items|fields]|]; simpl; auto.
  by apply extends_write.
Qed.

Section Loops.
Variable deeper : Val → Eff (Store W) (Val * bool).
Hypothesis frame_deeper : ∀ v st, frame st (deeper v st).

Lemma deeper_frame_from (st0 st : Store W) (v : Val) :
  extends st0 st → frame st0 (deeper v st).
Proof.
  intros Hext. pose proof (frame_deeper v st) as H.
  destruct (deeper v st); simpl in *; eauto using extends_trans.
Qed.

Lemma frame_processEntries (st0 : Store W) (result : nat)
    (entries : list (string * Val)) :
  length (cells st0) ≤ result →
  ∀ ordinary st, extends st0 st →
    frame st0 (processEntries expand deeper result entries ordinary st).
Proof.
  intros Hl. induction entries as [|[key value] rest IH]; intros ordinary st Hext.
  - exact Hext.
  - cbn [processEntries].
    apply frame_bind; [by apply frame_lift|]. intros k' st1 _ Hext1.
    apply frame_bind; [by apply deeper_frame_from|]. intros v' st2 _ Hext2.
    apply frame_bind; [by apply frame_assign|]. intros ordinary' st3 _ Hext3.
    by apply IH.
Qed.

Lemma frame_mapItems (st0 : Store W) (arr result : nat) (n : nat) :
  length (cells st0) ≤ result →
  ∀ k st, extends st0 st →
    frame st0 (mapItems deeper arr result k n st).
Proof.
  intros Hl. induction n as [|n IH]; intros k st Hext.
  - exact Hext.
  - cbn [mapItems]. apply frame_bind.
    { unfold load. destruct (cells st !! arr); simpl; auto. }
    intros cell st1 _ Hext1. destruct cell as [items|fields]; [|exact I].
    destruct (items !! k) as [item|]; [|exact I].
    apply frame_bind; [by apply deeper_frame_from|]. intros v' st2 _ Hext2.
    apply frame_bind; [by apply frame_store_item|]. intros [] st3 _ Hext3.
    by apply IH.
Qed.

End Loops.

Lemma frame_alloc_then {A} (st : Store W) (c : Cell)
    (k : nat → Eff (Store W) A) :
  (∀ st1, extends st st1 → length (cells st) < length (cells st1) →
     frame st (k (length (cells st)) st1)) →
  frame st (bind (alloc c) k st).
Proof.
  intros Hk. unfold bind, alloc. apply Hk.
  - by exists [c].
  - simpl. rewrite length_app. simpl. lia.
Qed.

(** Whatever happens, [process] leaves every cell that existed in place and
    unchanged. *)
Lemma processMarked_frame (fuel : nat) :
  ∀ data st, frame st (processMarked expand fuel data st).
Proof.
  induction fuel as [|fuel IH]; intros data st; [exact I|].
  destruct data as [| |b|q|s|l]; cbn [processMarked]; try apply extends_refl.
  - apply frame_bind; [apply frame_lift, extends_refl|].
    intros s' st1 _ Hext. exact Hext.
  - apply frame_bind.
    { unfold load. destruct (cells st !! l); simpl; auto using extends_refl. }
    intros cell st1 Hload Hext.
    assert (st1 = st) as ->.
    { unfold load in Hload. destruct (cells st !! l); by inversion Hload. }
    destruct cell as [items|fields].
    + unfold processArray. apply frame_alloc_then. intros st1 Hext1 Hlen.
      apply frame_bind; [by apply frame_mapItems|].
      intros [] st2 _ Hext2. exact Hext2.
    + unfold processObject. apply frame_alloc_then. intros st1 Hext1 Hlen.
      apply frame_bind; [by apply frame_processEntries|].
      intros ordinary st2 _ Hext2. exact Hext2.
Qed.

Lemma process_frame (fuel : nat) (data : Val) (st : Store W) :
  frame st (process expand fuel data st).
Proof.
  unfold process. apply frame_bind; [apply processMarked_frame|].
  intros processed st1 _ Hext. exact Hext.
Qed.

Lemma process_run (fuel : nat) (data v : Val) (st st' : Store W) :
  process expand fuel data st = Ok v st' →
  ∃ mark, processMarked expand fuel data st = Ok (v, mark) st'.
Proof.
  unfold process, bind.
  destruct (processMarked expand fuel data st) as [[v' mark] st1| | |];
    try discriminate.
  intros [= <- <-]. by exists mark.
Qed.

(** The copy that [process] returns for an array or an object is a new
    cell. *)
Lemma processMarked_result_is_new (fuel : nat) (l : nat) (st st' : Store W)
    (processed : Val * bool) :
  processMarked expand fuel (VRef l) st = Ok processed st' →
  fst processed = VRef (length (cells st)).
Proof.
  destruct fuel as [|fuel]; [discriminate|]. cbn [processMarked].
  unfold bind at 1, load. destruct (cells st !! l) as [[items|fields]|];
    [| |discriminate].
  - unfold processArray, bind, alloc.
    destruct (mapItems _ _ _ _ _ _) as [[] st1| | |]; try discriminate.
    by intros [= <- <-].
  - unfold processObject, bind, alloc.
    destruct (processEntries _ _ _ _ _ _) as [ordinary st1| | |];
      try discriminate.
    by intros [= <- <-].
Qed.

Lemma process_result_is_new (fuel : nat) (l : nat) (st st' : Store W) (v : Val) :
  process expand fuel (VRef l) st = Ok v st' →
  v = VRef (length (cells st)).
Proof.
  intros Hrun. apply process_run in Hrun as [mark Hrun].
  by apply processMarked_result_is_new in Hrun.
Qed.

End WithCatalog.

(** Reading a tree back through a store that has only grown gives the same
    tree. *)
Lemma reify_prefix (heap extra : list Cell) (depth : nat) :
  ∀ v tree, reify depth heap v = Some tree →
    reify depth (heap ++ extra) v = Some tree.
Proof.
  induction depth as [|depth IH]; intros v tree; destruct v; simpl; try done.
  destruct (heap !! l) as [cell|] eqn:Hl; [|done].
  rewrite (lookup_app_l_Some _ _ _ _ Hl).
  destruct cell as [items|fields].
  - destruct (mapM (reify depth heap) items) as [trees|] eqn:Hmap; [|done].
    intros [= <-]. apply mapM_Some in Hmap.
    assert (mapM (reify depth (heap ++ extra)) items = Some trees) as ->; [|done].
    apply mapM_Some. eapply Forall2_impl; [exact Hmap|]. auto.
  - destruct (mapM _ fields) as [trees|] eqn:Hmap; [|done].
    intros [= <-]. apply mapM_Some in Hmap.
    assert (mapM (fun kv => pair kv.1 <$> reify depth (heap ++ extra) kv.2) fields
            = Some trees) as ->; [|done].
    apply mapM_Some. eapply Forall2_impl; [exact Hmap|].
    intros [k x] [k' t]; simpl.
    destruct (reify depth heap x) as [tx|] eqn:Hx; [|done]. simpl.
    intros [= <- <-]. by rewrite (IH _ _ Hx).
Qed.

Lemma reify_extends {W : Type} (st st' : Store W) (depth : nat) (v : Val)
    (tree : JS) :
  extends st st' → reify depth (cells st) v = Some tree →
  reify depth (cells st') v = Some tree.
Proof. intros [extra ->]. apply reify_prefix. Qed.

Lemma Forall2_left {A B} (R : A → B → Prop) (P : A → Prop)
    (l : list A) (k : list B) :
  Forall2 R l k → (∀ x y, R x y → P x) → Forall P l.
Proof. induction 1; intros HRP; constructor; eauto. Qed.

(** ** Well-formed arguments are processed to the end *)
Section Returns.
Context {W : Type}.
Variable expand : string → list string → Eff W string.
Hypothesis expand_returns :
  ∀ name params w, ∃ s w', expand name params w = Ok s w'.

Lemma lift_processString_returns (str : string) (st : Store W) :
  ∃ s st', lift (processString expand str) st = Ok s st'
           ∧ cells st' = cells st.
Proof.
  unfold lift, processString.
  destruct (TemplateFacts.replaceFrom_returns expand expand_returns str 0
              (outside st)) as (s & w' & ->).
  by eexists _, _.
Qed.

Section Loops.
Variable deeper : Val → Eff (Store W) (Val * bool).
Variable good : Val → Prop.
Variable st0 : Store W.
Hypothesis frame_deeper : ∀ v st, frame st (deeper v st).
Hypothesis returns_deeper :
  ∀ v st, good v → extends st0 st → ∃ v' st', deeper v st = Ok v' st'.

Lemma deeper_good_extends (v : Val) (st : Store W) :
  good v → extends st0 st →
  ∃ v' st', deeper v st = Ok v' st' ∧ extends st st'.
Proof.
  intros Hv Hext. destruct (returns_deeper v st Hv Hext) as (v' & st' & Hrun).
  pose proof (frame_deeper v st) as Hframe. rewrite Hrun in Hframe. eauto.
Qed.

Lemma processEntries_returns (result : nat) (entries : list (string * Val)) :
  length (cells st0) ≤ result →
  Forall (fun kv => good (snd kv)) entries →
  ∀ st fields ordinary,
    extends st0 st → cells st !! result = Some (CObj fields) →
    ∃ ordinary' st',
      processEntries expand deeper result entries ordinary st = Ok ordinary' st'.
Proof.
  intros Hl Hgood. induction Hgood as [|[key value] rest Hvalue _ IH];
    intros st fields ordinary Hext Hresult.
  - by eexists _, _.
  - cbn [processEntries]. unfold bind.
    destruct (lift_processString_returns key st) as (k' & st1 & -> & Hcells).
    assert (extends st0 st1) as Hext1.
    { destruct Hext as [extra Hx]. exists extra. congruence. }
    destruct (deeper_good_extends value st1 Hvalue Hext1)
      as (v' & st2 & -> & Hext2).
    assert (cells st2 !! result = Some (CObj fields)) as Hresult2.
    { eapply extends_lookup; [exact Hext2|]. by rewrite Hcells. }
    unfold assign. rewrite Hresult2.
    eapply IH.
    + apply extends_write; [|done]. by eapply extends_trans.
    + cbn [cells]. apply list_lookup_insert_eq. by eapply lookup_lt_Some.
Qed.

Lemma mapItems_returns (arr result : nat) (items : list Val) :
  length (cells st0) ≤ result →
  cells st0 !! arr = Some (CArr items) →
  Forall good items →
  ∀ n k st done, k + n = length items →
    extends st0 st → cells st !! result = Some (CArr done) →
    ∃ st', mapItems deeper arr result k n st = Ok tt st'.
Proof.
  intros Hl Harr Hgood. induction n as [|n IH]; intros k st done Hk Hext Hresult.
  - by eexists.
  - cbn [mapItems]. unfold bind at 1, load.
    rewrite (extends_lookup _ _ _ _ Hext Harr).
    destruct (items !! k) as [item|] eqn:Hitem;
      [|apply lookup_ge_None in Hitem; lia].
    assert (good item) as Hitemgood.
    { eapply Forall_lookup_1; eauto. }
    unfold bind.
    destruct (deeper_good_extends item st Hitemgood Hext)
      as (v' & st2 & -> & Hext2).
    unfold store_item. rewrite (extends_lookup _ _ _ _ Hext2 Hresult).
    eapply IH; [lia| |].
    + apply extends_write; [|done]. by eapply extends_trans.
    + simpl. apply list_lookup_insert_eq.
      eapply lookup_lt_Some, extends_lookup; eauto.
Qed.

End Loops.

Lemma store_processMarked_returns (depth : nat) :
  ∀ data (st0 st : Store W) tree,
    reify depth (cells st0) data = Some tree → extends st0 st →
    ∃ processed st', processMarked expand (S depth) data st = Ok processed st'.
Proof.
  induction depth as [|depth IH]; intros data st0 st tree Hreify Hext.
  - destruct data; try discriminate; cbn [processMarked]; try by eexists _, _.
    unfold bind.
    destruct (lift_processString_returns s st) as (s' & st1 & -> & _).
    by eexists _, _.
  - destruct data as [| |b|q|s|l]; try (cbn [processMarked]; by eexists _, _).
    + cbn [processMarked]. unfold bind.
      destruct (lift_processString_returns s st) as (s' & st1 & -> & _).
      by eexists _, _.
    + cbn [reify] in Hreify.
      destruct (cells st0 !! l) as [cell|] eqn:Hl; [|discriminate].
      change (processMarked expand (S (S depth)) (VRef l) st)
        with (bind (load l)
                (fun cell =>
                   match cell with
                   | CObj obj =>
                       processObject expand (processMarked expand (S depth)) obj
                   | CArr items =>
                       processArray (processMarked expand (S depth)) l
                         (length items)
                   end) st).
      unfold bind at 1, load. rewrite (extends_lookup _ _ _ _ Hext Hl).
      set (good := fun v => ∃ t, reify depth (cells st0) v = Some t).
      assert (∀ v st1, good v → extends st0 st1 →
                ∃ v' st', processMarked expand (S depth) v st1 = Ok v' st')
        as Hgood.
      { intros v st1 [t Ht] Hext1. by eapply IH. }
      assert (extends st0 (mkStore (cells st ++ [match cell with
                                                 | CArr _ => CArr []
                                                 | CObj _ => CObj []
                                                 end]) (outside st))) as Hext1.
      { eapply extends_trans; [exact Hext|]. by eexists. }
      assert (length (cells st0) ≤ length (cells st)) as Hlen
        by by apply extends_length.
      destruct cell as [items|fields].
      * destruct (mapM (reify depth (cells st0)) items) as [trees|] eqn:Hmap;
          [|discriminate].
        apply mapM_Some in Hmap.
        unfold processArray, bind at 1, alloc. unfold bind.
        destruct (mapItems_returns (processMarked expand (S depth)) good st0
                    (processMarked_frame expand (S depth)) Hgood
                    l (length (cells st)) items Hlen Hl) with
          (n := length items) (k := 0)
          (st := mkStore (cells st ++ [CArr []]) (outside st)) (done := @nil Val)
          as (st' & ->); try done.
        -- eapply Forall2_left; [exact Hmap|]. intros x t Ht. by exists t.
        -- simpl. by rewrite lookup_app_r, Nat.sub_diag.
        -- by eexists _, _.
      * destruct (mapM _ fields) as [trees|] eqn:Hmap; [|discriminate].
        apply mapM_Some in Hmap.
        unfold processObject, bind at 1, alloc. unfold bind.
        destruct (processEntries_returns (processMarked expand (S depth)) good st0
                    (processMarked_frame expand (S depth)) Hgood
                    (length (cells st)) fields Hlen) with
          (st := mkStore (cells st ++ [CObj []]) (outside st))
          (fields := @nil (string * Val)) (ordinary := false)
          as (ordinary' & st' & ->); try done.
        -- eapply Forall2_left; [exact Hmap|]. intros [k x] [k' t] Ht.
           cbn [fst snd] in Ht |- *.
           destruct (reify depth (cells st0) x) as [tx|] eqn:Hx;
             [by exists tx|discriminate].
        -- simpl. by rewrite lookup_app_r, Nat.sub_diag.
        -- by eexists _, _.
Qed.

Lemma store_process_returns (depth : nat) (data : Val) (st0 st : Store W)
    (tree : JS) :
  reify depth (cells st0) data = Some tree → extends st0 st →
  ∃ v st', process expand (S depth) data st = Ok v st'.
Proof.
  intros Hreify Hext. unfold process, bind.
  destruct (store_processMarked_returns depth data st0 st tree Hreify Hext)
    as (processed & st' & ->).
  by eexists _, _.
Qed.

End Returns.

(** ** The store engine computes what the value engine computes *)

Lemma reify_field_key (depth : nat) (heap : list Cell) (kv : string * Val)
    (tkv : string * JS) :
  reify_field depth heap kv = Some tkv →
  fst tkv = fst kv ∧ reify depth heap (snd kv) = Some (snd tkv).
Proof.
  unfold reify_field. destruct (reify depth heap kv.2) as [t|]; [|done].
  simpl. by intros [= <-].
Qed.

Lemma Forall2_set_field (R : string * Val → string * JS → Prop)
    (fields : list (string * Val)) (trees : list (string * JS))
    (k : string) (v : Val) (t : JS) :
  (∀ kv tkv, R kv tkv → fst tkv = fst kv) →
  Forall2 R fields trees → R (k, v) (k, t) →
  Forall2 R (set_field k v fields) (set_field k t trees).
Proof.
  intros Hkey Hall Hnew.
  induction Hall as [|[k1 v1] [k2 t2] fs ts H1 Htail IH]; simpl.
  - by constructor.
  - pose proof (Hkey _ _ H1) as Hk. simpl in Hk. subst k2.
    destruct (String.eqb k k1); constructor; auto.
Qed.

(** A value and the tree it reads back as are the same thing for the
    setter of [__proto__]. *)
Lemma prototype_of_reify (depth : nat) (heap : list Cell) (v : Val) (tree : JS)
    (mark : bool) :
  reify depth heap v = Some tree →
  TemplateHeap.prototype_of (v, mark) = TemplateEngine.prototype_of (tree, mark).
Proof.
  unfold TemplateHeap.prototype_of, TemplateEngine.prototype_of. cbn [fst snd].
  destruct depth as [|depth], v as [| |b|q|s|l]; simpl;
    try (by intros [= <-]); try discriminate.
  destruct (heap !! l) as [[items|fields]|]; [| |discriminate].
  - destruct (mapM _ items); simpl; [|discriminate]. by intros [= <-].
  - destruct (mapM _ fields); simpl; [|discriminate]. by intros [= <-].
Qed.

(** One assignment keeps the object under construction and its tree in
    step. *)
Lemma assign_built_related (R : string * Val → string * JS → Prop)
    (fields : list (string * Val)) (tresult : Built JS)
    (k : string) (v : Val) (t : JS) (as_prototype : Prototype) :
  (∀ kv tkv, R kv tkv → fst tkv = fst kv) →
  Forall2 R fields (own tresult) → R (k, v) (k, t) →
  Forall2 R
    (own (assign_built k v as_prototype (mkBuilt fields (ordinary tresult))))
    (own (assign_built k t as_prototype tresult))
  ∧ ordinary (assign_built k v as_prototype (mkBuilt fields (ordinary tresult)))
    = ordinary (assign_built k t as_prototype tresult).
Proof.
  intros Hkey Hall Hnew. unfold assign_built. cbn [own ordinary].
  destruct (negb (String.eqb k "__proto__") || ordinary tresult).
  - cbn [own ordinary]. split; [|done]. by apply Forall2_set_field.
  - destruct as_prototype; cbn [own ordinary]; done.
Qed.

Lemma assign_built_ordinary {A B : Type} (fields : list (string * A))
    (tresult : Built B) (k : string) (v : A) (t : B) (as_prototype : Prototype) :
  ordinary (assign_built k v as_prototype (mkBuilt fields (ordinary tresult)))
  = ordinary (assign_built k t as_prototype tresult).
Proof.
  unfold assign_built. cbn [own ordinary].
  destruct (negb (String.eqb k "__proto__") || ordinary tresult); [done|].
  by destruct as_prototype.
Qed.

Section Simulation.
Context {W : Type}.
Variable expand : string → list string → Eff W string.

Lemma lift_processString_run (str s : string) (st st' : Store W) :
  lift (processString expand str) st = Ok s st' →
  processString expand str (outside st) = Ok s (outside st')
  ∧ cells st' = cells st.
Proof.
  unfold lift. destruct (processString expand str (outside st)); try discriminate.
  by intros [= <- <-].
Qed.

Section Loops.
Variable depth : nat.
Variable st0 : Store W.

(** The induction hypothesis on the values one reference deeper. *)
Hypothesis simulates_deeper :
  ∀ data st tree processed st',
    reify depth (cells st0) data = Some tree → extends st0 st →
    processMarked expand (S depth) data st = Ok processed st' →
    ∃ tree' extra,
      TemplateEngine.processMarked expand tree (outside st)
      = Ok (tree', snd processed) (outside st')
      ∧ cells st' = cells st ++ extra
      ∧ copy_of (length (cells st)) depth extra (fst processed) tree'.

Variable init : list Cell.
Hypothesis init_extends : ∃ e0, init = cells st0 ++ e0.

Lemma from_init (st : Store W) (rest : list Cell) :
  cells st = init ++ rest → extends st0 st.
Proof.
  destruct init_extends as [e0 He0]. intros H. exists (e0 ++ rest).
  by rewrite H, He0, app_assoc.
Qed.

(** What the loops keep true: the store is [init], then the cell under
    construction, then the cells [ex] made by the calls so far; and the
    content of the cell under construction reads back, through [ex] alone,
    as the accumulator of the value engine. *)
Lemma processEntries_simulates (entries : list (string * Val))
    (tentries : list (string * JS)) :
  Forall2 (fun kv tkv => reify_field depth (cells st0) kv = Some tkv)
    entries tentries →
  ∀ st st' rf ex tresult ordinary',
    cells st = init ++ [CObj rf] ++ ex →
    (∀ prefix suffix, length prefix = S (length init) →
       Forall2 (fun kv tkv =>
                  reify_field depth (prefix ++ ex ++ suffix) kv = Some tkv)
         rf (own tresult)) →
    processEntries expand (processMarked expand (S depth)) (length init) entries
      (ordinary tresult) st
    = Ok ordinary' st' →
    ∃ rf' ex' tresult',
      cells st' = init ++ [CObj rf'] ++ ex'
      ∧ (∀ prefix suffix, length prefix = S (length init) →
           Forall2 (fun kv tkv =>
                      reify_field depth (prefix ++ ex' ++ suffix) kv = Some tkv)
             rf' (own tresult'))
      ∧ ordinary tresult' = ordinary'
      ∧ TemplateEngine.processEntries expand (TemplateEngine.processMarked expand)
          tentries tresult (outside st)
        = Ok tresult' (outside st').
Proof.
  induction 1 as [|[key value] [tkey tvalue] rest trest Hentry _ IH];
    intros st st' rf ex tresult ordinary' Hcells Hinv.
  - intros [= <- <-]. by exists rf, ex, tresult.
  - apply reify_field_key in Hentry as [Hkey Hvalue]. simpl in Hkey, Hvalue.
    subst tkey. intros Hrun. cbn [processEntries] in Hrun.
    unfold bind at 1 in Hrun.
    destruct (lift (processString expand key) st) as [k' st1| | |] eqn:Hk;
      try discriminate.
    apply lift_processString_run in Hk as [Hk Hcells1].
    unfold bind at 1 in Hrun.
    destruct (processMarked expand (S depth) value st1) as [[v' mark] st2| | |]
      eqn:Hv; try discriminate.
    destruct (simulates_deeper value st1 tvalue (v', mark) st2 Hvalue)
      as (tv' & exv & Hpure & Hcells2 & Hcopy); [|exact Hv|].
    { eapply from_init. rewrite Hcells1. exact Hcells. }
    cbn [fst snd] in Hpure, Hcopy, Hrun.
    assert (reify depth (cells st2) v' = Some tv') as Hreads.
    { rewrite Hcells2, <- (app_nil_r exv). by apply Hcopy. }
    rewrite (prototype_of_reify _ _ _ _ _ Hreads) in Hrun.
    rewrite Hcells1, Hcells in Hcells2.
    unfold bind at 1, assign in Hrun.
    assert (cells st2 !! length init = Some (CObj rf)) as Hresult.
    { rewrite Hcells2, <- !app_assoc. by rewrite lookup_app_r, Nat.sub_diag. }
    rewrite Hresult in Hrun. cbv zeta in Hrun.
    set (as_prototype := TemplateEngine.prototype_of (tv', mark)) in *.
    assert (∀ prefix suffix, length prefix = S (length init) →
              Forall2 (fun kv tkv =>
                         reify_field depth (prefix ++ (ex ++ exv) ++ suffix) kv
                         = Some tkv)
                (own (assign_built k' v' as_prototype
                        (mkBuilt rf (ordinary tresult))))
                (own (assign_built k' tv' as_prototype tresult))) as Hinv2.
    { intros prefix suffix Hprefix. apply assign_built_related.
      - intros kv tkv Hr. by apply reify_field_key in Hr as [? _].
      - rewrite <- app_assoc. by apply Hinv.
      - unfold reify_field; simpl.
        replace (prefix ++ (ex ++ exv) ++ suffix)
          with ((prefix ++ ex) ++ exv ++ suffix) by (by rewrite <- !app_assoc).
        rewrite Hcopy; [done|].
        rewrite length_app, Hprefix, Hcells1, Hcells, !length_app. simpl. lia. }
    assert (ordinary (assign_built k' v' as_prototype
                        (mkBuilt rf (ordinary tresult)))
            = ordinary (assign_built k' tv' as_prototype tresult)) as Hord.
    { apply assign_built_ordinary. }
    rewrite Hord in Hrun.
    eapply (IH _ st' _ (ex ++ exv) (assign_built k' tv' as_prototype tresult))
      in Hrun as (rf' & ex' & tresult' & Hcells' & Hinv' & Hord' & Hrest).
    + exists rf', ex', tresult'. split; [exact Hcells'|]. split; [exact Hinv'|].
      split; [exact Hord'|].
      cbn [TemplateEngine.processEntries]. unfold bind.
      rewrite Hk, Hpure. exact Hrest.
    + cbn [cells]. rewrite Hcells2, <- !app_assoc.
      rewrite insert_app_r_alt, Nat.sub_diag by lia. reflexivity.
    + exact Hinv2.
Qed.

Lemma mapItems_simulates (arr : nat) (items : list Val) :
  cells st0 !! arr = Some (CArr items) →
  ∀ n k titems st st' done ex tdone,
    Forall2 (fun v t => reify depth (cells st0) v = Some t)
      (drop k items) titems →
    length (drop k items) = n →
    cells st = init ++ [CArr done] ++ ex →
    (∀ prefix suffix, length prefix = S (length init) →
       Forall2 (fun v t => reify depth (prefix ++ ex ++ suffix) v = Some t)
         done tdone) →
    mapItems (processMarked expand (S depth)) arr (length init) k n st
    = Ok tt st' →
    ∃ done' ex' tnew,
      cells st' = init ++ [CArr done'] ++ ex'
      ∧ (∀ prefix suffix, length prefix = S (length init) →
           Forall2 (fun v t => reify depth (prefix ++ ex' ++ suffix) v = Some t)
             done' (tdone ++ tnew))
      ∧ map_m (TemplateEngine.process expand) titems (outside st)
        = Ok tnew (outside st').
Proof.
  intros Harr. induction n as [|n IH];
    intros k titems st st' done ex tdone Hitems Hlen Hcells Hinv.
  - intros [= <-]. apply nil_length_inv in Hlen. rewrite Hlen in Hitems.
    inversion Hitems; subst. exists done, ex, []. rewrite app_nil_r. auto.
  - cbn [mapItems]. unfold bind at 1, load.
    rewrite (extends_lookup st0 st arr _ (from_init _ _ Hcells) Harr).
    destruct (items !! k) as [item|] eqn:Hitem; [|discriminate].
    rewrite (drop_S _ _ _ Hitem) in Hitems, Hlen.
    inversion Hitems as [|? titem ? trest Hitemtree Hrest]; subst.
    simpl in Hlen. injection Hlen as Hlen.
    intros Hrun. unfold bind at 1 in Hrun.
    destruct (processMarked expand (S depth) item st) as [[v' mark] st2| | |]
      eqn:Hv; try discriminate.
    destruct (simulates_deeper item st titem (v', mark) st2 Hitemtree)
      as (tv' & exv & Hpure & Hcells2 & Hcopy); [|exact Hv|].
    { by eapply from_init. }
    cbn [fst snd] in Hpure, Hcopy, Hrun.
    rewrite Hcells in Hcells2.
    unfold bind at 1, store_item in Hrun.
    assert (cells st2 !! length init = Some (CArr done)) as Hresult.
    { rewrite Hcells2, <- !app_assoc. by rewrite lookup_app_r, Nat.sub_diag. }
    rewrite Hresult in Hrun.
    eapply (IH (S k) trest _ st' (done ++ [v']) (ex ++ exv) (tdone ++ [tv'])
              Hrest Hlen) in Hrun
      as (done' & ex' & tnew & Hcells' & Hinv' & Hmap).
    + exists done', ex', (tv' :: tnew). split; [exact Hcells'|]. split.
      * intros prefix suffix Hprefix.
        replace (tdone ++ tv' :: tnew) with ((tdone ++ [tv']) ++ tnew)
          by (by rewrite <- app_assoc).
        by apply Hinv'.
      * cbn [cells outside] in Hmap. cbn [map_m]. unfold bind at 1.
        unfold TemplateEngine.process at 1. unfold bind at 1.
        rewrite Hpure. cbn [fst]. unfold ret at 1. unfold bind at 1.
        by rewrite Hmap.
    + cbn [cells]. rewrite Hcells2, <- !app_assoc.
      rewrite insert_app_r_alt, Nat.sub_diag by lia. reflexivity.
    + intros prefix suffix Hprefix. apply Forall2_app.
      * rewrite <- app_assoc. by apply Hinv.
      * constructor; [|constructor].
        replace (prefix ++ (ex ++ exv) ++ suffix)
          with ((prefix ++ ex) ++ exv ++ suffix) by (by rewrite <- !app_assoc).
        rewrite Hcopy; [done|].
        rewrite length_app, Hprefix, Hcells, !length_app. simpl. lia.
Qed.

End Loops.

Lemma reify_scalar (depth depth' : nat) (heap heap' : list Cell) (v : Val)
    (tree : JS) :
  (∀ l, v ≠ VRef l) → reify depth heap v = Some tree →
  reify depth' heap' v = Some tree.
Proof. intros Hv. destruct v, depth, depth'; try done; by destruct (Hv l). Qed.

Lemma processMarked_simulates (depth : nat) :
  ∀ (st0 : Store W) data st tree processed st',
    reify depth (cells st0) data = Some tree → extends st0 st →
    processMarked expand (S depth) data st = Ok processed st' →
    ∃ tree' extra,
      TemplateEngine.processMarked expand tree (outside st)
      = Ok (tree', snd processed) (outside st')
      ∧ cells st' = cells st ++ extra
      ∧ copy_of (length (cells st)) depth extra (fst processed) tree'.
Proof.
  induction depth as [|depth IH];
    intros st0 data st tree processed st' Hreify Hext Hrun.
  - destruct data as [| |b|q|s|l]; try discriminate;
      cbn [processMarked] in Hrun;
      try (injection Hrun as <- <-; injection Hreify as <-;
           eexists _, []; rewrite app_nil_r; repeat split; reflexivity).
    unfold bind in Hrun.
    destruct (lift (processString expand s) st) as [s' st1| | |] eqn:Hs;
      try discriminate.
    injection Hrun as <- <-. injection Hreify as <-.
    apply lift_processString_run in Hs as [Hs Hcells].
    exists (JStr s'), []. rewrite app_nil_r.
    cbn [TemplateEngine.processMarked]. unfold bind. rewrite Hs.
    by repeat split.
  - destruct data as [| |b|q|s|l]; cbn [processMarked] in Hrun;
      try (injection Hrun as <- <-; injection Hreify as <-;
           eexists _, []; rewrite app_nil_r; repeat split; reflexivity).
    + unfold bind in Hrun.
      destruct (lift (processString expand s) st) as [s' st1| | |] eqn:Hs;
        try discriminate.
      injection Hrun as <- <-. injection Hreify as <-.
      apply lift_processString_run in Hs as [Hs Hcells].
      exists (JStr s'), []. rewrite app_nil_r.
      cbn [TemplateEngine.processMarked]. unfold bind. rewrite Hs.
      by repeat split.
    + cbn [reify] in Hreify.
      destruct (cells st0 !! l) as [cell|] eqn:Hl; [|discriminate].
      unfold bind at 1, load in Hrun.
      rewrite (extends_lookup _ _ _ _ Hext Hl) in Hrun.
      assert (∃ e0, cells st = cells st0 ++ e0) as Hinit by exact Hext.
      destruct cell as [items|fields].
      * destruct (mapM (reify depth (cells st0)) items) as [titems|] eqn:Hmap;
          [|discriminate].
        injection Hreify as <-. apply mapM_Some in Hmap.
        unfold processArray, bind at 1, alloc in Hrun. unfold bind in Hrun.
        destruct (mapItems _ _ _ _ _ _) as [[] st2| | |] eqn:Hloop;
          try discriminate.
        injection Hrun as <- <-.
        eapply (mapItems_simulates depth st0 (IH st0) (cells st) Hinit l items Hl
                  (length items) 0 titems _ st2 [] [] []) in Hloop
          as (done' & ex' & tnew & Hcells' & Hinv' & Hpure).
        -- exists (JArr tnew), ([CArr done'] ++ ex').
           split; [|split; [exact Hcells'|]].
           ++ cbn [TemplateEngine.processMarked].
              unfold TemplateEngine.processArray.
              cbn [cells outside] in Hpure. unfold bind at 1.
              change (map_m (TemplateEngine.process expand) titems (outside st))
                with (map_m (fun item =>
                               let* processed :=
                                 TemplateEngine.processMarked expand item in
                               ret (fst processed)) titems (outside st))
                in Hpure.
              by rewrite Hpure.
           ++ intros prefix suffix Hprefix. cbn [reify fst].
              rewrite <- app_assoc. rewrite lookup_app_r by lia.
              rewrite Hprefix, Nat.sub_diag. simpl.
              assert (mapM (reify depth (prefix ++ CArr done' :: ex' ++ suffix))
                        done' = Some tnew) as ->; [|done].
              apply mapM_Some.
              replace (prefix ++ CArr done' :: ex' ++ suffix)
                with ((prefix ++ [CArr done']) ++ ex' ++ suffix)
                by (by rewrite <- app_assoc).
              apply (Hinv' (prefix ++ [CArr done']) suffix).
              rewrite length_app. simpl. lia.
        -- exact Hmap.
        -- reflexivity.
        -- simpl. reflexivity.
        -- intros prefix suffix _. constructor.
      * destruct (mapM _ fields) as [tfields|] eqn:Hmap; [|discriminate].
        injection Hreify as <-. apply mapM_Some in Hmap.
        unfold processObject, bind at 1, alloc in Hrun. unfold bind in Hrun.
        destruct (processEntries _ _ _ _ _ _) as [ordinary' st2| | |] eqn:Hloop;
          try discriminate.
        injection Hrun as <- <-.
        eapply (processEntries_simulates depth st0 (IH st0) (cells st) Hinit
                  fields tfields Hmap _ st2 [] [] (mkBuilt [] false)) in Hloop
          as (rf' & ex' & tresult' & Hcells' & Hinv' & Hord' & Hpure).
        -- exists (JObj (own tresult')), ([CObj rf'] ++ ex').
           split; [|split; [exact Hcells'|]].
           ++ cbn [TemplateEngine.processMarked].
              unfold TemplateEngine.processObject.
              cbn [cells outside] in Hpure. unfold bind. rewrite Hpure.
              cbn [snd]. by rewrite Hord'.
           ++ intros prefix suffix Hprefix. cbn [reify fst].
              rewrite <- app_assoc. rewrite lookup_app_r by lia.
              rewrite Hprefix, Nat.sub_diag. simpl.
              assert (mapM (fun kv => pair kv.1 <$>
                              reify depth (prefix ++ CObj rf' :: ex' ++ suffix) kv.2)
                        rf' = Some (own tresult')) as ->; [|done].
              apply mapM_Some.
              replace (prefix ++ CObj rf' :: ex' ++ suffix)
                with ((prefix ++ [CObj rf']) ++ ex' ++ suffix)
                by (by rewrite <- app_assoc).
              apply (Hinv' (prefix ++ [CObj rf']) suffix).
              rewrite length_app. simpl. lia.
        -- simpl. reflexivity.
        -- intros prefix suffix _. constructor.
Qed.

Lemma process_simulates (depth : nat) (st0 : Store W) (data : Val)
    (st : Store W) (tree : JS) (v : Val) (st' : Store W) :
  reify depth (cells st0) data = Some tree → extends st0 st →
  process expand (S depth) data st = Ok v st' →
  ∃ tree' extra,
    TemplateEngine.process expand tree (outside st) = Ok tree' (outside st')
    ∧ cells st' = cells st ++ extra
    ∧ copy_of (length (cells st)) depth extra v tree'.
Proof.
  intros Hreify Hext Hrun. apply process_run in Hrun as [mark Hrun].
  destruct (processMarked_simulates depth st0 data st tree (v, mark) st'
              Hreify Hext Hrun) as (tree' & extra & Hpure & Hcells & Hcopy).
  exists tree', extra. split; [|done].
  unfold TemplateEngine.process, bind. by rewrite Hpure.
Qed.

End Simulation.

(** C10. [process] never writes into its argument. After any run, returned
    or raised, every cell of the store before the call is in place and
    unchanged; the array or object returned is a new cell; the argument reads
    back as the same tree; the result is a copy made of new cells alone, and
    it reads back as what the engine computes on the tree of the argument;
    and a well-formed argument is processed to the end whenever the bodies of
    the catalog return. *)
Theorem process_never_writes_its_argument {W : Type}
    (expand : string → list string → Eff W string)
    (fuel : nat) (data : Val) (st : Store W) :
  frame st (process expand fuel data st)
  ∧ (∀ l v st', data = VRef l → process expand fuel data st = Ok v st' →
       v = VRef (length (cells st)))
  ∧ (∀ depth tree,
       reify depth (cells st) data = Some tree →
       match process expand fuel data st with
       | Ok _ st' | Throw _ st' => reify depth (cells st') data = Some tree
       | Unmodelled | OutOfFuel => True
       end)
  ∧ (∀ depth tree v st',
       reify depth (cells st) data = Some tree →
       process expand (S depth) data st = Ok v st' →
       ∃ tree' extra,
         TemplateEngine.process expand tree (outside st) = Ok tree' (outside st')
         ∧ cells st' = cells st ++ extra
         ∧ copy_of (length (cells st)) depth extra v tree')
  ∧ ((∀ name params w, ∃ s w', expand name params w = Ok s w') →
     ∀ depth tree, reify depth (cells st) data = Some tree →
       ∃ v st', process expand (S depth) data st = Ok v st').
Proof.
  split; [|split; [|split; [|split]]].
  - apply process_frame.
  - intros l v st' -> Hrun. by eapply process_result_is_new.
  - intros depth tree Hreify.
    pose proof (process_frame expand fuel data st) as Hframe.
    destruct (process expand fuel data st); simpl in Hframe; try exact I;
      by eapply reify_extends.
  - intros depth tree v st' Hreify Hrun.
    eapply process_simulates; eauto using extends_refl.
  - intros Hexpand depth tree Hreify.
    eapply store_process_returns; eauto using extends_refl.
Qed.

(** A run on the store of [{a: "{{uuid}}", b: [1, "{{ nope }}"]}]: the two
    cells of the argument are as before, the copy is cells 2 and 3. *)
Lemma process_sample_store :
  process labelExpand 3 (VRef 1) (mkStore sampleCells tt)
  = Ok (VRef 2)
      (mkStore (sampleCells ++
                [CObj [("a", VStr "<uuid>"); ("b", VRef 3)];
                 CArr [VNum 1; VStr "{{nope}}"]]) tt).
Proof. reflexivity. Qed.

End HeapFacts.

(** * Facts about strings and numerals *)
Module TextFacts.
Import Js TemplateEngine TemplateVocabulary JsText CatalogVocabulary.
Import TemplateFacts.

Lemma append_empty_r (s : string) : s +:+ EmptyString = s.
Proof. induction s as [|c s IH]; [done|]. by rewrite append_cons, IH. Qed.

Lemma all_chars_weaken (P Q : ascii → bool) (s : string) :
  (∀ c, P c = true → Q c = true) → all_chars P s = true → all_chars Q s = true.
Proof.
  intros HPQ. induction s as [|c s IH]; [done|]. simpl.
  intros H. apply andb_prop in H as [Hc Hs]. by rewrite (HPQ _ Hc), IH.
Qed.

Lemma all_chars_append (P : ascii → bool) (a b : string) :
  all_chars P (a +:+ b) = all_chars P a && all_chars P b.
Proof.
  induction a as [|c a IH]; [done|]. rewrite append_cons. simpl.
  by rewrite IH, andb_assoc.
Qed.

Lemma split_on_whole (sep : ascii) (s : string) :
  all_chars (is_not sep) s = true → split_on sep s = [s].
Proof.
  induction s as [|c s IH]; [done|]. simpl. intros H.
  apply andb_prop in H as [Hc Hs]. unfold is_not in Hc.
  apply negb_true_iff in Hc. by rewrite Hc, (IH Hs).
Qed.

Lemma split_on_first (sep : ascii) (a b : string) :
  all_chars (is_not sep) a = true →
  split_on sep (a +:+ String sep b) = a :: split_on sep b.
Proof.
  induction a as [|c a IH]; intros H.
  - rewrite append_empty. simpl. by rewrite Ascii.eqb_refl.
  - rewrite append_cons. simpl in *. apply andb_prop in H as [Hc Ha].
    unfold is_not in Hc. apply negb_true_iff in Hc. by rewrite Hc, (IH Ha).
Qed.

Lemma trimEnd_solid (s : string) :
  all_chars (fun c => negb (is_whitespace c)) s = true → trimEnd s = s.
Proof.
  induction s as [|c s IH]; [done|]. simpl. intros H.
  apply andb_prop in H as [Hc Hs]. rewrite (IH Hs).
  apply negb_true_iff in Hc. rewrite Hc. by destruct s.
Qed.

Lemma trimEnd_append (a b : string) :
  b ≠ EmptyString → trimEnd b = b → trimEnd (a +:+ b) = a +:+ b.
Proof.
  intros Hne Hb. induction a as [|c a IH]; [by rewrite append_empty|].
  rewrite append_cons. simpl. rewrite IH.
  destruct (a +:+ b) eqn:E; [|done].
  destruct a; [by rewrite append_empty in E|by rewrite append_cons in E].
Qed.

(** ** Decimal numerals *)

Lemma digit_of_value (d : nat) :
  d < 10 → nat_of_ascii (digit_of d) = 48 + d.
Proof.
  intros H. unfold digit_of. apply nat_ascii_embedding. lia.
Qed.

Lemma digits_value_step (d : nat) (rest : string) (a : nat) :
  d < 10 →
  digits_value (String (digit_of d) rest) a = digits_value rest (10 * a + d).
Proof.
  intros H. cbn [digits_value]. rewrite digit_of_value by done.
  destruct (Nat.leb_spec 48 (48 + d)) as [_|?]; [|lia].
  destruct (Nat.leb_spec (48 + d) 57) as [_|?]; [|lia].
  simpl andb. cbv iota. f_equal. lia.
Qed.

(** Printing [n] in front of [acc] and reading the whole from [a] is reading
    [acc] from [a] shifted by the digits of [n]. *)
Lemma digits_value_nat_digits (fuel : nat) :
  ∀ n acc, n < fuel →
    ∃ k, ∀ a, digits_value (nat_digits fuel n acc) a
              = digits_value acc (a * 10 ^ S k + n).
Proof.
  induction fuel as [|fuel IH]; intros n acc Hlt; [lia|].
  cbn [nat_digits].
  pose proof (Nat.mod_upper_bound n 10 ltac:(lia)) as Hmod.
  pose proof (Nat.div_mod_eq n 10) as Hdiv.
  destruct (Nat.eqb_spec (n / 10) 0) as [Hzero|Hpos].
  - exists 0. intros a. rewrite digits_value_step by done. f_equal.
    change (10 ^ 1) with 10. lia.
  - destruct (IH (n / 10) (String (digit_of (n mod 10)) acc)) as [k Hk].
    { apply Nat.Div0.div_lt_upper_bound; lia. }
    exists (S k). intros a. rewrite Hk, digits_value_step by done. f_equal.
    change (10 ^ S (S k)) with (10 * 10 ^ S k). lia.
Qed.

Lemma digits_value_nat_to_string (n : nat) :
  digits_value (nat_to_string n) 0 = Some n.
Proof.
  unfold nat_to_string.
  destruct (digits_value_nat_digits (S n) n EmptyString ltac:(lia)) as [k Hk].
  by rewrite Hk.
Qed.

Lemma nat_digits_not_empty (fuel : nat) :
  ∀ m acc, acc ≠ EmptyString → nat_digits fuel m acc ≠ EmptyString.
Proof.
  induction fuel as [|fuel IH]; intros m acc Hne; [done|].
  cbn [nat_digits]. destruct (Nat.eqb (m / 10) 0); [done|]. by apply IH.
Qed.

Lemma nat_to_string_not_empty (n : nat) : nat_to_string n ≠ EmptyString.
Proof.
  unfold nat_to_string. cbn [nat_digits].
  destruct (Nat.eqb (n / 10) 0); [done|]. by apply nat_digits_not_empty.
Qed.

(** A text that reads as a numeral is made of digits, and its run of digits
    has the value read. *)
Lemma digits_value_run (s : string) :
  ∀ a v, digits_value s a = Some v →
    all_chars is_digit s = true
    ∧ fold_left (fun acc d => (10 * acc + Z.of_nat d)%Z) (digit_run s) (Z.of_nat a)
      = Z.of_nat v.
Proof.
  induction s as [|c s IH]; intros a v; cbn [digits_value].
  - intros [= <-]. done.
  - unfold is_digit, between. cbn [all_chars digit_run].
    unfold is_digit, between.
    destruct (Nat.leb 48 (nat_of_ascii c) && Nat.leb (nat_of_ascii c) 57)
      eqn:E; [|done].
    intros H. destruct (IH _ _ H) as [Hall Hval]. split; [done|].
    cbn [fold_left]. rewrite <- Hval. f_equal.
    apply andb_prop in E as [E1 E2]. apply Nat.leb_le in E1. lia.
Qed.

Lemma digits_nat_to_string (n : nat) :
  all_chars is_digit (nat_to_string n) = true
  ∧ numeral_value (digit_run (nat_to_string n)) = Z.of_nat n.
Proof.
  apply (digits_value_run _ 0), digits_value_nat_to_string.
Qed.

Lemma digit_is_solid (c : ascii) :
  is_digit c = true →
  is_whitespace c = false ∧ Ascii.eqb c "-" = false ∧ Ascii.eqb c "+" = false
  ∧ Ascii.eqb c ":" = false ∧ Ascii.eqb c "}" = false ∧ Ascii.eqb c "{" = false.
Proof.
  destruct c as [[] [] [] [] [] [] [] []]; vm_compute; intros; done.
Qed.

Lemma parseInt_nat_to_string (n : nat) :
  (Z.of_nat n < overflow)%Z →
  parseInt (nat_to_string n) = Finite (Z.of_nat n).
Proof.
  intros Hsmall. destruct (digits_nat_to_string n) as [Hall Hval].
  pose proof (nat_to_string_not_empty n) as Hne.
  unfold parseInt. destruct (nat_to_string n) as [|c s] eqn:E; [done|].
  simpl in Hall. apply andb_prop in Hall as [Hc Hs].
  destruct (digit_is_solid c Hc) as (Hws & Hminus & Hplus & _).
  cbn [trimStart]. rewrite Hws, Hminus, Hplus.
  destruct (digit_run (String c s)) as [|d ds] eqn:Erun.
  { simpl in Erun. by rewrite Hc in Erun. }
  rewrite Hval. destruct (Z.leb_spec overflow (Z.of_nat n)); [lia|done].
Qed.

(** Printing an integer and parsing the text gives the integer back. *)
Lemma parseInt_integer_to_string (z : Z) :
  (- overflow < z < overflow)%Z →
  parseInt (integer_to_string z) = Finite z.
Proof.
  intros Hsmall. unfold integer_to_string.
  destruct (Z.ltb_spec z 0) as [Hneg|Hpos].
  - pose proof (parseInt_nat_to_string (Z.to_nat (- z)) ltac:(lia)) as Hparse.
    destruct (digits_nat_to_string (Z.to_nat (- z))) as [Hall Hval].
    pose proof (nat_to_string_not_empty (Z.to_nat (- z))) as Hne.
    unfold parseInt in *. rewrite append_cons, append_empty.
    cbn [trimStart]. change (is_whitespace "-") with false. cbv iota.
    change (Ascii.eqb "-" "-") with true. cbv iota.
    destruct (nat_to_string (Z.to_nat (- z))) as [|c s] eqn:E; [done|].
    simpl in Hall. apply andb_prop in Hall as [Hc Hs].
    destruct (digit_is_solid c Hc) as (Hws & Hminus & Hplus & _).
    cbn [trimStart] in Hparse. rewrite Hws, Hminus, Hplus in Hparse.
    destruct (digit_run (String c s)) as [|d ds]; [done|].
    destruct (Z.leb overflow (numeral_value (d :: ds))); [done|].
    injection Hparse as ->. f_equal. lia.
  - rewrite parseInt_nat_to_string by lia. f_equal. lia.
Qed.

Lemma integer_to_string_chars (z : Z) :
  integer_to_string z ≠ EmptyString
  ∧ all_chars (fun c => is_digit c || Ascii.eqb c "-") (integer_to_string z)
    = true.
Proof.
  unfold integer_to_string. destruct (Z.ltb z 0).
  - split; [done|]. rewrite append_cons, append_empty. simpl.
    eapply all_chars_weaken; [|apply digits_nat_to_string].
    by intros c ->.
  - split; [apply nat_to_string_not_empty|].
    eapply all_chars_weaken; [|apply digits_nat_to_string].
    by intros c ->.
Qed.

Lemma numeral_char_is_solid (c : ascii) :
  is_digit c || Ascii.eqb c "-" = true →
  is_whitespace c = false ∧ Ascii.eqb c ":" = false ∧ Ascii.eqb c "}" = false.
Proof.
  destruct c as [[] [] [] [] [] [] [] []]; vm_compute; intros; done.
Qed.

End TextFacts.

(** * Facts about the bodies of the catalog *)
Module CatalogFacts.
Import Js TemplateEngine TemplateVocabulary JsText Catalog CatalogVocabulary.
Import Run RunFacts FakerFacts TemplateFacts TextFacts Vocabulary Keyword Examples.

(** A known name selects its body, run on the parameters. *)
Lemma processTemplate_known {W : Type} (expand : string → list string → Eff W string)
    (template : string) :
  known (templateName template) = true →
  processTemplate expand template
  = expand (templateName template) (params_of template).
Proof.
  unfold known, templateName, params_of, processTemplate.
  destruct (split_on ":" template) as [|name params] eqn:E.
  - by apply split_on_not_nil in E.
  - simpl. by intros ->.
Qed.

Lemma sampleCatalog_carries : carries sampleCatalog.
Proof. intros name run H params w. unfold sampleCatalog. by rewrite H. Qed.

Lemma clamp_bounds (lo hi fallback : Z) (x : Parsed) :
  (lo ≤ fallback ≤ hi)%Z → (lo ≤ clamp lo hi fallback x ≤ hi)%Z.
Proof. intros H. destruct x; simpl; lia. Qed.

Lemma intString_returns (min max : Z) (w : World) :
  (min ≤ max)%Z →
  returns (intString min max) w
    (fun s => ∃ n, s = integer_to_string n ∧ (min ≤ n ≤ max)%Z).
Proof.
  intros Hle. unfold intString.
  eapply returns_bind.
  - apply number_int_returns. rewrite Qceiling_Z, Qfloor_Z. exact Hle.
  - intros n w' _ Hn. cbv beta in Hn. rewrite Qceiling_Z, Qfloor_Z in Hn.
    apply returns_ret. by exists n.
Qed.

(** The shape shared by [int] and [age]: the two bounds are put in order
    before faker is asked. *)
Lemma ordered_range_returns (a b : Z) (w : World) :
  returns (intString (Z.min a b) (Z.max a b)) w
    (fun s => ∃ n, s = integer_to_string n ∧ (Z.min a b ≤ n ≤ Z.max a b)%Z).
Proof. apply intString_returns. lia. Qed.

Lemma random_chars_length (n : nat) (w : World) :
  returns (Faker.random_chars n) w
    (fun s => String.length s = n
              ∧ all_chars (fun c => bool_decide (c ∈ Faker.alphanumerics)) s = true).
Proof.
  revert w. induction n as [|n IH]; intros w; cbn [Faker.random_chars].
  - by apply returns_ret.
  - eapply returns_bind; [apply draw_returns|]. intros r w1 _ _.
    eapply returns_bind; [apply IH|]. intros rest w2 _ [Hlen Hall].
    apply returns_ret. cbn [all_chars String.length]. rewrite Hlen, Hall.
    split; [done|]. rewrite andb_true_r. apply bool_decide_eq_true.
    apply list_elem_of_In, nth_In.
    change (length Faker.alphanumerics) with 62.
    apply Nat.mod_upper_bound. lia.
Qed.

Lemma string_alphanumeric_length (len : Z) (w : World) :
  returns (Faker.string_alphanumeric len) w
    (fun s => String.length s = Z.to_nat len
              ∧ all_chars (fun c => bool_decide (c ∈ Faker.alphanumerics)) s = true).
Proof.
  unfold Faker.string_alphanumeric. destruct (Z.leb_spec len 0).
  - apply returns_ret. split; [|done]. simpl. lia.
  - apply random_chars_length.
Qed.

Lemma arrayElement_returns (options : list string) (w : World) :
  options ≠ [] →
  returns (arrayElement options) w (fun s => In s options).
Proof.
  intros Hne. unfold arrayElement. eapply returns_bind.
  - apply helpers_arrayElement_returns. by destruct options.
  - intros v w' _ Hin. cbv beta in Hin. apply in_map_iff in Hin as (s & <- & Hs).
    by apply returns_ret.
Qed.

Lemma upper_of_alphanumeric (c : ascii) :
  c ∈ Faker.alphanumerics → ∃ u, upper_char c = Some (String u EmptyString).
Proof.
  intros H. apply list_elem_of_In in H.
  repeat (destruct H as [<-|H]; [by eexists|]). destruct H.
Qed.

Lemma toUpperCase_alphanumeric (s : string) :
  all_chars (fun c => bool_decide (c ∈ Faker.alphanumerics)) s = true →
  ∃ u, toUpperCase s = Some u ∧ String.length u = String.length s.
Proof.
  induction s as [|c s IH]; [by exists EmptyString|]. simpl. intros H.
  apply andb_prop in H as [Hc Hs]. apply bool_decide_eq_true in Hc.
  destruct (upper_of_alphanumeric c Hc) as [x ->].
  destruct (IH Hs) as (u & -> & Hlen). exists (String x u).
  split; [done|]. simpl. by rewrite Hlen.
Qed.

Lemma upperAlphanumeric_returns (n : Z) (w : World) :
  returns (upperAlphanumeric n) w (fun s => String.length s = Z.to_nat n).
Proof.
  unfold upperAlphanumeric. eapply returns_bind.
  - apply string_alphanumeric_length.
  - intros s w' _ [Hlen Hall]. destruct (toUpperCase_alphanumeric s Hall)
      as (u & -> & Hu). apply returns_ret. congruence.
Qed.

Lemma caseInt_returns (params : list string) (w : World) :
  let lo := clamp (-2147483648) 2147483647 0 (intParam params 0 0) in
  let hi := clamp (-2147483648) 2147483647 1000 (intParam params 1 1000) in
  returns (caseInt params) w
    (fun s => ∃ n, s = integer_to_string n
                   ∧ (Z.min lo hi ≤ n ≤ Z.max lo hi)%Z ∧ int32 n).
Proof.
  intros lo hi. unfold caseInt. fold lo hi.
  eapply returns_weaken; [apply ordered_range_returns|].
  intros s (n & -> & Hn). exists n. split; [done|]. split; [done|].
  pose proof (clamp_bounds (-2147483648) 2147483647 0 (intParam params 0 0)
                ltac:(lia)).
  pose proof (clamp_bounds (-2147483648) 2147483647 1000 (intParam params 1 1000)
                ltac:(lia)).
  unfold int32. fold lo hi in H, H0. lia.
Qed.

Lemma caseAge_returns (params : list string) (w : World) :
  returns (caseAge params) w
    (fun s => ∃ n, s = integer_to_string n ∧ (0 ≤ n ≤ 120)%Z).
Proof.
  unfold caseAge.
  eapply returns_weaken; [apply ordered_range_returns|].
  intros s (n & -> & Hn). exists n. split; [done|].
  pose proof (clamp_bounds 0 120 18 (intParam params 0 18) ltac:(lia)).
  pose proof (clamp_bounds 0 120 65 (intParam params 1 65) ltac:(lia)).
  lia.
Qed.

Lemma caseString_returns (params : list string) (w : World) :
  returns (caseString params) w
    (fun s => Z.of_nat (String.length s) = clamp 1 10000 10 (intParam params 0 10)
              ∧ (1 ≤ Z.of_nat (String.length s) ≤ 10000)%Z).
Proof.
  unfold caseString.
  eapply returns_weaken; [apply string_alphanumeric_length|].
  intros s [Hlen _].
  pose proof (clamp_bounds 1 10000 10 (intParam params 0 10) ltac:(lia)). lia.
Qed.

Lemma caseRandom_returns (params : list string) (w : World) :
  returns (caseRandom params) w
    (fun s => match params with
              | [] => String.length s = 10
              | _ => In s params
              end).
Proof.
  unfold caseRandom. destruct params as [|p rest].
  - eapply returns_weaken; [apply string_alphanumeric_length|]. by intros s [? _].
  - by apply arrayElement_returns.
Qed.

Lemma returns_anything {A} (m : M A) (w : World) (P : A → Prop) :
  returns m w P → returns m w (fun _ => True).
Proof. intros H. eapply returns_weaken; [exact H|done]. Qed.

Lemma prefixed_returns (prefix : string) (n : Z) (w : World) :
  returns (let* s := upperAlphanumeric n in ret (prefix +:+ s)) w (fun _ => True).
Proof.
  eapply returns_bind; [apply upperAlphanumeric_returns|].
  intros. by apply returns_ret.
Qed.

Lemma caseVersion_returns (firstMin : Z) (params : list string) (w : World) :
  (firstMin ≤ 10)%Z → returns (caseVersion firstMin params) w (fun _ => True).
Proof.
  intros H. unfold caseVersion.
  eapply returns_bind; [by apply intString_returns|]. intros major w1 _ _.
  eapply returns_bind; [by apply intString_returns|]. intros minor w2 _ _.
  eapply returns_bind; [by apply intString_returns|]. intros patch w3 _ _.
  by apply returns_ret.
Qed.

Lemma caseBoolean_returns (params : list string) (w : World) :
  returns (caseBoolean params) w (fun s => s = "true" ∨ s = "false").
Proof.
  unfold caseBoolean. eapply returns_bind; [apply datatype_boolean_returns|].
  intros b w' _ _. apply returns_ret. destruct b; auto.
Qed.

(** Every modelled body returns, whatever its parameters. *)
Lemma cases_return (labels : list string) (run : list string → M string) :
  In (labels, run) cases →
  ∀ params w, returns (run params) w (fun _ => True).
Proof.
  intros Hin params w. unfold cases in Hin.
  repeat (destruct Hin as [[= <- <-]|Hin];
          [first
             [ eapply returns_anything; apply caseInt_returns
             | eapply returns_anything; apply caseAge_returns
             | eapply returns_anything; apply caseString_returns
             | eapply returns_anything; apply caseRandom_returns
             | eapply returns_anything; apply caseBoolean_returns
             | apply caseVersion_returns; lia
             | apply prefixed_returns
             | eapply returns_anything; apply upperAlphanumeric_returns
             | eapply returns_anything; apply arrayElement_returns; discriminate
             | eapply returns_anything; apply intString_returns; lia
             | apply string_alphanumeric_returns
             | eapply returns_bind; [apply string_alphanumeric_returns|];
               intros; by apply returns_ret ]
          |]).
  destruct Hin.
Qed.

Lemma body_in_cases (name : string) (run : list string → M string) :
  body name = Some run → ∃ labels, In (labels, run) cases ∧ In name labels.
Proof.
  unfold body. destruct (List.find _ cases) as [[labels run']|] eqn:E; [|done].
  intros [= <-]. apply find_some in E as [Hin Hname]. exists labels.
  split; [done|]. simpl in Hname. apply existsb_exists in Hname as (l & Hl & Heq).
  apply String.eqb_eq in Heq. by subst.
Qed.

Lemma body_is_known (name : string) (run : list string → M string) :
  body name = Some run → known name = true.
Proof.
  intros H. apply body_in_cases in H as (labels & Hin & Hname).
  unfold cases in Hin.
  repeat (destruct Hin as [[= <- <-]|Hin];
          [repeat (destruct Hname as [<-|Hname]; [reflexivity|]);
           destruct Hname|]).
  destruct Hin.
Qed.

Lemma no_close_all_chars (s : string) :
  all_chars (is_not "}") s = true → no_close s = true.
Proof.
  induction s as [|c s IH]; [done|]. simpl. intros H.
  apply andb_prop in H as [Hc Hs]. by rewrite (IH Hs), andb_true_r.
Qed.

Lemma caseInt_point (z : Z) (w : World) :
  int32 z →
  caseInt [integer_to_string z; integer_to_string z] w
  = Ok (integer_to_string z) w.
Proof.
  intros Hz. unfold int32 in Hz. unfold caseInt, intParam.
  cbn [lookup list_lookup].
  destruct (integer_to_string_chars z) as [Hne _].
  destruct (String.eqb_spec (integer_to_string z) EmptyString) as [|_]; [done|].
  rewrite parseInt_integer_to_string by (unfold overflow; lia).
  cbn [clamp].
  replace (Z.max (-2147483648) (Z.min 2147483647 z)) with z by lia.
  rewrite Z.min_id, Z.max_id. unfold intString, bind.
  by rewrite number_int_point.
Qed.

(** The text [int:d:d] for a numeral [d]: nothing to trim, name [int],
    parameters [d] and [d]. *)
Lemma point_template (z : Z) :
  let d := integer_to_string z in
  let inner := "int:" +:+ d +:+ ":" +:+ d in
  inner ≠ EmptyString ∧ no_close inner = true ∧ trim inner = inner
  ∧ templateName inner = "int" ∧ params_of inner = [d; d].
Proof.
  intros d inner. destruct (integer_to_string_chars z) as [Hne Hall].
  fold d in Hne, Hall.
  assert (all_chars (is_not ":") d = true) as Hcolon.
  { eapply all_chars_weaken; [|exact Hall]. intros c Hc.
    destruct (numeral_char_is_solid c Hc) as (_ & H & _).
    unfold is_not. by rewrite H. }
  assert (split_on ":" inner = ["int"; d; d]) as Hsplit.
  { change inner with ("int" +:+ String ":" (d +:+ String ":" d)).
    rewrite split_on_first by reflexivity.
    rewrite split_on_first by done. by rewrite split_on_whole. }
  split; [done|]. split; [|split; [|split]].
  - apply no_close_all_chars. unfold inner.
    rewrite !all_chars_append.
    assert (all_chars (is_not "}") d = true) as ->; [|reflexivity].
    eapply all_chars_weaken; [|exact Hall]. intros c Hc.
    destruct (numeral_char_is_solid c Hc) as (_ & _ & H).
    unfold is_not. by rewrite H.
  - unfold trim. change (trimStart inner) with inner.
    replace inner with (("int:" +:+ d +:+ ":") +:+ d)
      by (unfold inner; by rewrite !append_assoc).
    apply trimEnd_append; [done|]. apply trimEnd_solid.
      eapply all_chars_weaken; [|exact Hall]. intros c Hc.
      destruct (numeral_char_is_solid c Hc) as (H & _). by rewrite H.
  - unfold templateName. by rewrite Hsplit.
  - unfold params_of. by rewrite Hsplit.
Qed.

Section Engine.
Context {W : Type}.
Variable expand : string → list string → Eff W string.

Lemma matchHere_needs_two_braces (s : string) :
  String.prefix "{{" s = false → matchHere s = None.
Proof.
  unfold matchHere, starts_with_two.
  destruct s as [|a [|b rest]]; try done.
  cbn [String.prefix].
  destruct (ascii_dec "{" a) as [<-|Ha].
  - destruct (ascii_dec "{" b) as [<-|Hb]; [by destruct rest|].
    intros _. destruct (Ascii.eqb_spec b "{") as [->|_]; [done|].
    by rewrite andb_false_r.
  - intros _. by destruct (Ascii.eqb_spec a "{") as [->|_].
Qed.

Lemma replaceFrom_plain (s : string) (w : W) :
  string_includes s "{{" = false → replaceFrom expand 0 s w = Ok s w.
Proof.
  induction s as [|c s IH]; [done|]. cbn [string_includes replaceFrom].
  intros H. apply orb_false_elim in H as [Hprefix Hrest].
  rewrite (matchHere_needs_two_braces _ Hprefix). unfold bind.
  by rewrite (IH Hrest).
Qed.

End Engine.

(** ** Properties of the engine with the modelled bodies *)



(** X2. A range of one value: [{{int:d:d}}], for the decimal numeral [d] of a
    32-bit integer, is replaced by [d] itself, and nothing is drawn from the
    random source. *)
Theorem int_point_range_gives_the_point (expand : string → list string → M string)
    (z : Z) (w : World) :
  carries expand →
  int32 z →
  let d := integer_to_string z in
  process expand (JStr ("{{int:" +:+ d +:+ ":" +:+ d +:+ "}}")) w
  = Ok (JStr d) w.
Proof.
  intros Hexpand Hz d.
  destruct (point_template z) as (Hne & Hclose & Htrim & Hname & Hparams).
  fold d in Hne, Hclose, Htrim, Hname, Hparams.
  set (inner := "int:" +:+ d +:+ ":" +:+ d) in *.
  replace ("{{int:" +:+ d +:+ ":" +:+ d +:+ "}}")
    with ("{{" +:+ inner +:+ "}}" +:+ EmptyString).
  2:{ unfold inner. change "{{int:" with ("{{" +:+ "int:").
      by rewrite !append_assoc. }
  unfold process. cbn [processMarked]. unfold processString.
  unfold bind at 1. unfold bind at 1.
  rewrite replaceFrom_placeholder by done. rewrite Htrim. unfold bind at 1.
  rewrite processTemplate_known by (by rewrite Hname).
  rewrite Hname, Hparams. rewrite (Hexpand "int" caseInt eq_refl).
  rewrite (caseInt_point z w Hz : caseInt [d; d] w = Ok d w).
  unfold bind, ret. cbn [replaceFrom]. unfold ret.
  by rewrite append_empty_r.
Qed.

(** The theorem at [-12]. *)
Lemma int_point_range_gives_the_point_witness :
  process sampleCatalog (JStr "{{int:-12:-12}}") (mkWorld ∅ [8; 9])
  = Ok (JStr "-12") (mkWorld ∅ [8; 9]).
Proof.
  refine (int_point_range_gives_the_point sampleCatalog (-12) (mkWorld ∅ [8; 9])
            sampleCatalog_carries _).
  unfold int32. lia.
Defined.



(** X4. The [string] placeholder gives a text whose length is its first
    parameter parsed as a decimal integer and clamped to [1, 10000] ([10]
    when the parameter is missing, empty or not a number), so never an empty
    text and never more than 10000 characters. *)
Theorem string_placeholder_length_is_clamped
    (expand : string → list string → M string) (template : string) (w : World) :
  carries expand →
  templateName template = "string" →
  ∃ s w', processTemplate expand template w = Ok s w'
          ∧ Z.of_nat (String.length s)
            = clamp 1 10000 10 (intParam (params_of template) 0 10)
          ∧ (1 ≤ Z.of_nat (String.length s) ≤ 10000)%Z.
Proof.
  intros Hexpand Hname.
  rewrite processTemplate_known by (by rewrite Hname).
  rewrite Hname, (Hexpand "string" caseString eq_refl).
  destruct (caseString_returns (params_of template) w)
    as (s & w' & Hrun & _ & Hlen & Hrange).
  by exists s, w'.
Qed.

(** The theorem at [{{string:0}}]: one character, not none. *)
Lemma string_placeholder_length_is_clamped_witness :
  ∃ s w', processTemplate sampleCatalog "string:0" (mkWorld ∅ [4]) = Ok s w'
          ∧ String.length s = 1.
Proof.
  destruct (string_placeholder_length_is_clamped sampleCatalog "string:0"
              (mkWorld ∅ [4]) sampleCatalog_carries eq_refl)
    as (s & w' & Hrun & Hlen & _).
  exists s, w'. split; [exact Hrun|].
  vm_compute in Hlen. apply Nat2Z.inj. exact Hlen.
Defined.

(** X5. The [random] placeholder with parameters returns one of them, exactly
    as written between the colons (white space included). *)
Theorem random_placeholder_picks_a_parameter
    (expand : string → list string → M string) (template : string) (w : World) :
  carries expand →
  templateName template = "random" →
  params_of template ≠ [] →
  ∃ s w', processTemplate expand template w = Ok s w'
          ∧ In s (params_of template).
Proof.
  intros Hexpand Hname Hparams.
  rewrite processTemplate_known by (by rewrite Hname).
  rewrite Hname, (Hexpand "random" caseRandom eq_refl).
  destruct (caseRandom_returns (params_of template) w)
    as (s & w' & Hrun & _ & Hin).
  exists s, w'. split; [done|]. by destruct (params_of template).
Qed.

(** The theorem at [{{random:red: green}}]. *)
Lemma random_placeholder_picks_a_parameter_witness :
  ∃ s w', processTemplate sampleCatalog "random:red: green" (mkWorld ∅ [1]) = Ok s w'
          ∧ (s = "red" ∨ s = " green").
Proof.
  destruct (random_placeholder_picks_a_parameter sampleCatalog
              "random:red: green" (mkWorld ∅ [1]) sampleCatalog_carries eq_refl
              ltac:(discriminate))
    as (s & w' & Hrun & Hin).
  exists s, w'. split; [exact Hrun|].
  destruct Hin as [<-|[<-|[]]]; [by left|by right].
Defined.

(** X6. None of the modelled bodies raises: a template whose name is one of
    their labels is replaced by a text, whatever follows the name. *)
Theorem modelled_placeholders_never_raise
    (expand : string → list string → M string) (template : string)
    (run : list string → M string) (w : World) :
  carries expand →
  body (templateName template) = Some run →
  ∃ s w', processTemplate expand template w = Ok s w'.
Proof.
  intros Hexpand Hbody.
  rewrite processTemplate_known by (by eapply body_is_known).
  rewrite (Hexpand _ _ Hbody).
  destruct (body_in_cases _ _ Hbody) as (labels & Hin & _).
  destruct (cases_return labels run Hin (params_of template) w)
    as (s & w' & Hrun & _).
  by exists s, w'.
Qed.

(** The theorem at [{{semver:x:y}}]. *)
Lemma modelled_placeholders_never_raise_witness :
  ∃ s w', processTemplate sampleCatalog "semver:x:y" (mkWorld ∅ []) = Ok s w'.
Proof.
  exact (modelled_placeholders_never_raise sampleCatalog "semver:x:y"
           (caseVersion 1) (mkWorld ∅ []) sampleCatalog_carries eq_refl).
Defined.

(** X7. A placeholder with a known name is replaced by what the body of that
    name returns on the parameters: the text before it is copied, the body
    runs first, the text after it is processed next, and the replacement is
    not searched for placeholders again. *)
Theorem known_placeholder_is_expanded_in_place {W : Type}
    (expand : string → list string → Eff W string)
    (pre inner post : string) (w : W) :
  no_open pre = true →
  inner ≠ EmptyString →
  no_close inner = true →
  known (templateName (trim inner)) = true →
  processString expand (pre +:+ "{{" +:+ inner +:+ "}}" +:+ post) w
  = (let* text := expand (templateName (trim inner)) (params_of (trim inner)) in
     let* tail := processString expand post in
     ret (pre +:+ text +:+ tail)) w.
Proof.
  intros Hopen Hne Hclose Hknown.
  unfold processString. rewrite replaceFrom_literal by done.
  unfold bind at 1. rewrite replaceFrom_placeholder by done.
  unfold bind at 1. rewrite processTemplate_known by done.
  unfold bind, ret.
  destruct (expand _ _ w) as [text w1| | |]; try reflexivity.
  destruct (replaceFrom expand 0 post w1); reflexivity.
Qed.

(** The theorem at [id={{ UUID }};], with a body that returns a text
    holding a placeholder. *)
Lemma known_placeholder_is_expanded_in_place_witness :
  processString (fun name _ => ret ("{{" +:+ name +:+ "}}")) "id={{ UUID }};" tt
  = Ok "id={{uuid}};" tt.
Proof.
  exact (known_placeholder_is_expanded_in_place
           (fun name _ => ret ("{{" +:+ name +:+ "}}"))
           "id=" " UUID " ";" tt eq_refl ltac:(discriminate) eq_refl eq_refl).
Defined.

(** X8. The name of a template is looked up trimmed and in lower case: two
    templates whose names differ only by case and by white space around
    them, with the same text after the first colon, run the same body on the
    same parameters. *)
Theorem template_name_ignores_case_and_padding {W : Type}
    (expand : string → list string → Eff W string)
    (name1 name2 rest : string) (w : W) :
  all_chars (is_not ":") name1 = true →
  all_chars (is_not ":") name2 = true →
  toLowerCase (trim name1) = toLowerCase (trim name2) →
  known (toLowerCase (trim name1)) = true →
  processTemplate expand (name1 +:+ ":" +:+ rest) w
  = processTemplate expand (name2 +:+ ":" +:+ rest) w.
Proof.
  intros H1 H2 Hsame Hknown.
  assert (∀ name, all_chars (is_not ":") name = true →
            templateName (name +:+ ":" +:+ rest) = toLowerCase (trim name)
            ∧ params_of (name +:+ ":" +:+ rest) = split_on ":" rest) as Hshape.
  { intros name Hname. unfold templateName, params_of.
    change (name +:+ ":" +:+ rest) with (name +:+ String ":" rest).
    by rewrite split_on_first. }
  destruct (Hshape name1 H1) as [Hn1 Hp1].
  destruct (Hshape name2 H2) as [Hn2 Hp2].
  rewrite !processTemplate_known by congruence.
  by rewrite Hn1, Hn2, Hp1, Hp2, Hsame.
Qed.

(** The theorem at [ INT :1:2] and [int:1:2]. *)
Lemma template_name_ignores_case_and_padding_witness :
  processTemplate sampleCatalog " INT :1:2" (mkWorld ∅ [6])
  = processTemplate sampleCatalog "int:1:2" (mkWorld ∅ [6]).
Proof.
  exact (template_name_ignores_case_and_padding sampleCatalog
           " INT " "int" "1:2" (mkWorld ∅ [6]) eq_refl eq_refl eq_refl eq_refl).
Defined.

(** X9. A text without two opening braces in a row holds no placeholder and is
    returned as it is, without a call of any body. *)
Theorem text_without_placeholder_is_copied {W : Type}
    (expand : string → list string → Eff W string) (s : string) (w : W) :
  string_includes s "{{" = false →
  process expand (JStr s) w = Ok (JStr s) w.
Proof.
  intros H. unfold process. cbn [processMarked]. unfold processString, bind.
  by rewrite replaceFrom_plain.
Qed.

(** The theorem at a JSON-like text with single braces. *)
Lemma text_without_placeholder_is_copied_witness :
  process labelExpand (JStr "{ a: {b} }") tt = Ok (JStr "{ a: {b} }") tt.
Proof.
  exact (text_without_placeholder_is_copied labelExpand "{ a: {b} }" tt eq_refl).
Defined.

End CatalogFacts.

(** * More facts about the generator *)
Module GeneratorMoreFacts.
Import Js JsFacts Keyword DataGenerator Run RunFacts FakerFacts Vocabulary.
Import GeneratorVocabulary GeneratorFacts CatalogFacts CatalogVocabulary.
Import NumberVocabulary NumberFacts.

(** A run that returns a value with [P] returns nothing without [P]. *)
Lemma returns_is_ensured {A} (m : M A) (w : World) (P : A → Prop) :
  returns m w P → ensures m w (fun a _ => P a).
Proof. intros (a & w' & Hrun & _ & Ha) b w2 Hb. congruence. Qed.

Lemma switchType_string (generate : JS → M JS) (schema : JS) :
  string_typed schema = true → switchType generate schema = generateString schema.
Proof. unfold string_typed, switchType. by intros ->. Qed.


(** ** Strings *)

(** X10. A schema that reaches the [string] case with a non-empty [enum] gives
    one of the values listed, of whatever kind they are and whatever the
    [format]. *)
Theorem enum_member_is_returned (spec schema : JS) (options : list JS)
    (fuel : nat) (w : World) :
  plain schema = true →
  string_typed schema = true →
  field schema "enum" = JArr options →
  options ≠ [] →
  returns (generateFromSchema spec (S fuel) schema) w (fun v => In v options).
Proof.
  intros Hplain Htype Henum Hne.
  rewrite generateFromSchema_plain, switchType_string by done.
  unfold generateString. rewrite Henum.
  destruct options as [|x rest]; [done|]. cbn [nonempty_array].
  by apply helpers_arrayElement_returns.
Qed.

(** The theorem at [enumSchema]. *)
Lemma enum_member_is_returned_witness :
  returns (generateFromSchema JUndefined 1 enumSchema) (mkWorld ∅ [7])
    (fun v => In v [JStr "a"; JStr "b"]).
Proof.
  exact (enum_member_is_returned JUndefined enumSchema [JStr "a"; JStr "b"] 0
           (mkWorld ∅ [7]) eq_refl eq_refl eq_refl ltac:(discriminate)).
Defined.




(** ** Numbers with [multipleOf] *)

Lemma integer_type (type : JS) :
  is_one_of type ["integer"] = true → type = JStr "integer".
Proof.
  destruct type as [| | | |s| |]; simpl; try discriminate.
  destruct (String.eqb_spec s "integer") as [->|_]; [done|discriminate].
Qed.

(** X12. On an integer schema with an integer [multipleOf] [m], whatever
    integer [n] faker draws, with [0 <= n] and both below [2^53],
    [generateNumber] returns the largest multiple of [m] that is not above
    [n]: [Math.floor(n / m) * m] is exact in doubles there. The result lies
    less than [m] below [n], so it can leave the range from below (the only
    multiple of 3 from [{minimum:5, maximum:5}] is 3). With fractions the
    division and the product are rounded: for
    [{minimum:1.7, maximum:1.7, multipleOf:0.1}] the result is above
    [maximum]. *)
Theorem multipleOf_rounds_down (spec schema : JS) (lo hi : Q) (n m : Z)
    (fuel : nat) (w w' : World) :
  plain schema = true →
  is_one_of (field schema "type") ["integer"] = true →
  bound (field schema "minimum") 0 = Some lo →
  bound (field schema "maximum") 1000 = Some hi →
  field schema "multipleOf" = JNum (inject_Z m) →
  Faker.computed_int lo hi w = Ok (Binary64.Fin (inject_Z n)) w' →
  (0 ≤ n < 2 ^ 53)%Z → (0 < m < 2 ^ 53)%Z →
  generateFromSchema spec (S fuel) schema w
  = Ok (JNum (inject_Z (n / m * m))) w'
  ∧ (n - m < n / m * m ≤ n)%Z
  ∧ ∃ q, generateFromSchema spec (S fuel) decimalsSchema w = Ok (JNum q) w
         ∧ (nearest_double (17 # 10) < q)%Q.
Proof.
  intros Hplain Htype Hlo Hhi Hm Hdraw Hn Hmrange.
  split; [|split].
  - rewrite generateFromSchema_plain by done.
    rewrite switchType_number
      by (by rewrite (integer_type _ Htype)).
    unfold generateNumber, generateNumberValue.
    rewrite (num_unless_undefined_bound _ _ _ Hlo).
    rewrite (num_unless_undefined_bound _ _ _ Hhi), !bind_ret.
    rewrite Htype, Hm.
    assert (truthy (JNum (inject_Z m)) = true) as ->.
    { simpl. apply negb_true_iff, not_true_is_false. intros H.
      apply Qeq_bool_iff in H. pose proof (inject_Z_pos m ltac:(lia)) as Hpos.
      rewrite H in Hpos. by apply Qlt_irrefl in Hpos. }
    cbn [as_number]. unfold bind at 1. unfold bind at 1. rewrite Hdraw.
    rewrite bind_ret. unfold ret at 1. unfold snap.
    by rewrite snap_integers.
  - pose proof (Z.mul_div_le n m ltac:(lia)).
    pose proof (Z.mul_succ_div_gt n m ltac:(lia)). lia.
  - rewrite generateFromSchema_plain by reflexivity.
    rewrite switchType_number by reflexivity.
    unfold generateNumber.
    assert (generateNumberValue decimalsSchema w
            = Ok (Binary64.Fin (1914029841632461 # 1125899906842624)) w) as Hrun
      by (vm_compute; reflexivity).
    unfold bind. rewrite Hrun. eexists. split; [reflexivity|].
    vm_compute. reflexivity.
Qed.

(** The theorem at [fiveByThreeSchema], whose result is [3]. *)
Lemma multipleOf_rounds_down_witness :
  generateFromSchema JUndefined 1 fiveByThreeSchema (mkWorld ∅ [4])
  = Ok (JNum 3) (mkWorld ∅ [4]).
Proof.
  refine (proj1 (multipleOf_rounds_down JUndefined fiveByThreeSchema 5 5 5 3 0
                   (mkWorld ∅ [4]) (mkWorld ∅ [4])
                   eq_refl eq_refl eq_refl eq_refl eq_refl eq_refl _ _));
    lia.
Defined.

(** ** Objects *)

Lemma has_key_set_field_inv (key k : string) (v : JS) (obj : list (string * JS)) :
  has_key k (set_field key v obj) → has_key k obj ∨ k = key.
Proof.
  unfold has_key. destruct (decide (k = key)) as [->|Hne]; [auto|].
  rewrite lookup_set_field_ne by done. auto.
Qed.

Lemma length_set_field (key : string) (v : JS) (obj : list (string * JS)) :
  length (set_field key v obj) ≤ S (length obj).
Proof.
  induction obj as [|[k' v'] obj IH]; simpl; [lia|].
  destruct (String.eqb key k'); simpl; lia.
Qed.

Lemma has_key_assign_key_inv (key k : string) (v : JS)
    (obj : list (string * JS)) :
  has_key k (assign_key key v obj) → has_key k obj ∨ k = key.
Proof.
  unfold assign_key. destruct (String.eqb key "__proto__"); [auto|].
  apply has_key_set_field_inv.
Qed.

Lemma length_assign_key (key : string) (v : JS) (obj : list (string * JS)) :
  length (assign_key key v obj) ≤ S (length obj).
Proof.
  unfold assign_key. destruct (String.eqb key "__proto__"); [lia|].
  apply length_set_field.
Qed.

(** The loop over the declared properties adds declared keys only. *)
Lemma fillProperties_only_declared (generate : JS → M JS) (schema : JS)
    (entries : list (string * JS)) :
  ∀ (obj : list (string * JS)) (w : World),
    ensures (fillProperties generate schema entries obj) w
      (fun obj' _ =>
         (∀ k, has_key k obj' → has_key k obj ∨ In k (keys entries))
         ∧ length obj' ≤ length obj + length entries).
Proof.
  induction entries as [|[key propSchema] rest IH]; intros obj w.
  - apply ensures_ret. split; [auto|simpl; lia].
  - cbn [fillProperties].
    eapply ensures_bind with (P := fun _ _ => True); [done|].
    intros isRequired w1 _.
    eapply ensures_bind with (P := fun _ _ => True); [done|].
    intros wanted w2 _.
    eapply ensures_bind with
      (P := fun obj1 _ =>
              (∀ k, has_key k obj1 → has_key k obj ∨ k = key)
              ∧ length obj1 ≤ S (length obj)).
    { destruct wanted.
      - eapply ensures_bind with (P := fun _ _ => True); [done|].
        intros value w3 _. apply ensures_ret.
        split; [intros k; apply has_key_assign_key_inv|apply length_assign_key].
      - apply ensures_ret. split; [auto|lia]. }
    intros obj1 w3 [Hkeys Hlen].
    eapply ensures_weaken; [apply IH|].
    intros obj' w4 [Hkeys' Hlen']. split.
    + intros k Hk. destruct (Hkeys' k Hk) as [H|H]; [|simpl; auto].
      destruct (Hkeys k H) as [?| ->]; simpl; auto.
    + simpl. lia.
Qed.

(** The loop over the additional properties adds [additional_] keys only,
    one a round at most. *)
Lemma addAdditional_only_additional (generate : JS → M JS) (additional : JS)
    (n : nat) :
  ∀ (obj : list (string * JS)) (w : World),
    ensures (addAdditional generate additional n obj) w
      (fun obj' _ =>
         (∀ k, has_key k obj' → has_key k obj ∨ additional_key k)
         ∧ length obj' ≤ length obj + n).
Proof.
  induction n as [|n IH]; intros obj w; cbn [addAdditional].
  - apply ensures_ret. split; [auto|lia].
  - eapply ensures_bind with (P := fun _ _ => True); [done|].
    intros suffix w1 _.
    eapply ensures_bind with
      (P := fun obj1 _ =>
              (∀ k, has_key k obj1 → has_key k obj ∨ additional_key k)
              ∧ length obj1 ≤ S (length obj)).
    { assert (∀ v, (∀ k, has_key k (assign_key ("additional_" +:+ suffix) v obj)
                       → has_key k obj ∨ additional_key k)
                   ∧ length (assign_key ("additional_" +:+ suffix) v obj)
                     ≤ S (length obj)) as Hset.
      { intros v. split; [|apply length_assign_key].
        intros k Hk. apply has_key_assign_key_inv in Hk as [?| ->]; [auto|].
        right. by exists suffix. }
      destruct (is_object additional).
      - eapply ensures_bind with (P := fun _ _ => True); [done|].
        intros value w2 _. by apply ensures_ret.
      - destruct additional as [| |[|]| | | |];
          try (apply ensures_ret; split; [auto|lia]).
        eapply ensures_bind with (P := fun _ _ => True); [done|]. intros a w2 _.
        eapply ensures_bind with (P := fun _ _ => True); [done|]. intros b w3 _.
        eapply ensures_bind with (P := fun _ _ => True); [done|]. intros c w4 _.
        eapply ensures_bind with (P := fun _ _ => True); [done|]. intros v w5 _.
        by apply ensures_ret. }
    intros obj1 w2 [Hkeys Hlen].
    eapply ensures_weaken; [apply IH|].
    intros obj' w3 [Hkeys' Hlen']. split; [|lia].
    intros k Hk. destruct (Hkeys' k Hk) as [H|H]; auto.
Qed.

(** X13. An object schema never gives a key of its own making, apart from the
    additional ones: every key of a generated object is a key of
    [properties] or begins with [additional_]; without
    [additionalProperties] every key is declared; and there are at most
    three more keys than declared properties. This holds whatever the nested
    generation returns. *)
Theorem object_keys_are_declared_or_additional (spec schema : JS)
    (properties : list (string * JS)) (fuel : nat) (w w' : World) (v : JS) :
  plain schema = true →
  field schema "type" = JStr "object" →
  field schema "properties" = JObj properties →
  generateFromSchema spec (S fuel) schema w = Ok v w' →
  ∃ obj, v = JObj obj
    ∧ (∀ k, has_key k obj → In k (keys properties) ∨ additional_key k)
    ∧ (truthy (field schema "additionalProperties") = false →
       ∀ k, has_key k obj → In k (keys properties))
    ∧ length obj ≤ length properties + 3.
Proof.
  intros Hplain Htype Hprops.
  rewrite generateFromSchema_plain by done.
  unfold switchType. rewrite Htype. cbn [or_else truthy String.eqb negb].
  change (is_one_of (JStr "object") ["string"]) with false.
  change (is_one_of (JStr "object") ["number"; "integer"]) with false.
  change (is_one_of (JStr "object") ["boolean"]) with false.
  change (is_one_of (JStr "object") ["array"]) with false.
  change (is_one_of (JStr "object") ["object"]) with true. cbv iota.
  revert v w'.
  change (ensures (generateObject (generateFromSchema spec fuel) schema) w
            (fun v _ => ∃ obj, v = JObj obj
               ∧ (∀ k, has_key k obj → In k (keys properties) ∨ additional_key k)
               ∧ (truthy (field schema "additionalProperties") = false →
                  ∀ k, has_key k obj → In k (keys properties))
               ∧ length obj ≤ length properties + 3)).
  unfold generateObject. rewrite Hprops.
  change (object_entries (or_else (JObj properties) (JObj []))) with properties.
  eapply ensures_bind; [apply fillProperties_only_declared|].
  intros obj w1 [Hkeys Hlen]. simpl in Hlen.
  assert (∀ k, has_key k obj → In k (keys properties)) as Hdeclared.
  { intros k Hk. destruct (Hkeys k Hk) as [[x Hx]|H]; [done|done]. }
  eapply ensures_bind with
    (P := fun obj' _ =>
            (∀ k, has_key k obj' → In k (keys properties) ∨ additional_key k)
            ∧ (truthy (field schema "additionalProperties") = false →
               ∀ k, has_key k obj' → In k (keys properties))
            ∧ length obj' ≤ length properties + 3).
  - destruct (truthy (field schema "additionalProperties")).
    + eapply ensures_bind.
      { apply returns_is_ensured.
        apply (number_int_returns 0 3). vm_compute. discriminate. }
      intros count w2 Hcount. cbv beta in Hcount.
      change (Qceiling 0) with 0%Z in Hcount.
      change (Qfloor 3) with 3%Z in Hcount.
      eapply ensures_weaken; [apply addAdditional_only_additional|].
      intros obj' w3 [Hkeys' Hlen'].
      split; [|split; [discriminate|lia]].
      intros k Hk. destruct (Hkeys' k Hk); auto.
    + apply ensures_ret. split; [auto|]. split; [auto|lia].
  - intros obj' w2 H. apply ensures_ret. by exists obj'.
Qed.

(** The theorem at [openObjectSchema]. *)
Lemma object_keys_are_declared_or_additional_witness :
  ∃ obj w',
    generateFromSchema JUndefined 2 openObjectSchema (mkWorld ∅ [1; 0; 7; 1])
    = Ok (JObj obj) w'
    ∧ length obj ≤ 4
    ∧ ∀ k, has_key k obj → k = "id" ∨ additional_key k.
Proof.
  assert (∃ v w', generateFromSchema JUndefined 2 openObjectSchema
                    (mkWorld ∅ [1; 0; 7; 1]) = Ok v w')
    as (v & w' & Hrun) by (vm_compute; eauto).
  destruct (object_keys_are_declared_or_additional JUndefined openObjectSchema
              [("id", JObj [("type", JStr "string")])] 1 (mkWorld ∅ [1; 0; 7; 1])
              w' v eq_refl eq_refl eq_refl Hrun)
    as (obj & -> & Hkeys & _ & Hlen).
  exists obj, w'. split; [exact Hrun|]. split; [exact Hlen|].
  intros k Hk. destruct (Hkeys k Hk) as [[<-|[]]|?]; auto.
Defined.

(** ** Composition keywords and references *)

(** X14. A schema with a non-empty [oneOf] (or, when [oneOf] is absent or empty,
    a non-empty [anyOf]) is generated as one of the members listed, chosen by
    faker; [type], [properties] and every other keyword next to it are not
    read. *)
Theorem choice_generates_one_member (spec schema : JS) (members : list JS)
    (fuel : nat) (w : World) :
  truthy schema = true →
  truthy (field schema "$ref") = false →
  nonempty_array (field schema "oneOf") = Elements members
  ∨ (nonempty_array (field schema "oneOf") = NoElements
     ∧ nonempty_array (field schema "anyOf") = Elements members) →
  ∃ member w1,
    In member members
    ∧ visitedRefs w1 = visitedRefs w
    ∧ generateFromSchema spec (S fuel) schema w
      = generateFromSchema spec fuel member w1.
Proof.
  intros Hschema Href Hchoice.
  assert (members ≠ []) as Hne.
  { intros ->. destruct Hchoice as [H|[_ H]]; revert H; unfold nonempty_array;
      repeat case_match; discriminate. }
  destruct (helpers_arrayElement_returns members w Hne)
    as (member & w1 & Hpick & Hvisited & Hin).
  exists member, w1. split; [done|]. split; [done|].
  cbn [generateFromSchema]. rewrite Hschema, Href. cbn [negb].
  destruct Hchoice as [-> | [-> ->]]; unfold bind; by rewrite Hpick.
Qed.

(** The theorem at [eitherSchema], whose [type] is not read. *)
Lemma choice_generates_one_member_witness :
  ∃ member w1,
    In member [JObj [("type", JStr "boolean")]; JObj [("type", JStr "string")]]
    ∧ visitedRefs w1 = ∅
    ∧ generateFromSchema JUndefined 2 eitherSchema (mkWorld ∅ [3; 1])
      = generateFromSchema JUndefined 1 member w1.
Proof.
  exact (choice_generates_one_member JUndefined eitherSchema
           [JObj [("type", JStr "boolean")]; JObj [("type", JStr "string")]]
           1 (mkWorld ∅ [3; 1]) eq_refl eq_refl (or_introl eq_refl)).
Defined.

(** A generator made without a document ([new DataGenerator()]) answers
    every reference string with the empty object: nothing is resolved,
    nothing is raised, and the visited set and the random source are left
    alone. *)
Lemma reference_without_document_gives_empty_object (spec schema : JS)
    (r : string) (fuel : nat) (w : World) :
  truthy spec = false →
  truthy schema = true →
  field schema "$ref" = JStr r →
  truthy (JStr r) = true →
  generateFromSchema spec (S (S fuel)) schema w = Ok (JObj []) w.
Proof.
  intros Hspec Hschema Href Hr.
  cbn [generateFromSchema]. rewrite Hschema, Href, Hr. cbn [negb].
  unfold bind at 1.
  destruct (twin (JStr r) (visitedRefs w)) eqn:Hin.
  - by rewrite ResolveFacts.resolveRef_member.
  - by rewrite ResolveFacts.resolveRef_without_document.
Qed.

Lemma lookup_spread_into_absent (k : string) (b a : list (string * JS)) :
  lookup_field k b = None →
  lookup_field k (spread_into a b) = lookup_field k a.
Proof.
  unfold spread_into. revert a.
  induction b as [|[k' v'] b IH]; intros a; [done|]. simpl.
  destruct (String.eqb_spec k k') as [->|Hne]; [discriminate|].
  intros H. rewrite (IH _ H). by apply lookup_set_field_ne.
Qed.

Lemma mergeStep_plain (merged b : list (string * JS)) (w : World) :
  lookup_field "properties" b = None →
  lookup_field "required" b = None →
  mergeStep merged (JObj b) w = Ok (spread_into merged b) w.
Proof.
  intros Hprops Hreq.
  unfold mergeStep, bind, read, get, ret.
  rewrite Hprops, Hreq. cbn [default truthy andb].
  by rewrite andb_false_r.
Qed.

Lemma mergeLoop_plain (rest : list (list (string * JS))) :
  Forall (fun b => lookup_field "properties" b = None
                   ∧ lookup_field "required" b = None) rest →
  ∀ merged w,
    mergeLoop merged (map JObj rest) w
    = Ok (fold_left spread_into rest merged) w
    ∧ lookup_field "properties" (fold_left spread_into rest merged)
      = lookup_field "properties" merged
    ∧ lookup_field "required" (fold_left spread_into rest merged)
      = lookup_field "required" merged.
Proof.
  induction 1 as [|b rest [Hprops Hreq] _ IH]; intros merged w; [done|].
  cbn [map mergeLoop fold_left]. unfold bind.
  rewrite mergeStep_plain by done.
  destruct (IH (spread_into merged b) w) as (-> & Hp & Hr).
  by rewrite Hp, Hr, !lookup_spread_into_absent.
Qed.

(** X15. Merging the members of an [allOf] of which only the first declares
    [properties] or [required]: the result is the first member with the
    keywords of the later ones written over it in turn, and the
    [properties] and [required] of the first member are kept as they
    are. *)
Theorem merge_keeps_properties_the_later_members_lack
    (a : list (string * JS)) (rest : list (list (string * JS))) (w : World) :
  rest ≠ [] →
  Forall (fun b => lookup_field "properties" b = None
                   ∧ lookup_field "required" b = None) rest →
  mergeSchemas (JObj a :: map JObj rest) w
  = Ok (JObj (fold_left spread_into rest a)) w
  ∧ lookup_field "properties" (fold_left spread_into rest a)
    = lookup_field "properties" a
  ∧ lookup_field "required" (fold_left spread_into rest a)
    = lookup_field "required" a.
Proof.
  intros Hne Hrest.
  destruct (mergeLoop_plain rest Hrest a w) as (Hloop & Hprops & Hreq).
  split; [|done].
  destruct rest as [|b rest]; [done|].
  unfold mergeSchemas. cbn [map]. cbn [map] in Hloop.
  unfold bind. cbn [object_entries]. by rewrite Hloop.
Qed.

(** The theorem at [{properties:{x}, required:["x"]}], [{description}] and
    [{title}]. *)
Lemma merge_keeps_properties_the_later_members_lack_witness :
  mergeSchemas
    [JObj [("properties", JObj [("x", JObj [("type", JStr "string")])]);
           ("required", JArr [JStr "x"])];
     JObj [("description", JStr "named")];
     JObj [("title", JStr "T")]] (mkWorld ∅ [])
  = Ok (JObj [("properties", JObj [("x", JObj [("type", JStr "string")])]);
              ("required", JArr [JStr "x"]);
              ("description", JStr "named");
              ("title", JStr "T")]) (mkWorld ∅ []).
Proof.
  refine (proj1 (merge_keeps_properties_the_later_members_lack
                   [("properties", JObj [("x", JObj [("type", JStr "string")])]);
                    ("required", JArr [JStr "x"])]
                   [[("description", JStr "named")]; [("title", JStr "T")]]
                   (mkWorld ∅ []) _ _)).
  - discriminate.
  - repeat constructor.
Defined.

End GeneratorMoreFacts.

(** * Facts about letter case *)
Module CaseFacts.
Import Js Keyword TemplateEngine JsText ParserVocabulary CatalogVocabulary.
Import TemplateFacts TextFacts.

Lemma upper_of_lower_letter (c : ascii) :
  is_lower_letter (lower_char c) = true →
  upper_char c
  = Some (String (ascii_of_nat (nat_of_ascii (lower_char c) - 32)) EmptyString).
Proof.
  destruct c as [[] [] [] [] [] [] [] []]; vm_compute; intros; done.
Qed.

Lemma lower_of_upper_letter (c : ascii) (u : string) :
  upper_char c = Some u →
  u = "SS"
  ∨ ∃ x, u = String x EmptyString
         ∧ (is_upper_letter x = true
            → lower_char c = ascii_of_nat (nat_of_ascii x + 32)).
Proof.
  intros H.
  destruct c as [[] [] [] [] [] [] [] []]; vm_compute in H;
    first [discriminate H | injection H as <-];
    first [by left | right; eexists; split; [reflexivity|]; vm_compute; intros; done].
Qed.

(** A text whose lower case is made of a-z has its capitals inside the
    alphabet, and they are the capitals of its lower case. *)
Lemma toUpperCase_of_lower (m : string) :
  all_chars is_lower_letter (toLowerCase m) = true →
  toUpperCase m = Some (capitals (toLowerCase m)).
Proof.
  induction m as [|c m IH]; [done|]. cbn [toLowerCase all_chars toUpperCase capitals].
  intros H. apply andb_prop in H as [Hc Hm].
  by rewrite (upper_of_lower_letter c Hc), (IH Hm).
Qed.

(** A text whose capitals are made of A-Z without two S in a row has the
    lower case of those capitals. *)
Lemma toLowerCase_of_upper (m : string) :
  ∀ U, toUpperCase m = Some U →
    all_chars is_upper_letter U = true →
    string_includes U "SS" = false →
    toLowerCase m = smalls U.
Proof.
  induction m as [|c m IH]; intros U; cbn [toUpperCase].
  - by intros [= <-].
  - destruct (upper_char c) as [u|] eqn:Ec; [|done].
    destruct (toUpperCase m) as [r|] eqn:Em; [|done].
    intros [= <-] Hall Hss.
    destruct (lower_of_upper_letter c u Ec) as [->|(x & -> & Hx)].
    + exfalso. revert Hss. rewrite !append_cons, append_empty.
      cbn [string_includes]. destruct r; done.
    + rewrite append_cons, append_empty in *. cbn [all_chars] in Hall.
      apply andb_prop in Hall as [Hupper Hr].
      cbn [string_includes] in Hss. apply orb_false_elim in Hss as [_ Hss].
      cbn [toLowerCase smalls]. by rewrite (Hx Hupper), (IH r eq_refl Hr Hss).
Qed.

End CaseFacts.

(** * Facts about the parser *)
Module ParserFacts.
Import Js Keyword TemplateEngine TemplateVocabulary JsText OpenAPIParser.
Import ParserVocabulary CatalogVocabulary TemplateFacts TextFacts.

(** ** [normalizePath] *)

Lemma normalizeFrom_skip (a b : string) (n : nat) :
  normalizeFrom (String.length a + n) (a +:+ b) = normalizeFrom n b.
Proof.
  induction a as [|c a IH]; [done|]. rewrite append_cons. simpl. exact IH.
Qed.

Lemma matchParam_not_open (c : ascii) (rest : string) :
  Ascii.eqb c "{" = false → matchParam (String c rest) = None.
Proof. intros H. unfold matchParam. by rewrite H. Qed.

Lemma matchParam_parameter (name post : string) :
  name ≠ EmptyString → no_close name = true →
  matchParam ("{" +:+ name +:+ "}" +:+ post)
  = Some (name, 2 + String.length name)%nat.
Proof.
  intros Hne Hclose.
  change ("{" +:+ name +:+ "}" +:+ post)
    with (String "{" (name +:+ String "}" post)).
  unfold matchParam. cbn [Ascii.eqb Bool.eqb].
  rewrite takeTemplate_until_close by done.
  destruct name; [done|reflexivity].
Qed.

Lemma normalizeFrom_literal (pre s : string) :
  no_open pre = true →
  normalizeFrom 0 (pre +:+ s) = pre +:+ normalizeFrom 0 s.
Proof.
  intros Hopen. induction pre as [|c pre IH]; [done|].
  rewrite !append_cons. cbn [normalizeFrom].
  simpl in Hopen. apply andb_prop in Hopen as [Hc Hpre].
  apply negb_true_iff in Hc. rewrite (matchParam_not_open _ _ Hc).
  by rewrite (IH Hpre).
Qed.

Lemma normalizeFrom_parameter (name post : string) :
  name ≠ EmptyString → no_close name = true →
  normalizeFrom 0 ("{" +:+ name +:+ "}" +:+ post)
  = ":" +:+ name +:+ normalizeFrom 0 post.
Proof.
  intros Hne Hclose.
  pose proof (matchParam_parameter name post Hne Hclose) as Hmatch.
  change ("{" +:+ name +:+ "}" +:+ post)
    with (String "{" (name +:+ "}" +:+ post)) in *.
  cbn [normalizeFrom]. rewrite Hmatch.
  replace (2 + String.length name - 1)%nat
    with (String.length (name +:+ "}") + 0)%nat
    by (rewrite length_append; simpl; lia).
  replace (name +:+ "}" +:+ post) with ((name +:+ "}") +:+ post)
    by (by rewrite append_assoc).
  by rewrite normalizeFrom_skip.
Qed.

(** X16. A path parameter in braces becomes a colon and its name, as Express
    writes route parameters: the text before it, free of opening braces, is
    copied, and the text after it is normalized in turn; a path without
    opening braces is left as it is. *)
Theorem path_parameter_becomes_colon_name (pre name post : string) :
  no_open pre = true →
  name ≠ EmptyString →
  no_close name = true →
  normalizePath (pre +:+ "{" +:+ name +:+ "}" +:+ post)
  = pre +:+ ":" +:+ name +:+ normalizePath post
  ∧ normalizePath pre = pre.
Proof.
  intros Hopen Hne Hclose. unfold normalizePath. split.
  - by rewrite normalizeFrom_literal, normalizeFrom_parameter.
  - rewrite <- (append_empty_r pre) at 1.
    rewrite normalizeFrom_literal by done. apply append_empty_r.
Qed.

(** The theorem at [/users/{id}/posts]. *)
Lemma path_parameter_becomes_colon_name_witness :
  normalizePath "/users/{id}/posts" = "/users/:id/posts".
Proof.
  exact (proj1 (path_parameter_becomes_colon_name "/users/" "id" "/posts"
                  eq_refl ltac:(discriminate) eq_refl)).
Defined.

(** ** [parseEndpoints] *)

Lemma method_key_capitals (key : string) :
  existsb (String.eqb (toLowerCase key)) httpMethods = true →
  ∃ upper, toUpperCase key = Some upper
           ∧ In upper Validators.validMethods
           ∧ Validators.isValidHttpMethod upper = true.
Proof.
  intros H. apply existsb_exists in H as (label & Hin & Heq).
  apply String.eqb_eq in Heq.
  assert (all_chars is_lower_letter (toLowerCase key) = true) as Hlower.
  { rewrite Heq. unfold httpMethods in Hin.
    repeat (destruct Hin as [<-|Hin]; [reflexivity|]). destruct Hin. }
  exists (capitals (toLowerCase key)).
  split; [by apply CaseFacts.toUpperCase_of_lower|].
  rewrite Heq. unfold httpMethods in Hin.
  repeat (destruct Hin as [<-|Hin]; [split; vm_compute; tauto|]). destruct Hin.
Qed.

(** The inner loop: what it appends, for the entries of one path item. *)
Lemma parseOperations_appends (p : string) (entries : list (string * JS)) :
  ∀ endpoints result,
    parseOperations p entries endpoints = inr result →
    ∃ added,
      result = endpoints ++ added
      ∧ Forall (fun e => In (method e) Validators.validMethods
                         ∧ Validators.isValidHttpMethod (method e) = true
                         ∧ path e = normalizePath p
                         ∧ extractResponseSchema (operation e)
                           = inr (responseSchema e)) added
      ∧ map (fun e => (path e, operation e)) added
        = map (fun kv => (normalizePath p, snd kv))
              (List.filter names_method entries).
Proof.
  induction entries as [|[key op] rest IH]; intros endpoints result;
    cbn [parseOperations].
  - intros [= <-]. exists []. by rewrite app_nil_r.
  - cbn [List.filter]. unfold names_method at 1. cbn [fst].
    destruct (existsb (String.eqb (toLowerCase key)) httpMethods) eqn:E;
      cbn [negb]; [|apply IH].
    destruct (method_key_capitals key E) as (upper & Hupper & Hin & Hvalid).
    unfold and_then. destruct (extractResponseSchema op) as [|schema] eqn:Es;
      [done|].
    rewrite Hupper. intros Hrun.
    destruct (IH _ _ Hrun) as (added & -> & Hall & Hmap).
    exists (mkEndpoint (normalizePath p) upper op schema :: added).
    split; [by rewrite <- app_assoc|]. split.
    + constructor; [|done]. simpl. auto.
    + simpl. by rewrite Hmap.
Qed.

Lemma parsePaths_appends (entries : list (string * JS)) :
  ∀ endpoints result,
    parsePaths entries endpoints = inr result →
    ∃ added,
      result = endpoints ++ added
      ∧ Forall (fun e => In (method e) Validators.validMethods
                         ∧ Validators.isValidHttpMethod (method e) = true
                         ∧ (∃ p item, In (p, item) entries
                                      ∧ path e = normalizePath p)
                         ∧ extractResponseSchema (operation e)
                           = inr (responseSchema e)) added
      ∧ map (fun e => (path e, operation e)) added
        = flat_map
            (fun entry =>
               map (fun kv => (normalizePath (fst entry), snd kv))
                   (method_keys (snd entry)))
            entries.
Proof.
  induction entries as [|[p item] rest IH]; intros endpoints result;
    cbn [parsePaths].
  - intros [= <-]. exists []. by rewrite app_nil_r.
  - unfold and_then at 1. destruct (entries_of item) as [|operations] eqn:Ei;
      [done|].
    unfold and_then.
    destruct (parseOperations p operations endpoints) as [|mid] eqn:Eo; [done|].
    intros Hrun.
    destruct (parseOperations_appends _ _ _ _ Eo) as (first & -> & Hfirst & Hmap1).
    destruct (IH _ _ Hrun) as (more & -> & Hmore & Hmap2).
    exists (first ++ more). split; [by rewrite app_assoc|]. split.
    + apply Forall_app. split.
      * eapply Forall_impl; [exact Hfirst|].
        intros e (? & ? & ? & ?). repeat split; try done.
        exists p, item. split; [by left|done].
      * eapply Forall_impl; [exact Hmore|].
        intros e (? & ? & (p' & item' & ? & ?) & ?). repeat split; try done.
        exists p', item'. split; [by right|done].
    + rewrite map_app, Hmap1, Hmap2. cbn [flat_map fst snd]. f_equal.
      unfold method_keys. destruct item; try done; by injection Ei as <-.
Qed.

(** X17. Every endpoint that [parseEndpoints] returns carries one of the seven
    HTTP methods in capitals, a method that [isValidHttpMethod] accepts; its
    path is a path of the document, normalized; and its schema is the one
    that [extractResponseSchema] finds in its operation. The endpoints come
    in document order, one for each key of a path item that names an HTTP
    method in any letter case; the other keys ([parameters], [summary], ...)
    give none. *)
Theorem parsed_endpoints_carry_http_methods (spec : JS)
    (endpoints : list ParsedEndpoint) :
  parseEndpoints spec = inr endpoints →
  Forall (fun e => In (method e) Validators.validMethods
                   ∧ Validators.isValidHttpMethod (method e) = true
                   ∧ (∃ p item, In (p, item) (declared_paths spec)
                                ∧ path e = normalizePath p)
                   ∧ extractResponseSchema (operation e)
                     = inr (responseSchema e)) endpoints
  ∧ map (fun e => (path e, operation e)) endpoints = declared_operations spec.
Proof.
  unfold parseEndpoints. destruct (truthy spec); [|done]. cbn [negb].
  intros Hrun. destruct (parsePaths_appends _ _ _ Hrun) as (added & -> & H).
  exact H.
Qed.

(** The theorem at [petSpec]. *)
Lemma parsed_endpoints_carry_http_methods_witness :
  ∃ endpoints,
    parseEndpoints petSpec = inr endpoints
    ∧ map method endpoints = ["GET"; "DELETE"; "POST"]
    ∧ map (fun e => (path e, operation e)) endpoints = declared_operations petSpec.
Proof.
  assert (∃ endpoints, parseEndpoints petSpec = inr endpoints
                       ∧ map method endpoints = ["GET"; "DELETE"; "POST"])
    as (endpoints & Hrun & Hmethods) by (vm_compute; eauto).
  exists endpoints. split; [exact Hrun|]. split; [exact Hmethods|].
  exact (proj2 (parsed_endpoints_carry_http_methods petSpec endpoints Hrun)).
Defined.

Lemma parseOperations_returns (p : string) (entries : list (string * JS)) :
  (∀ key op, In (key, op) entries →
     existsb (String.eqb (toLowerCase key)) httpMethods = true →
     is_nullish op = false) →
  ∀ endpoints, ∃ result, parseOperations p entries endpoints = inr result.
Proof.
  induction entries as [|[key op] rest IH]; intros Hops endpoints;
    cbn [parseOperations]; [by eexists|].
  assert (∀ key op, In (key, op) rest →
            existsb (String.eqb (toLowerCase key)) httpMethods = true →
            is_nullish op = false) as Hrest.
  { intros k o Hin. apply Hops. by right. }
  destruct (existsb (String.eqb (toLowerCase key)) httpMethods) eqn:E;
    cbn [negb]; [|by apply IH].
  destruct (method_key_capitals key E) as (upper & -> & _).
  pose proof (Hops key op ltac:(by left) E) as Hop.
  unfold and_then, extractResponseSchema.
  destruct op; try discriminate; cbn [get];
    repeat match goal with
           | |- context [if ?b then _ else _] => destruct b
           end; by apply IH.
Qed.

(** X18. [parseEndpoints] fails in three cases only: no document is loaded, a
    path item is [null], or an operation under a method key is [null]. On
    any other document it returns its list of endpoints. *)
Theorem parseEndpoints_returns_on_operations (spec : JS) :
  truthy spec = true →
  (∀ p item, In (p, item) (declared_paths spec) →
     is_nullish item = false
     ∧ ∀ key op, In (key, op) (method_keys item) → is_nullish op = false) →
  ∃ endpoints, parseEndpoints spec = inr endpoints.
Proof.
  intros Hspec Hwell. unfold parseEndpoints. rewrite Hspec. cbn [negb].
  fold (declared_paths spec).
  assert (∀ entries endpoints,
            (∀ p item, In (p, item) entries → In (p, item) (declared_paths spec)) →
            ∃ result, parsePaths entries endpoints = inr result) as Hloop.
  { induction entries as [|[p item] rest IH]; intros endpoints Hsub;
      cbn [parsePaths]; [by eexists|].
    destruct (Hwell p item (Hsub _ _ ltac:(by left))) as [Hitem Hops].
    assert (entries_of item = inr (object_entries item)) as ->
      by (by destruct item).
    unfold and_then at 1.
    destruct (parseOperations_returns p (object_entries item)) with (endpoints := endpoints)
      as [mid Hmid].
    { intros key op Hin Hkey. apply (Hops key op). unfold method_keys.
      apply filter_In. by split. }
    unfold and_then. rewrite Hmid. apply IH.
    intros p' item' Hin. apply Hsub. by right. }
  by apply Hloop.
Qed.

(** The theorem at [petSpec]. *)
Lemma parseEndpoints_returns_on_operations_witness :
  ∃ endpoints, parseEndpoints petSpec = inr endpoints.
Proof.
  refine (parseEndpoints_returns_on_operations petSpec eq_refl _).
  intros p item Hin. vm_compute in Hin.
  destruct Hin as [[= <- <-]|[[= <- <-]|[]]].
  - split; [reflexivity|]. intros key op Hop. vm_compute in Hop.
    destruct Hop as [[= <- <-]|[[= <- <-]|[]]]; reflexivity.
  - split; [reflexivity|]. intros key op Hop. vm_compute in Hop.
    destruct Hop as [[= <- <-]|[]]; reflexivity.
Defined.

(** ** [extractResponseSchema] *)

Lemma lookup_field_In {V : Type} (k : string) (v : V) (fs : list (string * V)) :
  lookup_field k fs = Some v → In (k, v) fs.
Proof.
  induction fs as [|[k' v'] fs IH]; [done|]. simpl.
  destruct (String.eqb_spec k k') as [->|_]; [intros [= ->]; by left|].
  intros H. right. by apply IH.
Qed.

Lemma parse_index_prints_back (k : string) (i : nat) :
  parse_index k = Some i → nat_to_string i = k.
Proof.
  unfold parse_index. destruct k; [done|].
  destruct (digits_value _ 0) as [n|]; [|done].
  destruct (String.eqb_spec (nat_to_string n) (String a k)); [|done].
  by intros [= <-].
Qed.

Lemma indexed_In (l : list JS) (k : string) (i : nat) :
  parse_index k = Some i → truthy (nth i l JUndefined) = true →
  In (k, nth i l JUndefined) (indexed l).
Proof.
  intros Hk Htruthy. apply parse_index_prints_back in Hk as <-.
  apply list_elem_of_In, list_elem_of_lookup. exists i. unfold indexed.
  rewrite list_lookup_imap, nth_lookup.
  destruct (l !! i) as [x|] eqn:E; [done|].
  by rewrite nth_lookup, E in Htruthy.
Qed.

(** A truthy member read by a key other than [length] is an own entry. *)
Lemma truthy_field_is_an_entry (v : JS) (k : string) :
  k ≠ "length" → truthy (field v k) = true →
  In (k, field v k) (object_entries v).
Proof.
  intros Hk. apply String.eqb_neq in Hk. unfold field, get.
  destruct v as [| | | |s|l|fs]; try done; cbn [object_entries].
  - rewrite Hk. destruct (parse_index k) as [i|] eqn:E; [|done].
    cbn [default]. by apply indexed_In.
  - rewrite Hk. destruct (parse_index k) as [i|] eqn:E; [|done].
    cbn [default]. by apply indexed_In.
  - destruct (lookup_field k fs) as [x|] eqn:E; [|done].
    intros _. by apply lookup_field_In.
Qed.

Lemma truthy_optional (v : JS) (k : string) :
  truthy (optional v k) = true → truthy v = true ∧ optional v k = field v k.
Proof.
  destruct v as [| |b|q|s|l|fs]; try done.
  destruct s as [|c s]; [|done]. unfold optional, field, get.
  destruct (String.eqb k "length"); [done|].
  destruct (parse_index k) as [i|]; [|done]. by destruct i.
Qed.

Lemma truthy_field (v : JS) (k : string) :
  truthy (field v k) = true → truthy v = true.
Proof.
  intros H. destruct v as [| |b|q|s|l|fs]; try done.
  by apply (truthy_optional (JStr s) k).
Qed.

Lemma optional_is_field (v : JS) (k : string) :
  optional v k = JUndefined ∨ optional v k = field v k.
Proof. destruct v; auto. Qed.

Lemma first_value_is_an_entry (v : JS) :
  first_value v = JUndefined
  ∨ ∃ k, In (k, first_value v) (object_entries v).
Proof.
  unfold first_value. destruct (object_entries v) as [|[k x] rest]; [by left|].
  right. exists k. by left.
Qed.

(** X19. The schema that [extractResponseSchema] returns is [undefined] or is
    found in the operation: it is the [schema] of one of the responses, or
    the [schema] of one of the media types of a response. Nothing else is
    ever returned. *)
Theorem extracted_schema_comes_from_a_response (operation v : JS) :
  extractResponseSchema operation = inr v →
  v = JUndefined
  ∨ schema_of_a_response (or_else (field operation "responses") (JObj [])) v.
Proof.
  unfold extractResponseSchema.
  destruct (get operation "responses") as [declared|] eqn:Hget; [|done].
  replace (field operation "responses") with declared
    by (unfold field; by rewrite Hget).
  cbv zeta. set (responses := or_else declared (JObj [])).
  set (success := or_else (or_else (field responses "200") (field responses "201"))
                          (field responses "204")).
  assert (truthy success = true →
          ∃ code, In (code, success) (object_entries responses)) as Hsuccess.
  { unfold success, or_else.
    destruct (truthy (field responses "200")) eqn:E200.
    - rewrite E200. intros _. exists "200".
      by apply truthy_field_is_an_entry.
    - destruct (truthy (field responses "201")) eqn:E201.
      + intros _. exists "201". by apply truthy_field_is_an_entry.
      + intros H. exists "204". by apply truthy_field_is_an_entry. }
  assert (∀ response code,
            In (code, response) (object_entries responses) →
            ∀ x, x = field response "schema" →
                 schema_of_a_response responses x) as Hown.
  { intros response code Hin x ->. exists code, response. auto. }
  assert (∀ response code body media,
            In (code, response) (object_entries responses) →
            In (media, body) (object_entries (field response "content")) →
            schema_of_a_response responses (field body "schema")) as Hmedia.
  { intros response code body media Hin Hbody. exists code, response.
    split; [done|]. right. by exists media, body. }
  assert (let firstResponse := first_value responses in
          let fromFirst :=
            if truthy (optional firstResponse "content") then
              let jsonContent :=
                field (field firstResponse "content") "application/json" in
              if truthy (optional jsonContent "schema")
              then field jsonContent "schema"
              else optional firstResponse "schema"
            else optional firstResponse "schema" in
          fromFirst = JUndefined ∨ schema_of_a_response responses fromFirst)
    as Hfirst.
  { intros firstResponse fromFirst. unfold fromFirst.
    destruct (first_value_is_an_entry responses) as [Hnone|[code Hin]];
      fold firstResponse in Hnone || fold firstResponse in Hin.
    - rewrite Hnone. by left.
    - assert (optional firstResponse "schema" = JUndefined
              ∨ schema_of_a_response responses (optional firstResponse "schema"))
        as Hschema.
      { destruct (optional_is_field firstResponse "schema") as [->| ->];
          [by left|right]. by eapply Hown. }
      destruct (truthy (optional firstResponse "content")) eqn:Ec; [|done].
      destruct (truthy (optional _ "schema")) eqn:Es; [|done].
      right. apply truthy_optional in Es as [Hjson _].
      eapply Hmedia; [exact Hin|].
      by apply truthy_field_is_an_entry. }
  cbv zeta in Hfirst.
  destruct (truthy success) eqn:Esuccess; [|intros [= <-]; exact Hfirst].
  destruct (Hsuccess eq_refl) as [code Hin].
  destruct (truthy (field success "content")) eqn:Econtent.
  - destruct (truthy (optional (field (field success "content")
                                         "application/json") "schema")) eqn:Es.
    + intros [= <-]. right. apply truthy_optional in Es as [Hjson _].
      eapply Hmedia; [exact Hin|]. by apply truthy_field_is_an_entry.
    + intros [= <-].
      destruct (first_value_is_an_entry (field success "content"))
        as [->|[media Hbody]]; [by left|].
      destruct (optional_is_field (first_value (field success "content")) "schema")
        as [->| ->]; [by left|right].
      by eapply Hmedia.
  - destruct (truthy (field success "schema")) eqn:Eschema.
    + intros [= <-]. right. by eapply Hown.
    + intros [= <-]. exact Hfirst.
Qed.

(** The theorem at [listOperation]. *)
Lemma extracted_schema_comes_from_a_response_witness :
  JStr "json" = JUndefined
  ∨ schema_of_a_response
      (or_else (field listOperation "responses") (JObj [])) (JStr "json").
Proof.
  exact (extracted_schema_comes_from_a_response listOperation (JStr "json")
           eq_refl).
Defined.

(** X20. The JSON schema of the first of the responses 200, 201, 204 that is
    there wins: when that response holds a truthy
    [content["application/json"].schema], this schema is returned, whatever
    other media types and other responses the operation lists and in
    whatever order. *)
Theorem json_schema_of_success_response_wins (operation responses schema : JS) :
  get operation "responses" = Some responses →
  truthy responses = true →
  let successResponse :=
    or_else (or_else (field responses "200") (field responses "201"))
            (field responses "204") in
  truthy successResponse = true →
  field (field (field successResponse "content") "application/json") "schema"
  = schema →
  truthy schema = true →
  extractResponseSchema operation = inr schema.
Proof.
  intros Hget Hresponses success Hsuccess Hschema Htruthy.
  unfold extractResponseSchema. rewrite Hget. cbv zeta.
  replace (or_else responses (JObj [])) with responses
    by (unfold or_else; by rewrite Hresponses).
  fold success. rewrite Hsuccess.
  rewrite <- Hschema in Htruthy.
  pose proof (truthy_field _ _ Htruthy) as Hjson.
  pose proof (truthy_field _ _ Hjson) as Hcontent.
  rewrite Hcontent.
  assert (optional (field (field success "content") "application/json") "schema"
          = field (field (field success "content") "application/json") "schema")
    as ->.
  { by destruct (field (field success "content") "application/json"). }
  by rewrite Htruthy, Hschema.
Qed.

(** The theorem at [listOperation], where XML is listed first. *)
Lemma json_schema_of_success_response_wins_witness :
  extractResponseSchema listOperation = inr (JStr "json").
Proof.
  exact (json_schema_of_success_response_wins listOperation
           (field listOperation "responses") (JStr "json")
           eq_refl eq_refl eq_refl eq_refl eq_refl).
Defined.

End ParserFacts.

(** * Facts about the validators *)
Module ValidatorsFacts.
Import Js Keyword TemplateEngine JsText OpenAPIParser Validators.
Import ParserVocabulary CatalogVocabulary TemplateFacts TextFacts CaseFacts.

(** ** [trim] *)

Lemma trimStart_solid_start (s : string) : solid_start (trimStart s) = true.
Proof.
  induction s as [|c s IH]; [done|]. simpl.
  destruct (is_whitespace c) eqn:E; [done|]. simpl. by rewrite E.
Qed.

Lemma trimStart_of_solid (s : string) : solid_start s = true → trimStart s = s.
Proof.
  destruct s as [|c s]; [done|]. simpl. intros H.
  apply negb_true_iff in H. by rewrite H.
Qed.

Lemma trimEnd_keeps_solid_start (s : string) :
  solid_start s = true → solid_start (trimEnd s) = true.
Proof.
  destruct s as [|c s]; [done|]. simpl. intros H.
  apply negb_true_iff in H. rewrite H. by destruct (trimEnd s); simpl; rewrite H.
Qed.

Lemma trimEnd_idempotent (s : string) : trimEnd (trimEnd s) = trimEnd s.
Proof.
  induction s as [|c s IH]; [done|]. cbn [trimEnd].
  destruct (trimEnd s) as [|k kept] eqn:E.
  - destruct (is_whitespace c) eqn:Ec; [done|]. simpl. by rewrite Ec.
  - cbn [trimEnd]. cbn [trimEnd] in IH. by rewrite IH.
Qed.

Lemma trim_idempotent (s : string) : trim (trim s) = trim s.
Proof.
  unfold trim. rewrite (trimStart_of_solid (trimEnd (trimStart s))).
  - apply trimEnd_idempotent.
  - apply trimEnd_keeps_solid_start, trimStart_solid_start.
Qed.

Lemma length_trimStart (s : string) :
  String.length (trimStart s) ≤ String.length s.
Proof.
  induction s as [|c s IH]; [done|]. simpl.
  destruct (is_whitespace c); simpl; lia.
Qed.

Lemma length_trimEnd (s : string) :
  String.length (trimEnd s) ≤ String.length s.
Proof.
  induction s as [|c s IH]; [done|]. simpl.
  destruct (trimEnd s); [destruct (is_whitespace c)|]; simpl in *; lia.
Qed.

(** ** Character classes *)

Lemma has_char_trimStart (test : ascii → bool) (s : string) :
  has_char test s = false → has_char test (trimStart s) = false.
Proof.
  induction s as [|c s IH]; [done|]. simpl. intros H.
  apply orb_false_elim in H as [Hc Hs].
  destruct (is_whitespace c); [by apply IH|]. simpl. by rewrite Hc, Hs.
Qed.

Lemma has_char_trimEnd (test : ascii → bool) (s : string) :
  has_char test s = false → has_char test (trimEnd s) = false.
Proof.
  induction s as [|c s IH]; [done|]. simpl. intros H.
  apply orb_false_elim in H as [Hc Hs]. specialize (IH Hs).
  destruct (trimEnd s); [destruct (is_whitespace c)|]; simpl in *;
    by rewrite ?Hc, ?IH.
Qed.

Lemma has_char_remove_chars (test : ascii → bool) (s : string) :
  has_char test (remove_chars test s) = false.
Proof.
  induction s as [|c s IH]; [done|]. simpl.
  destruct (test c) eqn:E; [done|]. simpl. by rewrite E, IH.
Qed.

Lemma remove_chars_of_clean (test : ascii → bool) (s : string) :
  has_char test s = false → remove_chars test s = s.
Proof.
  induction s as [|c s IH]; [done|]. simpl. intros H.
  apply orb_false_elim in H as [Hc Hs]. by rewrite Hc, (IH Hs).
Qed.

Lemma length_remove_chars (test : ascii → bool) (s : string) :
  String.length (remove_chars test s) ≤ String.length s.
Proof.
  induction s as [|c s IH]; [done|]. simpl. destruct (test c); simpl; lia.
Qed.

Lemma sanitizeString_clean (str : JS) :
  has_char is_dangerous (sanitizeString str) = false.
Proof.
  destruct str; try done. unfold sanitizeString, trim.
  apply has_char_trimEnd, has_char_trimStart, has_char_remove_chars.
Qed.

(** X21. [sanitizeString] returns a text without any of the five dangerous
    characters and without white space at either end; sanitizing it again
    changes nothing; and the text is never longer than the argument (the
    empty text for an argument that is not a string). *)
Theorem sanitizeString_is_clean_and_idempotent (str : JS) :
  let s := sanitizeString str in
  has_char is_dangerous s = false
  ∧ trim s = s
  ∧ sanitizeString (JStr s) = s
  ∧ String.length s
    ≤ match str with JStr t => String.length t | _ => 0 end.
Proof.
  intros s. pose proof (sanitizeString_clean str) as Hclean. fold s in Hclean.
  assert (trim s = s) as Htrim.
  { unfold s. destruct str; try done. apply trim_idempotent. }
  split; [done|]. split; [done|]. split.
  - cbn [sanitizeString]. by rewrite remove_chars_of_clean.
  - unfold s. destruct str as [| | | |t| |]; try (simpl; lia).
    unfold sanitizeString, trim.
    pose proof (length_trimEnd (trimStart (remove_chars is_dangerous t))).
    pose proof (length_trimStart (remove_chars is_dangerous t)).
    pose proof (length_remove_chars is_dangerous t). lia.
Qed.

(** ** HTTP methods *)

(** X22. On texts made of code units below 256, [isValidHttpMethod] and the
    filter of [parseEndpoints] accept the same methods: such a text is a
    valid method exactly when its lower case is one of the seven labels that
    [parseEndpoints] looks for. (Beyond these code units the two differ: a
    text with the long s, U+017F, in the place of an [s] is a valid method,
    and its lower case is no label.) *)
Theorem valid_methods_are_the_parsed_ones (method : string) :
  isValidHttpMethod method
  = existsb (String.eqb (toLowerCase method)) httpMethods.
Proof.
  apply eq_true_iff_eq. split.
  - unfold isValidHttpMethod.
    destruct (toUpperCase method) as [upper|] eqn:E; [|done].
    intros H. apply existsb_exists in H as (valid & Hin & Heq).
    apply String.eqb_eq in Heq. subst valid.
    assert (all_chars is_upper_letter upper = true
            ∧ string_includes upper "SS" = false
            ∧ In (smalls upper) httpMethods) as (Hall & Hss & Hsmall).
    { unfold validMethods in Hin.
      repeat (destruct Hin as [<-|Hin]; [vm_compute; tauto|]). destruct Hin. }
    rewrite (toLowerCase_of_upper method upper E Hall Hss).
    apply existsb_exists. exists (smalls upper). split; [done|].
    apply String.eqb_refl.
  - intros H. apply existsb_exists in H as (label & Hin & Heq).
    apply String.eqb_eq in Heq.
    assert (all_chars is_lower_letter (toLowerCase method) = true
            ∧ existsb (String.eqb (capitals (toLowerCase method))) validMethods
              = true) as [Hall Hvalid].
    { rewrite Heq. unfold httpMethods in Hin.
      repeat (destruct Hin as [<-|Hin]; [vm_compute; tauto|]). destruct Hin. }
    unfold isValidHttpMethod. by rewrite (toUpperCase_of_lower method Hall).
Qed.

(** ** File paths *)

Lemma prefix_append (key rest : string) : String.prefix key (key +:+ rest) = true.
Proof.
  induction key as [|c key IH]; [by destruct rest|].
  rewrite append_cons. cbn [String.prefix].
  by destruct (ascii_dec c c).
Qed.

Lemma string_includes_middle (a key b : string) :
  string_includes (a +:+ key +:+ b) key = true.
Proof.
  induction a as [|c a IH].
  - rewrite append_empty. destruct (key +:+ b) eqn:E;
      cbn [string_includes]; rewrite <- E, prefix_append; done.
  - rewrite append_cons. cbn [string_includes]. rewrite IH. apply orb_true_r.
Qed.

(** X23. A path that [isValidFilePath] accepts is not empty, holds neither two
    dots in a row nor two slashes in a row anywhere (so no [..] segment, and
    no name such as [a..b] either), holds none of the characters reserved on
    Windows, and, when a non-empty base path is given, resolves to a text
    that begins with the resolved base. *)
Theorem valid_file_path_cannot_climb (resolve : string → string)
    (p : string) (basePath : option string) :
  isValidFilePath resolve (JStr p) basePath = true →
  p ≠ EmptyString
  ∧ (∀ a b, p ≠ a +:+ ".." +:+ b)
  ∧ (∀ a b, p ≠ a +:+ "//" +:+ b)
  ∧ has_char is_windows_reserved p = false
  ∧ (∀ base, basePath = Some base → base ≠ EmptyString →
       String.prefix (resolve base) (resolve p) = true).
Proof.
  unfold isValidFilePath.
  destruct (String.eqb_spec p EmptyString) as [|Hne]; [done|].
  destruct (existsb _ dangerousPatterns) eqn:Hbad; [done|].
  cbn [existsb dangerousPatterns] in Hbad.
  apply orb_false_elim in Hbad as [Hdots Hbad].
  apply orb_false_elim in Hbad as [Hslashes Hbad].
  apply orb_false_elim in Hbad as [_ Hbad].
  apply orb_false_elim in Hbad as [Hreserved _].
  intros Hbase. split; [done|]. split; [|split; [|split; [done|]]].
  - intros a b ->. by rewrite string_includes_middle in Hdots.
  - intros a b ->. by rewrite string_includes_middle in Hslashes.
  - intros base -> Hbase'.
    by destruct (String.eqb_spec base EmptyString).
Qed.

(** The theorem at [specs/api.yaml] under the base [specs]. *)
Lemma valid_file_path_cannot_climb_witness :
  "specs/api.yaml" ≠ "specs/" +:+ ".." +:+ "/api.yaml"
  ∧ String.prefix "/srv/specs" "/srv/specs/api.yaml" = true.
Proof.
  destruct (valid_file_path_cannot_climb (fun p => "/srv/" +:+ p)
              "specs/api.yaml" (Some "specs") eq_refl)
    as (_ & Hdots & _ & _ & Hbase).
  split; [apply Hdots|]. apply (Hbase "specs" eq_refl). discriminate.
Defined.

End ValidatorsFacts.

(** * Facts about the server *)
Module ServerFacts.
Import Js JsFacts Keyword TemplateEngine TemplateVocabulary JsText OpenAPIParser.
Import RequestMonitor MockServer UiRoutes ServerVocabulary.
Import CatalogVocabulary TemplateFacts TextFacts ParserFacts GeneratorFacts.
Import GeneratorMoreFacts.

(** ** The history of the monitor *)

Lemma take_app_take {A} (n : nat) (a b : list A) :
  take n (a ++ take n b) = take n (a ++ b).
Proof.
  rewrite !take_app. f_equal. rewrite take_take. f_equal. lia.
Qed.

Lemma addToHistory_history (log : RequestLog) (m : Monitor) :
  history (addToHistory log m) = take maxHistorySize (log :: history m).
Proof.
  unfold addToHistory. cbn [history].
  destruct (Nat.ltb_spec maxHistorySize (length (log :: history m)));
    [done|]. by rewrite take_ge.
Qed.

Lemma after_logs_history (logs : list RequestLog) :
  ∀ m, length (history m) ≤ maxHistorySize →
       history (after_logs logs m)
       = take maxHistorySize (rev logs ++ history m).
Proof.
  unfold after_logs.
  induction logs as [|log logs IH]; intros m Hbound; cbn [fold_left rev].
  - by rewrite app_nil_l, take_ge.
  - rewrite IH.
    + rewrite addToHistory_history, take_app_take. by rewrite <- app_assoc.
    + rewrite addToHistory_history, length_take. lia.
Qed.

Lemma limit_is_between_1_and_1000 (limit : QueryValue) (history : list RequestLog) :
  ∃ n, 1 ≤ n ≤ 1000
       ∧ apiHistory limit (mkMonitor [] history) = take n history.
Proof.
  unfold apiHistory, getHistory. cbn [RequestMonitor.history].
  destruct (limitOrDefault limit) as [|z|[|]] eqn:E.
  - unfold limitOrDefault in E. destruct (parseInt _) as [|z|]; try done.
    by destruct (Z.eqb z 0).
  - exists (Z.to_nat (Z.min (Z.max 1 z) 1000)). split; [lia|done].
  - exists 1. split; [lia|done].
  - exists 1000. split; [lia|done].
Qed.

(** X24. The monitor keeps the newest thousand requests, newest first: after any
    number of requests logged into a new monitor, the history is the first
    1000 of the requests in reverse order of arrival. [GET /api/history]
    answers with the first [n] of them for some [n] between 1 and 1000,
    whatever the [limit] parameter holds (a limit of 0, or one that is not a
    number, counts as 1000). *)
Theorem history_is_the_newest_thousand (logs : list RequestLog)
    (connected : list Client) (limit : QueryValue) :
  let m := after_logs logs (mkMonitor connected []) in
  getHistory m = take 1000 (rev logs)
  ∧ length (getHistory m) ≤ 1000
  ∧ ∃ n, 1 ≤ n ≤ 1000 ∧ apiHistory limit m = take n (rev logs).
Proof.
  intros m.
  assert (getHistory m = take 1000 (rev logs)) as Hhistory.
  { unfold m, getHistory. rewrite after_logs_history by (simpl; lia).
    cbn [history]. by rewrite app_nil_r. }
  split; [done|]. split; [rewrite Hhistory, length_take; lia|].
  destruct (limit_is_between_1_and_1000 limit (getHistory m)) as (n & Hn & Hrun).
  exists n. split; [done|].
  assert (apiHistory limit m = apiHistory limit (mkMonitor [] (getHistory m)))
    as -> by done.
  rewrite Hrun, Hhistory, take_take. f_equal. lia.
Qed.

(** ** What [logRequest] keeps of a request *)

Lemma length_substring_from_start (n : nat) (s : string) :
  String.length (String.substring 0 n s) ≤ n.
Proof.
  revert s. induction n as [|n IH]; intros s.
  - destruct s; simpl; lia.
  - destruct s as [|c s]; simpl; [lia|]. specialize (IH s). lia.
Qed.

Lemma length_truncate (n : nat) (s : string) :
  String.length (truncate n s) ≤ n.
Proof.
  unfold truncate. destruct (Nat.ltb_spec n (String.length s)); [|lia].
  apply length_substring_from_start.
Qed.

Lemma length_set_text (key value : string) (obj : list (string * string)) :
  length (set_field key value obj) ≤ S (length obj).
Proof.
  induction obj as [|[k v] obj IH]; simpl; [lia|].
  destruct (String.eqb key k); simpl; lia.
Qed.

Lemma values_within_set_field (n : nat) (key value : string)
    (obj : list (string * string)) :
  String.length value ≤ n → values_within n obj →
  values_within n (set_field key value obj).
Proof.
  unfold values_within. intros Hvalue.
  induction obj as [|[k v] obj IH]; simpl; intros Hobj.
  - by constructor.
  - apply Forall_cons in Hobj as [Hv Hobj].
    destruct (String.eqb key k); constructor; auto.
Qed.

Lemma length_assign_text (key value : string) (obj : list (string * string)) :
  length (assign_key key value obj) ≤ S (length obj).
Proof.
  unfold assign_key. destruct (String.eqb key "__proto__"); [lia|].
  apply length_set_text.
Qed.

Lemma values_within_assign_key (n : nat) (key value : string)
    (obj : list (string * string)) :
  String.length value ≤ n → values_within n obj →
  values_within n (assign_key key value obj).
Proof.
  unfold assign_key. destruct (String.eqb key "__proto__"); [done|].
  apply values_within_set_field.
Qed.

Lemma safeEntries_bounded {V : Type} (text : V → string) (limit : nat)
    (entries : list (string * V)) :
  ∀ count safe,
    count ≤ limit → length safe ≤ count → values_within 1000 safe →
    length (safeEntries text limit entries count safe) ≤ limit
    ∧ values_within 1000 (safeEntries text limit entries count safe).
Proof.
  induction entries as [|[key value] rest IH]; intros count safe Hcount Hlen Hsafe;
    cbn [safeEntries].
  - split; [lia|done].
  - destruct (Nat.leb_spec limit count); [split; [lia|done]|].
    apply IH.
    + lia.
    + pose proof (length_assign_text key (truncate 1000 (text value)) safe). lia.
    + apply values_within_assign_key; [apply length_truncate|done].
Qed.

Lemma safeParams_bounded (entries : list (string * string)) :
  ∀ safe, values_within 1000 safe → values_within 1000 (safeParams entries safe).
Proof.
  induction entries as [|[key value] rest IH]; intros safe Hsafe;
    cbn [safeParams]; [done|].
  apply IH, values_within_assign_key; [apply length_truncate|done].
Qed.

Lemma broadcastTo_sends_the_message (message : Message) (remaining : list Client) :
  Forall (fun delivery => snd delivery = message)
         (snd (broadcastTo message remaining))
  ∧ ∀ client, In client (fst (broadcastTo message remaining)) →
              In client remaining.
Proof.
  induction remaining as [|client rest [IHsent IHkept]]; [by split|].
  cbn [broadcastTo]. destruct (broadcastTo message rest) as [kept sent].
  cbn [fst snd] in *.
  destruct (Nat.eqb (readyState client) OPEN); [destruct (sendRaises client)|];
    cbn [fst snd]; split; try done; try (by constructor);
    intros c Hc; simpl in *; intuition.
Qed.

(** X25. Whatever the request holds, the log that [logRequest] puts first in the
    history is bounded: a path of at most 2048 characters, at most 50
    headers and 100 query parameters, and no header, query parameter or
    route parameter of more than 1000 characters. The history stays within
    1000 entries, no client is added, and every message sent to a client
    carries this log. *)
Theorem logged_request_is_bounded (stringify : JS → option string)
    (now : Z) (requestId : string) (date : Z) (req : Request)
    (resStatusCode startTime : Z) (m : Monitor) :
  let after := logRequest stringify now requestId date req resStatusCode
                 startTime m in
  ∃ log,
    history (fst after) = take maxHistorySize (log :: history m)
    ∧ String.length (path log) ≤ 2048
    ∧ length (headers log) ≤ 50 ∧ values_within 1000 (headers log)
    ∧ length (query log) ≤ 100 ∧ values_within 1000 (query log)
    ∧ values_within 1000 (params log)
    ∧ length (history (fst after)) ≤ maxHistorySize
    ∧ (∀ client, In client (clients (fst after)) → In client (clients m))
    ∧ Forall (fun delivery => snd delivery = RequestMessage log) (snd after).
Proof.
  intros after. unfold after, logRequest, broadcast.
  match goal with
  | |- context [broadcastTo (RequestMessage ?l) _] => set (log := l)
  end.
  exists log.
  pose proof (broadcastTo_sends_the_message (RequestMessage log)
                (clients (addToHistory log m))) as [Hsent Hkept].
  destruct (broadcastTo (RequestMessage log) (clients (addToHistory log m)))
    as [kept sent].
  cbn [fst snd history clients] in *.
  destruct (safeEntries_bounded headerText 50 (reqHeaders req) 0 [])
    as [Hheaders Hheader_values]; [lia|simpl; lia|by constructor|].
  destruct (safeEntries_bounded queryText 100 (reqQuery req) 0 [])
    as [Hquery Hquery_values]; [lia|simpl; lia|by constructor|].
  rewrite addToHistory_history.
  repeat split; try done.
  - apply length_truncate.
  - unfold log. cbn [params]. destruct (reqParams req); [|by constructor].
    apply safeParams_bounded. by constructor.
  - rewrite length_take. lia.
Qed.

(** ** Registration *)

Lemma registerEndpoint_lookup (endpoints : list (string * JS))
    (endpoint : ParsedEndpoint) (key : string) :
  lookup_field key (fst (registerEndpoint endpoints endpoint))
  = match lookup_field key endpoints with
    | Some config => Some config
    | None =>
        if String.eqb (endpointKey endpoint) key
        then Some (defaultConfig endpoint)
        else None
    end.
Proof.
  unfold registerEndpoint. cbn [fst].
  destruct (String.eqb_spec (endpointKey endpoint) key) as [<-|Hne].
  - destruct (lookup_field (endpointKey endpoint) endpoints) eqn:E.
    + by rewrite E.
    + by rewrite lookup_set_field_eq.
  - destruct (lookup_field (endpointKey endpoint) endpoints) eqn:E.
    + by destruct (lookup_field key endpoints).
    + rewrite lookup_set_field_ne by done.
      by destruct (lookup_field key endpoints).
Qed.

(** X27. Registering endpoints never changes or removes a configuration that is
    already stored: after [registerEndpoints], a key that had a
    configuration still has the same one, and a key that had none has the
    default configuration ([delay] 0, [statusCode] 200) of the first endpoint
    registered under it, or still none when no endpoint has this key. *)
Theorem registration_keeps_existing_settings (endpoints : list (string * JS))
    (parsed : list ParsedEndpoint) (key : string) :
  lookup_field key (registerEndpoints endpoints parsed)
  = match lookup_field key endpoints with
    | Some config => Some config
    | None => defaultConfig <$> first_with_key key parsed
    end.
Proof.
  unfold registerEndpoints, first_with_key. revert endpoints.
  induction parsed as [|endpoint rest IH]; intros endpoints; cbn [fold_left].
  - by destruct (lookup_field key endpoints).
  - rewrite IH, registerEndpoint_lookup. cbn [List.find].
    destruct (lookup_field key endpoints); [done|].
    by destruct (String.eqb (endpointKey endpoint) key).
Qed.

(** ** The list of endpoints of the dashboard *)

(** X28. [GET /api/endpoints] cuts each key of the configuration map at its
    colons and shows the second piece as the path. A route parameter of
    Express begins with a colon, so for an endpoint whose path in the
    document holds a parameter in braces, registered under
    [method:normalized path], the path shown is only the text before the
    first parameter. *)
Theorem listing_cuts_the_path_at_its_first_parameter
    (method pre name post : string) (operation schema config : JS) :
  all_chars (is_not ":") method = true →
  all_chars (is_not ":") pre = true →
  no_open pre = true →
  name ≠ EmptyString →
  no_close name = true →
  let endpoint :=
    mkEndpoint (normalizePath (pre +:+ "{" +:+ name +:+ "}" +:+ post)) method
               operation schema in
  let listed := listEndpoint (endpointKey endpoint, config) in
  listedMethod listed = JStr method ∧ listedPath listed = JStr pre.
Proof.
  intros Hmethod Hpre Hopen Hne Hclose endpoint listed.
  unfold listed, listEndpoint, endpoint, endpointKey, normalizePath.
  cbn [fst OpenAPIParser.method OpenAPIParser.path].
  rewrite normalizeFrom_literal, normalizeFrom_parameter by done.
  replace (method +:+ ":" +:+ pre +:+ ":" +:+ name +:+ normalizeFrom 0 post)
    with (method +:+ String ":" (pre +:+ String ":" (name +:+ normalizeFrom 0 post)))
    by done.
  rewrite !split_on_first by done.
  destruct (split_on ":" (name +:+ normalizeFrom 0 post)); by split.
Qed.

(** The theorem at [GET /users/{id}]: the list shows [/users/]. *)
Lemma listing_cuts_the_path_at_its_first_parameter_witness :
  listedPath (listEndpoint (endpointKey
     (mkEndpoint (normalizePath "/users/{id}") "GET" (JObj []) JUndefined),
     JObj []))
  = JStr "/users/".
Proof.
  exact (proj2 (listing_cuts_the_path_at_its_first_parameter
                  "GET" "/users/" "id" "" (JObj []) JUndefined (JObj [])
                  eq_refl eq_refl eq_refl ltac:(discriminate) eq_refl)).
Defined.

(** ** Saving the settings of an endpoint *)

Lemma lookup_assign_if_defined (k key : string) (value : JS)
    (obj : list (string * JS)) :
  lookup_field k (assign_if_defined key value obj)
  = if String.eqb k key && is_defined value then Some value
    else lookup_field k obj.
Proof.
  unfold assign_if_defined.
  destruct (String.eqb_spec k key) as [->|Hne]; cbn [andb].
  - destruct (is_defined value); [apply lookup_set_field_eq|done].
  - destruct (is_defined value); [by apply lookup_set_field_ne|done].
Qed.

Lemma keys_set_field (k key : string) (value : JS) (obj : list (string * JS)) :
  In k (keys (set_field key value obj)) → k = key ∨ In k (keys obj).
Proof.
  induction obj as [|[k' v'] obj IH]; simpl.
  - intros [<-|[]]. by left.
  - destruct (String.eqb_spec key k') as [->|Hne]; simpl.
    + intros [<-|H]; auto.
    + intros [<-|H]; [auto|]. destruct (IH H); auto.
Qed.

Lemma keys_assign_if_defined (k key : string) (value : JS)
    (obj : list (string * JS)) :
  In k (keys (assign_if_defined key value obj)) → k = key ∨ In k (keys obj).
Proof.
  unfold assign_if_defined. destruct (is_defined value);
    [apply keys_set_field|auto].
Qed.

(** The configuration built from five members that passed their checks. *)
Lemma checked_members_are_valid (delay statusCode customResponse queueEnabled
    queueSize : JS) :
  is_defined delay && negb (Validators.isValidDelay delay) = false →
  is_defined statusCode && negb (Validators.isValidStatusCode statusCode)
  = false →
  (is_defined customResponse = true → is_container customResponse = true) →
  is_defined queueEnabled && negb (is_bool queueEnabled) = false →
  is_defined queueSize
  && negb (Validators.isInteger queueSize
           && Validators.in_range queueSize 1 100) = false →
  valid_settings
    (assign_if_defined "queueSize" queueSize
       (assign_if_defined "queueEnabled" queueEnabled
          (assign_if_defined "customResponse" customResponse
             (assign_if_defined "statusCode" statusCode
                (assign_if_defined "delay" delay []))))).
Proof.
  intros Hdelay Hstatus Hcustom Henabled Hsize. unfold valid_settings.
  repeat split;
    try (intros v; rewrite !lookup_assign_if_defined;
         cbn [String.eqb Ascii.eqb Bool.eqb andb lookup_field]).
  - destruct (is_defined delay); [|done]. intros [= <-].
    by apply negb_false_iff in Hdelay.
  - destruct (is_defined statusCode); [|done]. intros [= <-].
    by apply negb_false_iff in Hstatus.
  - destruct (is_defined customResponse); [|done]. intros [= <-].
    specialize (Hcustom eq_refl). destruct customResponse; try done; eauto.
  - destruct (is_defined queueEnabled); [|done]. intros [= <-].
    apply negb_false_iff in Henabled. destruct queueEnabled; try done. eauto.
  - destruct (is_defined queueSize); [|done]. intros [= <-].
    by apply negb_false_iff in Hsize.
  - intros key Hkey. unfold settingKeys.
    repeat (apply keys_assign_if_defined in Hkey as [->|Hkey];
            [simpl; tauto|]).
    destruct Hkey.
Qed.

(** X29. [PUT /api/endpoints/:method/:path] stores validated settings only. A
    request that is not answered with success leaves the map of
    configurations as it was. A request answered with success writes one
    entry: its key is one of the seven methods in capitals, a colon and the
    decoded path, which [isValidEndpointPath] accepts; its value holds no
    member other than [delay], [statusCode], [customResponse],
    [queueEnabled] and [queueSize], each of them, when there, valid
    ([delay] within 0..60000, [statusCode] an integer within 100..599,
    [customResponse] an object or an array, [queueEnabled] a boolean,
    [queueSize] an integer within 1..100). *)
Theorem put_stores_only_valid_settings
    (decodeURIComponent : string → option string)
    (stringify : JS → option string) (hasManager : bool)
    (paramMethod paramPath : string) (body : JS)
    (endpoints : list (string * JS)) :
  let after := putEndpoint decodeURIComponent stringify hasManager paramMethod
                 paramPath body endpoints in
  (snd after ≠ Success → fst after = endpoints)
  ∧ (snd after = Success →
     ∃ upper endpointPath config,
       fst after
       = set_field (upper +:+ ":" +:+ endpointPath) (JObj config) endpoints
       ∧ In upper Validators.validMethods
       ∧ decodeURIComponent paramPath = Some endpointPath
       ∧ Validators.isValidEndpointPath (JStr endpointPath) = true
       ∧ valid_settings config).
Proof.
  intros after. unfold after, putEndpoint.
  destruct hasManager; cbn [negb]; [|by split].
  destruct (decodeURIComponent paramPath) as [endpointPath|]; [|by split].
  destruct (Validators.isValidHttpMethod _) eqn:Hmethod; cbn [negb]; [|by split].
  destruct (Validators.isValidEndpointPath _) eqn:Hpath; cbn [negb]; [|by split].
  destruct (null_or_undefined body); [by split|]. cbv zeta.
  unfold Validators.isValidHttpMethod in Hmethod.
  destruct (toUpperCase _) as [upper|]; [|done].
  apply existsb_exists in Hmethod as (valid & Hin & Heq).
  apply String.eqb_eq in Heq. subst valid.
  destruct (is_defined (field body "delay")
            && negb (Validators.isValidDelay (field body "delay")))
    eqn:Hdelay; [by split|].
  destruct (is_defined (field body "statusCode")
            && negb (Validators.isValidStatusCode (field body "statusCode")))
    eqn:Hstatus; [by split|].
  assert (∀ rest : list (string * JS) * PutAnswer,
            ((is_defined (field body "customResponse") = true →
              is_container (field body "customResponse") = true) →
             (snd rest ≠ Success → fst rest = endpoints)
             ∧ (snd rest = Success →
                ∃ upper' endpointPath' config,
                  fst rest
                  = set_field (upper' +:+ ":" +:+ endpointPath') (JObj config)
                              endpoints
                  ∧ In upper' Validators.validMethods
                  ∧ Some endpointPath = Some endpointPath'
                  ∧ Validators.isValidEndpointPath (JStr endpointPath') = true
                  ∧ valid_settings config)) →
            let answer :=
              if is_defined (field body "customResponse") then
                if negb (is_container (field body "customResponse"))
                then (endpoints, BadCustomResponse)
                else
                  match stringify (field body "customResponse") with
                  | None => (endpoints, FailedToSave)
                  | Some serialized =>
                      if Z.ltb (1024 * 1024)
                               (Z.of_nat (String.length serialized))
                      then (endpoints, CustomResponseTooLarge)
                      else rest
                  end
              else rest in
            (snd answer ≠ Success → fst answer = endpoints)
            ∧ (snd answer = Success →
               ∃ upper' endpointPath' config,
                 fst answer
                 = set_field (upper' +:+ ":" +:+ endpointPath') (JObj config)
                             endpoints
                 ∧ In upper' Validators.validMethods
                 ∧ Some endpointPath = Some endpointPath'
                 ∧ Validators.isValidEndpointPath (JStr endpointPath') = true
                 ∧ valid_settings config)) as Hcustom.
  { intros rest Hrest answer. unfold answer.
    destruct (is_defined (field body "customResponse")); [|by apply Hrest].
    destruct (is_container (field body "customResponse")) eqn:Hc;
      cbn [negb]; [|by split].
    destruct (stringify _) as [serialized|]; [|by split].
    destruct (Z.ltb _ _); [by split|]. by apply Hrest. }
  apply Hcustom. intros Hcontainer.
  destruct (is_defined (field body "queueEnabled")
            && negb (is_bool (field body "queueEnabled")))
    eqn:Henabled; [by split|].
  destruct (is_defined (field body "queueSize")
            && negb (Validators.isInteger (field body "queueSize")
                     && Validators.in_range (field body "queueSize") 1 100))
    eqn:Hsize; [by split|].
  split; [done|]. intros _. eexists upper, endpointPath, _.
  split; [reflexivity|]. repeat split; try done.
  all: by apply checked_members_are_valid.
Qed.

End ServerFacts.

(** * Facts about the queue of requests *)
Module QueueFacts.
Import RequestQueue QueueVocabulary.

Section Queue.
Context {Item : Type}.
Variable maxSize : Z.

Lemma taken_dropped (waiting : list Item) :
  refused (map Dropped waiting) = [] ∧ taken (map Dropped waiting) = waiting.
Proof.
  induction waiting as [|x l [IH1 IH2]]; [done|].
  split; [exact IH1|]. change (taken (map Dropped (x :: l))) with (x :: taken (map Dropped l)).
  by rewrite IH2.
Qed.

(** What one event keeps true. [arrived], [turned] and [left] are the
    requests that arrived, were refused and left the queue so far. *)
Lemma step_keeps (event : Event Item) (st : State Item)
    (arrived turned left : list Item) :
  consistent st →
  (Z.of_nat (length (queue st)) ≤ Z.max 0 maxSize)%Z →
  arrived ≡ₚ turned ++ left ++ queue st →
  sublist (left ++ queue st) arrived →
  let after := step maxSize event st in
  consistent (fst after)
  ∧ (Z.of_nat (length (queue (fst after))) ≤ Z.max 0 maxSize)%Z
  ∧ arrived ++ enqueued [event]
    ≡ₚ (turned ++ refused (snd after)) ++ (left ++ taken (snd after))
       ++ queue (fst after)
  ∧ sublist ((left ++ taken (snd after)) ++ queue (fst after))
            (arrived ++ enqueued [event]).
Proof.
  intros [Hidle Hbusy] Hsize Hall Horder.
  destruct st as [waiting busy flight]. cbn [queue processing awaited] in *.
  destruct event as [item| |]; cbn [step].
  - change (enqueued [Enqueue item]) with [item].
    unfold enqueue. cbn [queue processing awaited].
    destruct (Z.leb_spec maxSize (Z.of_nat (length waiting))) as [Hfull|Hroom].
    + cbn [fst snd queue processing awaited].
      change (refused [Refused item]) with [item].
      change (taken [Refused item]) with (@nil Item).
      rewrite !app_nil_r. split; [done|]. split; [done|]. split.
      * rewrite Hall. solve_Permutation.
      * by apply sublist_inserts_r.
    + destruct busy.
      * cbn [fst snd queue processing awaited].
        change (refused []) with (@nil Item).
        change (taken []) with (@nil Item).
        rewrite !app_nil_r. split; [done|]. split.
        { rewrite length_app. simpl. lia. }
        split.
        -- rewrite Hall. solve_Permutation.
        -- rewrite app_assoc. by apply sublist_app.
      * destruct (Hidle eq_refl) as [-> ->].
        unfold processQueue, continue.
        cbn [fst snd queue processing awaited app].
        change (refused [Started item]) with (@nil Item).
        change (taken [Started item]) with [item].
        rewrite !app_nil_r in *. split.
        { split; [done|]. intros _. by eexists. }
        split; [simpl; lia|]. split.
        -- rewrite Hall. solve_Permutation.
        -- by apply sublist_app.
  - change (enqueued [Settle]) with (@nil Item).
    unfold settled. cbn [awaited]. destruct flight as [item|].
    + unfold continue. cbn [queue]. destruct waiting as [|next rest].
      * cbn [fst snd queue processing awaited].
        change (refused []) with (@nil Item).
        change (taken []) with (@nil Item).
        rewrite !app_nil_r in *. repeat split; try done.
      * cbn [fst snd queue processing awaited].
        change (refused [Started next]) with (@nil Item).
        change (taken [Started next]) with [next].
        rewrite !app_nil_r. split.
        { split; [done|]. intros _. by eexists. }
        split; [simpl in *; lia|]. split.
        -- rewrite Hall. solve_Permutation.
        -- by rewrite <- !app_assoc.
    + cbn [fst snd queue processing awaited].
      change (refused []) with (@nil Item).
      change (taken []) with (@nil Item).
      rewrite !app_nil_r. done.
  - change (enqueued [Clear]) with (@nil Item).
    unfold clear. cbn [fst snd queue processing awaited].
    destruct (taken_dropped waiting) as [-> ->].
    rewrite !app_nil_r. split.
    { split.
      - intros Hb. by destruct (Hidle Hb) as [_ ->].
      - done. }
    split; [simpl; lia|]. done.
Qed.

Lemma run_keeps (events : list (Event Item)) :
  ∀ (st : State Item) (arrived turned left : list Item),
    consistent st →
    (Z.of_nat (length (queue st)) ≤ Z.max 0 maxSize)%Z →
    arrived ≡ₚ turned ++ left ++ queue st →
    sublist (left ++ queue st) arrived →
    let after := run maxSize events st in
    consistent (fst after)
    ∧ (Z.of_nat (length (queue (fst after))) ≤ Z.max 0 maxSize)%Z
    ∧ arrived ++ enqueued events
      ≡ₚ (turned ++ refused (snd after)) ++ (left ++ taken (snd after))
         ++ queue (fst after)
    ∧ sublist ((left ++ taken (snd after)) ++ queue (fst after))
              (arrived ++ enqueued events).
Proof.
  induction events as [|event rest IH];
    intros st arrived turned left Hst Hsize Hall Horder; cbn [run].
  - cbn [fst snd]. change (enqueued []) with (@nil Item).
    change (refused []) with (@nil Item). change (taken []) with (@nil Item).
    by rewrite !app_nil_r.
  - destruct (step_keeps event st arrived turned left Hst Hsize Hall Horder)
      as (Hst1 & Hsize1 & Hall1 & Horder1).
    destruct (step maxSize event st) as [st1 first]. cbn [fst snd] in *.
    specialize (IH st1 (arrived ++ enqueued [event]) (turned ++ refused first)
                  (left ++ taken first) Hst1 Hsize1 Hall1 Horder1).
    destruct (run maxSize rest st1) as [st2 more]. cbn [fst snd] in *.
    destruct IH as (Hst2 & Hsize2 & Hall2 & Horder2).
    assert (enqueued (event :: rest) = enqueued [event] ++ enqueued rest) as ->.
    { unfold enqueued. cbn [omap list_omap]. by destruct event. }
    assert (refused (first ++ more) = refused first ++ refused more) as ->
      by apply omap_app.
    assert (taken (first ++ more) = taken first ++ taken more) as ->
      by apply omap_app.
    split; [done|]. split; [done|]. split.
    + rewrite app_assoc, Hall2. by rewrite <- !app_assoc.
    + rewrite (app_assoc arrived). by rewrite <- !app_assoc in *.
Qed.

End Queue.

(** X30. Whatever requests arrive, whenever the responses in flight end and
    whenever the queue is cleared: the queue never holds more than
    [maxSize] requests; every request that arrived was either refused, or
    has left the queue (its handler started, or dropped by [clear]), or
    still waits; the requests leave the queue in the order in which they
    arrived; and the loop runs exactly while a response is in flight, with
    nothing waiting when it does not run. *)
Theorem queue_is_bounded_and_first_in_first_out {Item : Type} (maxSize : Z)
    (events : list (Event Item)) :
  let after := run maxSize events initial in
  (Z.of_nat (getSize (fst after)) ≤ Z.max 0 maxSize)%Z
  ∧ enqueued events
    ≡ₚ refused (snd after) ++ taken (snd after) ++ queue (fst after)
  ∧ sublist (taken (snd after) ++ queue (fst after)) (enqueued events)
  ∧ consistent (fst after).
Proof.
  intros after.
  assert (consistent (@initial Item)) as Hinitial by done.
  destruct (run_keeps maxSize events initial [] [] [] Hinitial)
    as (Hst & Hsize & Hall & Horder);
    [simpl; lia|done|done|].
  fold after in Hst, Hsize, Hall, Horder. done.
Qed.

End QueueFacts.
